(** * OLauncherStatus: probing strategies, canonical comparison and the
      status cache of [server.js], as a shallow embedding.

    The repository holds two variants of the server: [src/server.js]
    (name-match and exact-JSON-match checks) and a second file whose
    checks are "any JSON" and "URL ok".  What they share (status test,
    abort timer, basic probe, status cache) is modelled once; what differs
    lives in the modules [Server] and [Variant]. *)

From Stdlib Require Import ZArith List Bool Ascii String Lia.
From Stdlib Require Import Permutation Sorted Mergesort Orders.
From Stdlib Require Import DecimalString DecimalZ.
Import ListNotations.

Local Open Scope string_scope.
Local Open Scope Z_scope.

(** ** JavaScript values that [JSON.parse] produces

    Strings are sequences of code units; the model keeps the code units
    below 256 (one [ascii] each).  An object is the list of its own
    properties; [JSON.parse] never produces two properties with one key.
    The order of the list is the order in which [Object.keys] lists them;
    the server sorts the keys or looks one up, so that no result depends
    on that order. *)

(** A number as [JSON.parse] yields it.  A finite number is written by the
    text [Number.prototype.toString] gives it ("1", "-2.5", "1e+21"):
    that text determines the number, except that 0 and -0 are both "0",
    and nothing in the server tells those two apart.  A numeral too large
    for a double parses to an infinite number. *)
Inductive Num : Type :=
| Finite (text : string)
| Infinite (negative : bool).

#[local] Unset Elimination Schemes.
Inductive JSON : Type :=
| JNull
| JBool (b : bool)
| JNum (n : Num)
| JStr (s : string)
| JArr (items : list JSON)
| JObj (props : list (string * JSON)).
#[local] Set Elimination Schemes.

(** Induction principle that reaches below arrays and objects. *)
Section JSON_induction.
Variable P : JSON -> Prop.
Hypothesis Hnull : P JNull.
Hypothesis Hbool : forall b, P (JBool b).
Hypothesis Hnum : forall n, P (JNum n).
Hypothesis Hstr : forall s, P (JStr s).
Hypothesis Harr : forall items, Forall P items -> P (JArr items).
Hypothesis Hobj : forall props, Forall (fun kv => P (snd kv)) props -> P (JObj props).

Fixpoint JSON_deep_ind (v : JSON) : P v :=
  match v with
  | JNull => Hnull
  | JBool b => Hbool b
  | JNum n => Hnum n
  | JStr s => Hstr s
  | JArr items =>
      Harr items
        ((fix go (l : list JSON) : Forall P l :=
            match l with
            | [] => Forall_nil P
            | x :: r => Forall_cons x (JSON_deep_ind x) (go r)
            end) items)
  | JObj props =>
      Hobj props
        ((fix go (l : list (string * JSON)) : Forall (fun kv => P (snd kv)) l :=
            match l with
            | [] => Forall_nil _
            | kv :: r => Forall_cons kv (JSON_deep_ind (snd kv)) (go r)
            end) props)
  end.
End JSON_induction.

(** [Object.keys(value)] and [value[k]] on a parsed object. *)
Definition Object_keys {A} (props : list (string * A)) : list string :=
  map fst props.

Fixpoint get_prop {A} (k : string) (props : list (string * A)) : option A :=
  match props with
  | [] => None
  | (k', v) :: r => if String.eqb k k' then Some v else get_prop k r
  end.

(** The code units of the text of a number: digits, sign, point and
    exponent mark; the text starts with a digit or the minus sign. *)
Definition digit (c : ascii) : bool :=
  let n := N_of_ascii c in ((48 <=? n) && (n <=? 57))%N.

Definition numeric (c : ascii) : bool :=
  digit c || Ascii.eqb c "-" || Ascii.eqb c "+" || Ascii.eqb c "." || Ascii.eqb c "e".

Definition number_start (c : ascii) : bool := digit c || Ascii.eqb c "-".

Fixpoint all_numeric (s : string) : bool :=
  match s with
  | EmptyString => true
  | String c r => numeric c && all_numeric r
  end.

Definition numeral (t : string) : bool :=
  match t with
  | EmptyString => false
  | String c _ => number_start c && all_numeric t
  end.

(** The number of an integer, as JavaScript prints integers of magnitude
    below 10^21. *)
Definition int (z : Z) : Num := Finite (NilZero.string_of_int (Z.to_int z)).

(** A value as [JSON.parse] builds it: every object below [v] has pairwise
    distinct keys and every finite number is written by a numeral. *)
Fixpoint wf_json (v : JSON) : Prop :=
  match v with
  | JNum (Finite t) => numeral t = true
  | JArr items =>
      (fix all (l : list JSON) : Prop :=
         match l with [] => True | x :: r => wf_json x /\ all r end) items
  | JObj props =>
      NoDup (Object_keys props) /\
      (fix all (l : list (string * JSON)) : Prop :=
         match l with [] => True | kv :: r => wf_json (snd kv) /\ all r end) props
  | _ => True
  end.

(** A well-formed value none of whose numbers overflowed to an infinity:
    what [JSON.parse] builds from a text whose numerals all fit a double. *)
Fixpoint plain_json (v : JSON) : Prop :=
  match v with
  | JNum (Finite t) => numeral t = true
  | JNum (Infinite _) => False
  | JArr items =>
      (fix all (l : list JSON) : Prop :=
         match l with [] => True | x :: r => plain_json x /\ all r end) items
  | JObj props =>
      NoDup (Object_keys props) /\
      (fix all (l : list (string * JSON)) : Prop :=
         match l with [] => True | kv :: r => plain_json (snd kv) /\ all r end) props
  | _ => True
  end.

(** [JSON.stringify] prints an infinity as [null]: the value with every
    infinity replaced by [null] prints the same text. *)
Fixpoint nonfinite_as_null (v : JSON) : JSON :=
  match v with
  | JNum (Infinite _) => JNull
  | JArr items => JArr (map nonfinite_as_null items)
  | JObj props =>
      JObj ((fix each (l : list (string * JSON)) : list (string * JSON) :=
               match l with
               | [] => []
               | (k, x) :: r => (k, nonfinite_as_null x) :: each r
               end) props)
  | _ => v
  end.

(** Nested calls of a recursive walk over the value: one for a primitive,
    one more than its deepest element for an array or an object. *)
Fixpoint depth (v : JSON) : nat :=
  match v with
  | JArr items =>
      S ((fix deepest (l : list JSON) : nat :=
            match l with [] => O | x :: r => Nat.max (depth x) (deepest r) end) items)
  | JObj props =>
      S ((fix deepest (l : list (string * JSON)) : nat :=
            match l with
            | [] => O
            | kv :: r => Nat.max (depth (snd kv)) (deepest r)
            end) props)
  | _ => 1%nat
  end.

(** ** [JSON.stringify] on primitives *)

Definition dquote : ascii := "034"%char.
Definition backslash : ascii := "092"%char.

Definition hex_digit (n : N) : ascii :=
  if (n <? 10)%N then ascii_of_N (48 + n) else ascii_of_N (87 + n).

(** QuoteJSONString, one code unit. *)
Definition quote_char (c : ascii) : string :=
  let n := N_of_ascii c in
  if (n =? 8)%N then String backslash "b"
  else if (n =? 9)%N then String backslash "t"
  else if (n =? 10)%N then String backslash "n"
  else if (n =? 12)%N then String backslash "f"
  else if (n =? 13)%N then String backslash "r"
  else if (n =? 34)%N then String backslash (String dquote "")
  else if (n =? 92)%N then String backslash (String backslash "")
  else if (n <? 32)%N then
    String backslash ("u00" ++ String (hex_digit (n / 16)) (String (hex_digit (n mod 16)) ""))
  else String c "".

Fixpoint quote_body (s : string) : string :=
  match s with
  | EmptyString => ""
  | String c r => quote_char c ++ quote_body r
  end.

Definition stringify_string (s : string) : string :=
  String dquote (quote_body s ++ String dquote "").

(** [JSON.stringify] on a number: its text when finite, else [null]. *)
Definition stringify_number (n : Num) : string :=
  match n with
  | Finite t => t
  | Infinite _ => "null"
  end.

(** ** [canonicalStringify] (server.js, lines 32-39) *)

(** What a call comes back with: a value, or an exception. *)
Inductive Outcome (A : Type) : Type :=
| Returns (a : A)
| Throws.
Arguments Returns {A} a.
Arguments Throws {A}.

(** [items.map(f)] where [f] may throw: the first exception ends it. *)
Fixpoint traverse {A B} (f : A -> Outcome B) (items : list A) : Outcome (list B) :=
  match items with
  | [] => Returns []
  | x :: r =>
      match f x with
      | Throws => Throws
      | Returns y =>
          match traverse f r with
          | Throws => Throws
          | Returns ys => Returns (y :: ys)
          end
      end
  end.


(** [keys.map(k => JSON.stringify(k) + ":" + canonicalStringify(value[k]))]
    over the already serialised property values; a key that is not there
    reads as [undefined]. *)
Definition member (vals : list (string * string)) (k : string) : string :=
  stringify_string k ++ ":" ++
  match get_prop k vals with
  | Some s => s
  | None => "undefined"
  end.

Module StringOrder <: TotalLeBool.
Definition t := string.
Definition leb := String.leb.
Theorem leb_total : forall a b, leb a b = true \/ leb b a = true.
Proof. exact String.leb_total. Qed.
End StringOrder.

Module KeySort := Sort StringOrder.

(** [Array.prototype.sort()] without a comparator: ascending code units. *)
Definition sort_keys (ks : list string) : list string := KeySort.sort ks.

(** The function recurses with no guard on depth: a value nested deeper
    than the call stack admits makes it throw [RangeError].  [stack] is
    the number of nested calls the engine still admits; an absent
    property reads as [undefined]. *)
Fixpoint canonicalStringify (stack : nat) (value : JSON) : Outcome string :=
  match stack with
  | O => Throws
  | S room =>
      match value with
      | JNull => Returns "null"
      | JBool true => Returns "true"
      | JBool false => Returns "false"
      | JNum n => Returns (stringify_number n)
      | JStr s => Returns (stringify_string s)
      | JArr items =>
          match traverse (canonicalStringify room) items with
          | Returns parts => Returns ("[" ++ String.concat "," parts ++ "]")
          | Throws => Throws
          end
      | JObj props =>
          let keys := sort_keys (Object_keys props) in
          match
            traverse
              (fun k =>
                 match get_prop k props with
                 | Some v =>
                     match canonicalStringify room v with
                     | Returns text => Returns (stringify_string k ++ ":" ++ text)
                     | Throws => Throws
                     end
                 | None => Returns (stringify_string k ++ ":" ++ "undefined")
                 end)
              keys
          with
          | Returns parts => Returns ("{" ++ String.concat "," parts ++ "}")
          | Throws => Throws
          end
      end
  end.

(** The string [canonicalStringify] returns when it returns. *)
Fixpoint canonical_text (value : JSON) : string :=
  match value with
  | JNull => "null"
  | JBool true => "true"
  | JBool false => "false"
  | JNum n => stringify_number n
  | JStr s => stringify_string s
  | JArr items =>
      "[" ++ String.concat "," (map canonical_text items) ++ "]"
  | JObj props =>
      let vals :=
        (fix each (l : list (string * JSON)) : list (string * string) :=
           match l with
           | [] => []
           | (k, v) :: r => (k, canonical_text v) :: each r
           end) props in
      let keys := sort_keys (Object_keys props) in
      "{" ++ String.concat "," (map (member vals) keys) ++ "}"
  end.

(** *** The same function on the heap

    A parsed document lives on the heap: an array or an object is a
    reference to a cell that any holder of the reference may read and
    write.  This is the function with its reads, allocations and its one
    write spelled out, to see what it does to the cells of its argument. *)
Definition addr := nat.

Inductive Value : Type :=
| VNull
| VBool (b : bool)
| VNum (n : Num)
| VStr (s : string)
| VRef (a : addr).

Inductive Cell : Type :=
| OArr (items : list Value)
| OObj (fields : list (string * Value)).

(** The cells allocated so far; a reference is an index into the list. *)
Definition Heap := list Cell.

Definition alloc (c : Cell) (h : Heap) : addr * Heap :=
  (List.length h, (h ++ [c])%list).

Fixpoint write (a : addr) (c : Cell) (h : Heap) : Heap :=
  match h, a with
  | [], _ => []
  | _ :: r, O => c :: r
  | x :: r, S a' => x :: write a' c r
  end.

(** [value[i]] on an array and [value[k]] on an object, read when asked;
    [None] is [undefined]. *)
Definition element (a : addr) (i : nat) (h : Heap) : option Value :=
  match nth_error h a with
  | Some (OArr items) => nth_error items i
  | _ => None
  end.

Definition property (a : addr) (k : string) (h : Heap) : option Value :=
  match nth_error h a with
  | Some (OObj fields) => get_prop k fields
  | _ => None
  end.

Fixpoint strings (items : list Value) : list string :=
  match items with
  | [] => []
  | VStr s :: r => s :: strings r
  | _ :: r => strings r
  end.

(** [keys.sort()]: the array at [a] is sorted where it is. *)
Definition sort_in_place (a : addr) (h : Heap) : Heap :=
  match nth_error h a with
  | Some (OArr items) => write a (OArr (map VStr (sort_keys (strings items)))) h
  | _ => h
  end.

Definition strings_at (a : addr) (h : Heap) : list string :=
  match nth_error h a with
  | Some (OArr items) => strings items
  | _ => []
  end.

(** [Array.prototype.map] with a callback that works on the heap and may
    throw. *)
Fixpoint map_heap {A} (f : A -> Heap -> Outcome string * Heap) (l : list A) (h : Heap)
  : Outcome (list string) * Heap :=
  match l with
  | [] => (Returns [], h)
  | x :: r =>
      match f x h with
      | (Throws, h1) => (Throws, h1)
      | (Returns y, h1) =>
          match map_heap f r h1 with
          | (Throws, h2) => (Throws, h2)
          | (Returns ys, h2) => (Returns (y :: ys), h2)
          end
      end
  end.

(** [map] visits the indices the array had when it was called and reads
    each element when its turn comes; an index that is no longer there
    leaves a hole, which [join] prints as the empty string.  [Object.keys]
    allocates a new array, [sort] writes to that array, each [map]
    allocates the array of its results.  A reference to no cell does not
    occur in a running program. *)
Fixpoint canonicalStringify_heap (stack : nat) (value : Value) (h : Heap)
  : Outcome string * Heap :=
  match stack with
  | O => (Throws, h)
  | S room =>
      match value with
      | VNull => (Returns "null", h)
      | VBool true => (Returns "true", h)
      | VBool false => (Returns "false", h)
      | VNum n => (Returns (stringify_number n), h)
      | VStr s => (Returns (stringify_string s), h)
      | VRef a =>
          match nth_error h a with
          | None => (Throws, h)
          | Some (OArr items) =>
              match
                map_heap
                  (fun i h' =>
                     match element a i h' with
                     | Some x => canonicalStringify_heap room x h'
                     | None => (Returns "", h')
                     end)
                  (seq 0 (List.length items)) h
              with
              | (Returns parts, h1) =>
                  (Returns ("[" ++ String.concat "," parts ++ "]"),
                   snd (alloc (OArr (map VStr parts)) h1))
              | (Throws, h1) => (Throws, h1)
              end
          | Some (OObj fields) =>
              let (ka, h1) := alloc (OArr (map VStr (Object_keys fields))) h in
              let h2 := sort_in_place ka h1 in
              let keys := strings_at ka h2 in
              match
                map_heap
                  (fun k h' =>
                     match property a k h' with
                     | Some x =>
                         match canonicalStringify_heap room x h' with
                         | (Returns text, h'') =>
                             (Returns (stringify_string k ++ ":" ++ text), h'')
                         | (Throws, h'') => (Throws, h'')
                         end
                     | None => (Returns (stringify_string k ++ ":" ++ "undefined"), h')
                     end)
                  keys h2
              with
              | (Returns parts, h3) =>
                  (Returns ("{" ++ String.concat "," parts ++ "}"),
                   snd (alloc (OArr (map VStr parts)) h3))
              | (Throws, h3) => (Throws, h3)
              end
          end
      end
  end.

(** The heap [h] holds the document [v] at [value]. *)
#[local] Unset Elimination Schemes.
Inductive represents (h : Heap) : Value -> JSON -> Prop :=
| represents_null : represents h VNull JNull
| represents_bool : forall b, represents h (VBool b) (JBool b)
| represents_num : forall n, represents h (VNum n) (JNum n)
| represents_str : forall s, represents h (VStr s) (JStr s)
| represents_arr : forall a vals items,
    nth_error h a = Some (OArr vals) ->
    Forall2 (represents h) vals items ->
    represents h (VRef a) (JArr items)
| represents_obj : forall a fields props,
    nth_error h a = Some (OObj fields) ->
    Forall2 (fun f p => fst f = fst p /\ represents h (snd f) (snd p)) fields props ->
    represents h (VRef a) (JObj props).
#[local] Set Elimination Schemes.

(** ** Verdicts, requests and the environment of a probe *)

Inductive Verdict : Type := green | red.

Inductive Method : Type := HEAD | GET.

(** What the code reads of a [Response]: [res.status],
    [res.headers.get("content-type")] ([None] for [null]) and what
    [res.json()] settles to ([None] when it rejects). *)
Record Response : Type := {
  status : Z;
  content_type : option string;
  json : option JSON
}.

Inductive Fetched : Type :=
| Rejects
| Resolves (res : Response).

(** The outside of the process during one probe: how [fetch] settles for a
    method and URL (a rejection covers connection failure and the abort
    of the timer), and what [JSON.parse(fs.readFileSync(path, "utf8"))]
    evaluates to ([None] when either call throws). *)
Record World : Type := {
  net : Method -> string -> Fetched;
  file : string -> option JSON
}.

Inductive Event : Type :=
| EvSetTimeout (timer : nat) (ms : Z)
| EvClearTimeout (timer : nat)
| EvFetch (m : Method) (url : string) (signal : nat)
| EvJson
| EvReadFile (path : string)
| EvWarn (path : string).

(** What a probe leaves behind: the events in the order they happened and
    the number of abort controllers created so far. *)
Record Store : Type := {
  log : list Event;
  timers : nat
}.

Definition emit (e : Event) (s : Store) : Store :=
  {| log := log s ++ [e]; timers := timers s |}.

(** Code that reads the world, writes the store and may throw. *)
Definition Eff (A : Type) : Type := World -> Store -> Outcome A * Store.

Definition ret {A} (a : A) : Eff A := fun _ s => (Returns a, s).

Definition bind {A B} (m : Eff A) (k : A -> Eff B) : Eff B :=
  fun w s =>
    match m w s with
    | (Returns a, s') => k a w s'
    | (Throws, s') => (Throws, s')
    end.

Declare Scope eff_scope.
Delimit Scope eff_scope with eff.
Notation "x <- m ;; k" := (bind m (fun x => k))
  (at level 61, m at next level, right associativity) : eff_scope.
Notation "m ;;; k" := (bind m (fun _ => k))
  (at level 61, right associativity) : eff_scope.
Local Open Scope eff_scope.

(** [try { m } catch { h }] *)
Definition try_catch {A} (m h : Eff A) : Eff A :=
  fun w s =>
    match m w s with
    | (Throws, s') => h w s'
    | r => r
    end.

(** [try { m } finally { f }] *)
Definition try_finally {A} (m : Eff A) (f : Eff unit) : Eff A :=
  fun w s =>
    match m w s with
    | (o, s') =>
        match f w s' with
        | (Returns _, s'') => (o, s'')
        | (Throws, s'') => (Throws, s'')
        end
    end.

Definition tell (e : Event) : Eff unit := fun _ s => (Returns tt, emit e s).

(** A call that touches neither the world nor the store. *)
Definition invoke {A} (o : Outcome A) : Eff A := fun _ s => (o, s).

(** [fetch(url, { method, redirect: "follow", signal })] *)
Definition fetch (url : string) (m : Method) (signal : nat) : Eff Response :=
  fun w s =>
    match net w m url with
    | Resolves res => (Returns res, emit (EvFetch m url signal) s)
    | Rejects => (Throws, emit (EvFetch m url signal) s)
    end.

(** [res.json()] *)
Definition res_json (res : Response) : Eff JSON :=
  fun _ s =>
    match json res with
    | Some v => (Returns v, emit EvJson s)
    | None => (Throws, emit EvJson s)
    end.

(** [JSON.parse(fs.readFileSync(path, "utf8"))]; for [readJsonFile] the
    text is parsed after a leading byte-order mark is dropped. *)
Definition parse_file (path : string) : Eff JSON :=
  fun w s =>
    match file w path with
    | Some v => (Returns v, emit (EvReadFile path) s)
    | None => (Throws, emit (EvReadFile path) s)
    end.

(** ** Configuration read from the process environment *)

(** The four settings the server reads, and [STACK_ROOM]: the number of
    nested calls of [canonicalStringify] the engine admits where a probe
    calls it, which depends on the engine and on the size of its stack. *)
Record Config : Type := {
  PROBE_TIMEOUT_MS : Z;
  CACHE_TTL_MS : Z;
  EXPECTED_SESSION_JSON_PATH : string;
  EXPECTED_APIMS_JSON_PATH : string;
  STACK_ROOM : nat
}.

Definition default_config : Config := {|
  PROBE_TIMEOUT_MS := 2500;
  CACHE_TTL_MS := 30000;
  EXPECTED_SESSION_JSON_PATH := "./sessionserver.json";
  EXPECTED_APIMS_JSON_PATH := "./apiminecraftservices.json";
  STACK_ROOM := 3000
|}.

(** ** JavaScript operators on parsed values *)

(** ToBoolean *)
Definition truthy (v : JSON) : bool :=
  match v with
  | JNull => false
  | JBool b => b
  | JNum (Finite t) => negb (String.eqb t "0")
  | JNum (Infinite _) => true
  | JStr s => negb (String.eqb s "")
  | JArr _ | JObj _ => true
  end.

(** [v?.name]: [None] is [undefined].  Only an object can own the
    property; no prototype of a parsed value defines it. *)
Definition name_of (v : JSON) : option JSON :=
  match v with
  | JObj props => get_prop "name" props
  | _ => None
  end.

(** [x === y] where [x] was read from one parsed document and [y] from
    another: primitives compare by value, while two objects or arrays of
    different documents are never the same reference. *)
Definition strict_eq (x : option JSON) (y : JSON) : bool :=
  match x, y with
  | Some JNull, JNull => true
  | Some (JBool a), JBool b => Bool.eqb a b
  | Some (JNum (Finite a)), JNum (Finite b) => String.eqb a b
  | Some (JNum (Infinite a)), JNum (Infinite b) => Bool.eqb a b
  | Some (JStr a), JStr b => String.eqb a b
  | _, _ => false
  end.

(** [v == null] *)
Definition is_null (v : JSON) : bool :=
  match v with
  | JNull => true
  | _ => false
  end.

(** [x || null] *)
Definition or_null (x : option JSON) : JSON :=
  match x with
  | Some v => if truthy v then v else JNull
  | None => JNull
  end.

(** [String.prototype.toLowerCase] on code units below 256. *)
Definition lower_char (c : ascii) : ascii :=
  let n := N_of_ascii c in
  if ((65 <=? n) && (n <=? 90))%N then ascii_of_N (n + 32)
  else if ((192 <=? n) && (n <=? 222) && negb (n =? 215))%N then ascii_of_N (n + 32)
  else c.

Fixpoint toLowerCase (s : string) : string :=
  match s with
  | EmptyString => EmptyString
  | String c r => String (lower_char c) (toLowerCase r)
  end.

(** [s.includes(pat)] *)
Fixpoint includes (s pat : string) : bool :=
  String.prefix pat s ||
  match s with
  | EmptyString => false
  | String _ r => includes r pat
  end.

(** ** Shared probe code *)

(** [isOkStatus] (server.js, lines 68-70) *)
Definition isOkStatus (code : Z) : bool := (200 <=? code) && (code <? 400).

Definition verdict_of (ok : bool) : Verdict := if ok then green else red.

Section Probes.
Variable cfg : Config.

(** [abortSignalWithTimeout] (lines 72-76): the number returned names
    the controller, its signal and its timer. *)
Definition abortSignalWithTimeout (ms : Z) : Eff nat :=
  fun _ s =>
    (Returns (timers s),
     {| log := log s ++ [EvSetTimeout (timers s) ms]; timers := S (timers s) |}).

Definition cancel (timer : nat) : Eff unit := tell (EvClearTimeout timer).

(** [readJsonFile] (lines 22-30): [JNull] is the [null] it returns. *)
Definition readJsonFile (path : string) : Eff JSON :=
  try_catch (parse_file path) (tell (EvWarn path) ;;; ret JNull).

(** [probeHostBasic] (lines 78-95) *)
Definition tryMethod (url : string) (signal : nat) (method : Method) : Eff bool :=
  try_catch
    (res <- fetch url method signal ;;
     ret (isOkStatus (status res)))
    (ret false).

Definition probeHostBasic (host : string) : Eff Verdict :=
  let url := "https://" ++ host ++ "/" in
  t <- abortSignalWithTimeout (PROBE_TIMEOUT_MS cfg) ;;
  ok <- tryMethod url t HEAD ;;
  ok <- (if negb ok then tryMethod url t GET else ret ok) ;;
  cancel t ;;;
  ret (verdict_of ok).

(** [probeNameMatch] (server.js, lines 97-110) *)
Definition probeNameMatch (url : string) (expectedName : JSON) : Eff Verdict :=
  if negb (truthy expectedName) then ret red
  else
    t <- abortSignalWithTimeout (PROBE_TIMEOUT_MS cfg) ;;
    try_finally
      (try_catch
         (res <- fetch url GET t ;;
          if negb (isOkStatus (status res)) then ret red
          else
            live <- res_json res ;;
            ret (verdict_of (strict_eq (name_of live) expectedName)))
         (ret red))
      (cancel t).

(** [probeJsonExactMatch] (server.js, lines 112-130) *)
Definition probeJsonExactMatch (url expectedJsonPath : string) : Eff Verdict :=
  expected <- readJsonFile expectedJsonPath ;;
  if is_null expected then ret red
  else
    t <- abortSignalWithTimeout (PROBE_TIMEOUT_MS cfg) ;;
    try_finally
      (try_catch
         (res <- fetch url GET t ;;
          if negb (isOkStatus (status res)) then ret red
          else
            live <- res_json res ;;
            liveCanon <- invoke (canonicalStringify (STACK_ROOM cfg) live) ;;
            expCanon <- invoke (canonicalStringify (STACK_ROOM cfg) expected) ;;
            ret (verdict_of (String.eqb liveCanon expCanon)))
         (ret red))
      (cancel t).

(** [probeJsonAny] (second variant, lines 69-90) *)
Definition probeJsonAny (url : string) : Eff Verdict :=
  t <- abortSignalWithTimeout (PROBE_TIMEOUT_MS cfg) ;;
  try_finally
    (try_catch
       (res <- fetch url GET t ;;
        if negb (isOkStatus (status res)) then ret red
        else
          let ct :=
            toLowerCase
              (match content_type res with
               | Some h => if String.eqb h "" then "" else h
               | None => ""
               end) in
          if includes ct "application/json" || includes ct "+json" then ret green
          else try_catch (res_json res ;;; ret green) (ret red))
       (ret red))
    (cancel t).

(** [probeUrlOk] (second variant, lines 92-102) *)
Definition probeUrlOk (url : string) : Eff Verdict :=
  t <- abortSignalWithTimeout (PROBE_TIMEOUT_MS cfg) ;;
  try_finally
    (try_catch
       (res <- fetch url GET t ;;
        ret (verdict_of (isOkStatus (status res))))
       (ret red))
    (cancel t).

(** The top-level [try] of server.js, lines 14-20. *)
Definition load_EXPECTED_SESSION_NAME : Eff JSON :=
  try_catch
    (data <- parse_file (EXPECTED_SESSION_JSON_PATH cfg) ;;
     ret (or_null (name_of data)))
    (tell (EvWarn (EXPECTED_SESSION_JSON_PATH cfg)) ;;; ret JNull).
End Probes.

(** ** The two host tables and their dispatch *)

Module Server.
(** An entry of [CUSTOM_CHECKS], by its [type]. *)
Inductive Custom : Type :=
| nameMatch (url : string) (expectedName : JSON)
| jsonExactMatch (url expectedJsonPath : string).

Definition HOSTS : list string := [
  "minecraft.net";
  "session.minecraft.net";
  "api.mojang.com";
  "authserver.mojang.com";
  "sessionserver.mojang.com";
  "login.microsoftonline.com";
  "textures.minecraft.net";
  "pc.realms.minecraft.net";
  "resources.download.minecraft.net";
  "libraries.minecraft.net";
  "api.minecraftservices.com"
].

Definition CUSTOM_CHECKS (cfg : Config) (EXPECTED_SESSION_NAME : JSON)
    (host : string) : option Custom :=
  if String.eqb host "sessionserver.mojang.com" then
    Some (nameMatch
            "https://sessionserver.mojang.com/session/minecraft/profile/853c80ef3c3749fdaa49938b674adae6"
            EXPECTED_SESSION_NAME)
  else if String.eqb host "api.minecraftservices.com" then
    Some (jsonExactMatch
            "https://api.minecraftservices.com/minecraft/profile/"
            (EXPECTED_APIMS_JSON_PATH cfg))
  else None.

(** [probeHost] (server.js, lines 132-141) *)
Definition probeHost (cfg : Config) (EXPECTED_SESSION_NAME : JSON)
    (host : string) : Eff Verdict :=
  match CUSTOM_CHECKS cfg EXPECTED_SESSION_NAME host with
  | Some (nameMatch url expectedName) => probeNameMatch cfg url expectedName
  | Some (jsonExactMatch url expectedJsonPath) =>
      probeJsonExactMatch cfg url expectedJsonPath
  | None => probeHostBasic cfg host
  end.
End Server.

Module Variant.
Inductive Custom : Type :=
| jsonAny (url : string)
| urlOk (url : string).

Definition HOSTS : list string := [
  "minecraft.net";
  "sessionserver.mojang.com";
  "login.microsoftonline.com";
  "textures.minecraft.net";
  "resources.download.minecraft.net";
  "libraries.minecraft.net";
  "api.minecraftservices.com"
].

Definition CUSTOM_CHECKS (host : string) : option Custom :=
  if String.eqb host "sessionserver.mojang.com" then
    Some (jsonAny
            "https://sessionserver.mojang.com/session/minecraft/profile/853c80ef3c3749fdaa49938b674adae6")
  else if String.eqb host "api.minecraftservices.com" then
    Some (jsonAny "https://api.minecraftservices.com/minecraft/profile/lookup/name/jeb_")
  else if String.eqb host "libraries.minecraft.net" then
    Some (urlOk
            "https://libraries.minecraft.net/net/minecraft/launchwrapper/1.12/launchwrapper-1.12.pom")
  else if String.eqb host "textures.minecraft.net" then
    Some (urlOk
            "https://textures.minecraft.net/texture/7fd9ba42a7c81eeea22f1524271ae85a8e045ce0af5a6ae16c6406ae917e68b5")
  else if String.eqb host "resources.download.minecraft.net" then
    Some (urlOk
            "https://resources.download.minecraft.net/aa/aa1d3aace1c481ac32d5827fba287294b6bc99fb")
  else None.

Definition probeHost (cfg : Config) (host : string) : Eff Verdict :=
  match CUSTOM_CHECKS host with
  | Some (jsonAny url) => probeJsonAny cfg url
  | Some (urlOk url) => probeUrlOk cfg url
  | None => probeHostBasic cfg host
  end.
End Variant.

(** ** The status cache and [getStatusData] (server.js, lines 143-158)

    JavaScript runs one piece of code at a time: a call of
    [getStatusData] up to its [return], and later the rest of the refresh
    once every probe has settled.  The process is modelled by these two
    kinds of atomic steps; any number of refreshes may be pending in the
    model, and which of them settles next is up to the schedule. *)

Definition Payload : Type := list (string * Verdict).

Record Cache : Type := {
  data : option Payload;
  expires : Z;
  inFlight : option nat
}.

(** A refresh that has started and not yet finished: the promise it will
    settle, the [now] its call captured, and what its probes come back
    with. *)
Record Flight : Type := {
  flight_promise : nat;
  flight_now : Z;
  flight_results : Outcome (list Verdict)
}.

Record Process : Type := {
  cache : Cache;
  running : list Flight;
  fulfilled : list (nat * Payload);
  promises : nat;
  refreshes : nat;
  store : Store
}.

(** What a caller of [getStatusData] holds: the cached array itself, or a
    promise of a refresh. *)
Inductive Reply : Type :=
| Cached (payload : Payload)
| Awaits (promise : nat).

Definition is_fetch (e : Event) : bool :=
  match e with EvFetch _ _ _ => true | _ => false end.

(** Outbound requests issued so far. *)
Definition requests (s : Store) : nat := List.length (filter is_fetch (log s)).

Section StatusCache.
Variable ttl : Z.
Variable HOSTS : list string.
Variable probeHost : string -> Eff Verdict.

(** [Promise.all(HOSTS.map((h) => probeHost(h)))]: the verdicts in host
    order.  The log lists the probes' events host by host; the run-time
    order is an interleaving that keeps each probe's own order. *)
Fixpoint probe_all (hosts : list string) : Eff (list Verdict) :=
  match hosts with
  | [] => ret []
  | h :: r =>
      v <- probeHost h ;;
      vs <- probe_all r ;;
      ret (v :: vs)
  end.

(** [HOSTS.map((h, i) => ({ [h]: results[i] }))] *)
Definition payload_of (results : list Verdict) : Payload := combine HOSTS results.

Definition initial : Process := {|
  cache := {| data := None; expires := 0; inFlight := None |};
  running := [];
  fulfilled := [];
  promises := 0;
  refreshes := 0;
  store := {| log := []; timers := 0 |}
|}.

(** [cache.data && cache.expires > now] *)
Definition fresh (c : Cache) (now : Z) : bool :=
  match data c with
  | Some _ => expires c >? now
  | None => false
  end.

(** Lines 150-157: the refresh starts, its promise goes to
    [cache.inFlight] and to the caller.  [w] is what its probes meet. *)
Definition start_refresh (now : Z) (w : World) (s : Process) : Reply * Process :=
  let c := cache s in
  let p := promises s in
  let (results, st) := probe_all HOSTS w (store s) in
  (Awaits p,
   {| cache := {| data := data c; expires := expires c; inFlight := Some p |};
      running :=
        {| flight_promise := p; flight_now := now; flight_results := results |}
        :: running s;
      fulfilled := fulfilled s;
      promises := S p;
      refreshes := S (refreshes s);
      store := st |}).

(** A call of [getStatusData] when [Date.now()] reads [now]. *)
Definition getStatusData (now : Z) (w : World) (s : Process) : Reply * Process :=
  let c := cache s in
  match data c, expires c >? now with
  | Some d, true => (Cached d, s)
  | _, _ =>
      match inFlight c with
      | Some p => (Awaits p, s)
      | None => start_refresh now w s
      end
  end.

Definition is_flight (p : nat) (f : Flight) : bool := Nat.eqb (flight_promise f) p.

(** The rest of the refresh behind promise [p], run when its probes have
    all settled: lines 152-154.  [None] when no such refresh is pending. *)
Definition settle (p : nat) (s : Process) : option Process :=
  match find (is_flight p) (running s) with
  | None => None
  | Some f =>
      let others := filter (fun g => negb (is_flight p g)) (running s) in
      match flight_results f with
      | Returns results =>
          let payload := payload_of results in
          Some {| cache :=
                    {| data := Some payload;
                       expires := flight_now f + ttl;
                       inFlight := None |};
                  running := others;
                  fulfilled := (p, payload) :: fulfilled s;
                  promises := promises s;
                  refreshes := refreshes s;
                  store := store s |}
      | Throws =>
          Some {| cache := cache s;
                  running := others;
                  fulfilled := fulfilled s;
                  promises := promises s;
                  refreshes := refreshes s;
                  store := store s |}
      end
  end.

(** What a schedule is made of.  [Done p t]: the refresh behind promise
    [p] finishes at clock reading [t]. *)
Inductive Action : Type :=
| Call (now : Z) (w : World)
| Done (p : nat) (t : Z).

Definition step (s : Process) (a : Action) : option (Process * option Reply) :=
  match a with
  | Call now w => let (r, s') := getStatusData now w s in Some (s', Some r)
  | Done p _ => option_map (fun s' => (s', None)) (settle p s)
  end.

(** Runs a schedule; the replies come out in call order. *)
Fixpoint exec (s : Process) (sched : list Action) : option (Process * list Reply) :=
  match sched with
  | [] => Some (s, [])
  | a :: rest =>
      match step s a with
      | None => None
      | Some (s', r) =>
          match exec s' rest with
          | None => None
          | Some (s'', rs) =>
              Some (s'', match r with Some x => x :: rs | None => rs end)
          end
      end
  end.

(** What a reply is worth once promises have settled. *)
Definition delivered (s : Process) (r : Reply) : option Payload :=
  match r with
  | Cached d => Some d
  | Awaits p =>
      option_map snd (find (fun e => Nat.eqb (fst e) p) (fulfilled s))
  end.
End StatusCache.

(** ** Vocabulary of the statements *)

(** A request came back with a status in [200, 400). *)
Definition ok_reply (f : Fetched) : bool :=
  match f with
  | Resolves res => isOkStatus (status res)
  | Rejects => false
  end.

(** [res.headers.get("content-type")] names JSON the way [probeJsonAny]
    tests it. *)
Definition header_names_json (res : Response) : bool :=
  let ct :=
    toLowerCase (match content_type res with Some h => h | None => "" end) in
  includes ct "application/json" || includes ct "+json".

Definition is_warn (e : Event) : bool :=
  match e with EvWarn _ => true | _ => false end.

(** The refreshes still pending are at most the one [cache.inFlight] holds. *)
Definition single_flight (s : Process) : Prop :=
  running s = [] \/
  exists f, running s = [f] /\ inFlight (cache s) = Some (flight_promise f).

(** Two parsed values that differ only in the order of the properties of
    their objects, at any depth: the least relation that is reflexive and
    transitive, lets the properties of an object be permuted, and passes
    through array items and property values. *)
Inductive reorder : JSON -> JSON -> Prop :=
| reorder_refl : forall v, reorder v v
| reorder_trans : forall u v w, reorder u v -> reorder v w -> reorder u w
| reorder_props : forall p q, Permutation p q -> reorder (JObj p) (JObj q)
| reorder_item : forall l1 v w l2,
    reorder v w -> reorder (JArr (l1 ++ v :: l2)) (JArr (l1 ++ w :: l2))
| reorder_value : forall p1 k v w p2,
    reorder v w -> reorder (JObj (p1 ++ (k, v) :: p2)) (JObj (p1 ++ (k, w) :: p2)).

(** ** Reading a canonical string back

    Used to show that the canonical form tells values apart. *)

Definition hex_value (c : ascii) : option N :=
  let n := N_of_ascii c in
  if ((48 <=? n) && (n <=? 57))%N then Some (n - 48)%N
  else if ((97 <=? n) && (n <=? 102))%N then Some (n - 87)%N
  else None.

(** The first code unit of a quoted string body and what follows it;
    [None] at the closing quote. *)
Definition unquote_head (s : string) : option (ascii * string) :=
  match s with
  | EmptyString => None
  | String c r =>
      if Ascii.eqb c dquote then None
      else if Ascii.eqb c backslash then
        match r with
        | EmptyString => None
        | String e r' =>
            if Ascii.eqb e "b" then Some (ascii_of_N 8, r')
            else if Ascii.eqb e "t" then Some (ascii_of_N 9, r')
            else if Ascii.eqb e "n" then Some (ascii_of_N 10, r')
            else if Ascii.eqb e "f" then Some (ascii_of_N 12, r')
            else if Ascii.eqb e "r" then Some (ascii_of_N 13, r')
            else if Ascii.eqb e dquote then Some (dquote, r')
            else if Ascii.eqb e backslash then Some (backslash, r')
            else
              match r' with
              | String _ (String _ (String h (String l r''))) =>
                  match hex_value h, hex_value l with
                  | Some x, Some y => Some (ascii_of_N (16 * x + y), r'')
                  | _, _ => None
                  end
              | _ => None
              end
        end
      else Some (c, r)
  end.

(** What may follow a printed number: the end, or a code unit no number
    contains. *)
Definition stops (r : string) : Prop :=
  match r with
  | EmptyString => True
  | String c _ => numeric c = false
  end.

(** The kind of value a canonical string starts, read off its first code
    unit, and the kind of a value. *)
Definition char_kind (c : ascii) : nat :=
  if Ascii.eqb c "n" then 0
  else if Ascii.eqb c "t" || Ascii.eqb c "f" then 1
  else if number_start c then 2
  else if Ascii.eqb c dquote then 3
  else if Ascii.eqb c "[" then 4
  else if Ascii.eqb c "{" then 5
  else 6.

Definition kind (v : JSON) : nat :=
  match v with
  | JNull => 0
  | JBool _ => 1
  | JNum _ => 2
  | JStr _ => 3
  | JArr _ => 4
  | JObj _ => 5
  end.

(** What [join] puts after the first item. *)
Fixpoint join_tail (sep : string) (items : list string) : string :=
  match items with
  | [] => ""
  | x :: r => sep ++ x ++ join_tail sep r
  end.

(** The serialised property values, as [canonical_text] builds them. *)
Definition canon_values (props : list (string * JSON)) : list (string * string) :=
  map (fun kv => (fst kv, canonical_text (snd kv))) props.

(** The value under key [k], [null] when there is none. *)
Definition value_at (props : list (string * JSON)) (k : string) : JSON :=
  match get_prop k props with
  | Some v => v
  | None => JNull
  end.

(** The canonical string of [v], followed by anything a number cannot run
    into, determines [v] up to the order of properties, and what follows. *)
Definition separates (v : JSON) : Prop :=
  plain_json v ->
  forall w r1 r2,
    plain_json w -> stops r1 -> stops r2 ->
    canonical_text v ++ r1 = canonical_text w ++ r2 ->
    reorder v w /\ r1 = r2.

(** ** Sample worlds and states used in the examples below *)

Definition offline : World := {|
  net := fun _ _ => Rejects;
  file := fun _ => None
|}.

Definition reply (code : Z) (ct : option string) (body : option JSON) : Fetched :=
  Resolves {| status := code; content_type := ct; json := body |}.

(** Every request is answered with the same response. *)
Definition always (f : Fetched) (doc : option JSON) : World := {|
  net := fun _ _ => f;
  file := fun _ => doc
|}.

(** [HEAD] and [GET] are answered with different status codes. *)
Definition by_method (head get : Z) : World := {|
  net := fun m _ =>
    match m with
    | HEAD => reply head None None
    | GET => reply get None None
    end;
  file := fun _ => None
|}.

Definition empty_store : Store := {| log := []; timers := 0 |}.

Definition warm : Process := {|
  cache := {| data := Some [("minecraft.net", green)]; expires := 30000; inFlight := None |};
  running := [];
  fulfilled := [(0%nat, [("minecraft.net", green)])];
  promises := 1;
  refreshes := 1;
  store := empty_store
|}.

Definition jeb : JSON := JObj [("id", JStr "853c80ef3c3749fdaa49938b674adae6"); ("name", JStr "jeb_")].
Definition Jeb : JSON := JObj [("id", JStr "853c80ef3c3749fdaa49938b674adae6"); ("name", JStr "Jeb_")].

Definition obj_ba : JSON := JObj [("b", JNum (int 1)); ("a", JNum (int 2))].
Definition obj_ab : JSON := JObj [("a", JNum (int 2)); ("b", JNum (int 1))].

(** A status-200 response labelled [text/json] whose body does not parse. *)
Definition text_json_garbage : Response :=
  {| status := 200; content_type := Some "text/json"; json := None |}.

Definition profile_url : string := "https://api.minecraftservices.com/minecraft/profile/".

(** The reference file is absent and the endpoint serves [obj_ab]. *)
Definition reference_absent : World :=
  always (reply 200 (Some "application/json") (Some obj_ab)) None.

(** The same endpoint once the reference file holds [obj_ba]. *)
Definition reference_present : World :=
  always (reply 200 (Some "application/json") (Some obj_ab)) (Some obj_ba).

(** Two calls start and share a refresh; it finishes; much later two more
    calls find the cache expired. *)
Definition demo_schedule : list Action :=
  [Call 0 offline; Call 5 offline; Done 0 2600; Call 40000 offline; Call 40001 offline].

Definition arr_12 : JSON := JArr [JNum (int 1); JNum (int 2)].
Definition arr_21 : JSON := JArr [JNum (int 2); JNum (int 1)].

(** [v] inside [n] arrays, one in the other. *)
Fixpoint nest (n : nat) (v : JSON) : JSON :=
  match n with
  | O => v
  | S n' => JArr [nest n' v]
  end.

(** What [JSON.parse] makes of the texts [[1e400]] and [[null]]. *)
Definition arr_overflowed : JSON := JArr [JNum (Infinite false)].
Definition arr_null : JSON := JArr [JNull].

(** The endpoint serves [[1e400]] and the reference file holds [[null]]. *)
Definition reference_overflowed : World :=
  always (reply 200 (Some "application/json") (Some arr_overflowed)) (Some arr_null).

(** Body and reference are one document, [null] inside 20000 arrays. *)
Definition reference_deep : World :=
  always (reply 200 (Some "application/json") (Some (nest (20 * 1000) JNull)))
         (Some (nest (20 * 1000) JNull)).

(** A heap that holds [obj_ba] in its first cell. *)
Definition heap_ba : Heap := [OObj [("b", VNum (int 1)); ("a", VNum (int 2))]].

(** The reference file holds the document [null], and so does the body. *)
Definition reference_null : World :=
  always (reply 200 (Some "application/json") (Some JNull)) (Some JNull).

(** ** Reading an event log *)

(** The events a piece of code added to the log. *)
Definition new_events (before after : Store) : list Event :=
  skipn (List.length (log before)) (log after).

Definition timers_set (evs : list Event) : list nat :=
  flat_map (fun e => match e with EvSetTimeout t _ => [t] | _ => [] end) evs.

Definition timers_cleared (evs : list Event) : list nat :=
  flat_map (fun e => match e with EvClearTimeout t => [t] | _ => [] end) evs.

(** The requests sent: method, URL and abort signal of each. *)
Definition fetches (evs : list Event) : list (Method * string * nat) :=
  flat_map (fun e => match e with EvFetch m u t => [(m, u, t)] | _ => [] end) evs.

(** The URL the probe of a host addresses: the [url] of its custom check,
    or the root of the host. *)
Definition Server_target (cfg : Config) (EXPECTED_SESSION_NAME : JSON)
    (host : string) : string :=
  match Server.CUSTOM_CHECKS cfg EXPECTED_SESSION_NAME host with
  | Some (Server.nameMatch url _) => url
  | Some (Server.jsonExactMatch url _) => url
  | None => "https://" ++ host ++ "/"
  end.

Definition Variant_target (host : string) : string :=
  match Variant.CUSTOM_CHECKS host with
  | Some (Variant.jsonAny url) => url
  | Some (Variant.urlOk url) => url
  | None => "https://" ++ host ++ "/"
  end.

(** What one probe may leave in the log: the timer it set is cleared, it
    sets at most one, and its requests, two at most, all go to [url] under
    the signal of that timer; [HEAD] is sent only when [basic] holds. *)
Definition footprint (url : string) (basic : bool) (s s' : Store) : Prop :=
  exists evs,
    log s' = (log s ++ evs)%list /\
    timers_cleared evs = timers_set evs /\
    (timers_set evs = [] \/ timers_set evs = [timers s]) /\
    timers s' = (timers s + List.length (timers_set evs))%nat /\
    Forall (fun f => snd (fst f) = url /\ snd f = timers s /\
                     (fst (fst f) = HEAD -> basic = true))
           (fetches evs) /\
    (List.length (fetches evs) <= (if basic then 2 else 1))%nat.

(** The verdict a probe reaches in world [w]; [red] stands in for a throw,
    which no probe of the server produces. *)
Definition verdict_in (probeHost : string -> Eff Verdict) (w : World)
    (host : string) : Verdict :=
  match fst (probeHost host w empty_store) with
  | Returns v => v
  | Throws => red
  end.

(** Every host root answers 200, except that of [api.mojang.com], which
    is unreachable. *)
Definition all_up : World := always (reply 200 None None) None.

Definition mojang_down : World := {|
  net := fun _ u =>
    if String.eqb u "https://api.mojang.com/" then Rejects else reply 200 None None;
  file := fun _ => None
|}.

(** The state of a server whose refreshes cannot fail: a stored snapshot
    lists the hosts in order, and [cache.inFlight] holds a promise exactly
    while one refresh is pending, which has a verdict for every host. *)
Definition healthy (HOSTS : list string) (s : Process) : Prop :=
  (forall d, data (cache s) = Some d -> map fst d = HOSTS) /\
  ((inFlight (cache s) = None /\ running s = []) \/
   exists f vs,
     running s = [f] /\
     inFlight (cache s) = Some (flight_promise f) /\
     flight_results f = Returns vs /\
     List.length vs = List.length HOSTS).

(** A reply that is the cached array lists the hosts in order. *)
Definition well_shaped (HOSTS : list string) (r : Reply) : Prop :=
  match r with
  | Cached d => map fst d = HOSTS
  | Awaits _ => True
  end.

(** ** The request listener (server.js, lines 160-176, and its variant) *)

(** What the listener reads of a request; [req.url] may be [undefined]. *)
Record Request : Type := {
  req_method : string;
  req_url : option string
}.

Record HttpResponse : Type := {
  statusCode : Z;
  headers : list (string * string);
  body : string
}.

Definition newline : ascii := "010"%char.

Fixpoint spaces (n : nat) : string :=
  match n with
  | O => ""
  | S k => String " " (spaces k)
  end.

Definition verdict_name (v : Verdict) : string :=
  match v with
  | green => "green"
  | red => "red"
  end.

(** [JSON.stringify(data, null, space)] on the array of one-property
    objects [{ [host]: verdict }]: the gap is [space] blanks, ten at most;
    without a gap nothing is inserted. *)
Definition stringify_entry (space : nat) (e : string * Verdict) : string :=
  let gap := spaces (Nat.min space 10) in
  match space with
  | O =>
      "{" ++ stringify_string (fst e) ++ ":"
          ++ stringify_string (verdict_name (snd e)) ++ "}"
  | S _ =>
      "{" ++ String newline (gap ++ gap) ++ stringify_string (fst e) ++ ": "
          ++ stringify_string (verdict_name (snd e)) ++ String newline gap ++ "}"
  end.

Definition stringify_data (space : nat) (data : Payload) : string :=
  let gap := spaces (Nat.min space 10) in
  match data with
  | [] => "[]"
  | _ :: _ =>
      match space with
      | O => "[" ++ String.concat "," (map (stringify_entry space) data) ++ "]"
      | S _ =>
          "[" ++ String newline gap
              ++ String.concat ("," ++ String newline gap)
                   (map (stringify_entry space) data)
              ++ String newline "]"
      end
  end.

Definition cors_header : string * string := ("Access-Control-Allow-Origin", "*").
Definition json_content : string * string :=
  ("Content-Type", "application/json; charset=utf-8").
Definition text_content : string * string :=
  ("Content-Type", "text/plain; charset=utf-8").

(** [req.method === "GET" && req.url?.startsWith("/status")] *)
Definition is_status_request (req : Request) : bool :=
  String.eqb (req_method req) "GET" &&
  match req_url req with
  | Some u => String.prefix "/status" u
  | None => false
  end.

Definition help_response : HttpResponse := {|
  statusCode := 200;
  headers := [cors_header; text_content];
  body := "OK. Try GET /status"
|}.

(** What the listener does, at once or when its [await] is over. *)
Inductive Handling : Type :=
| Responds (r : HttpResponse)
| Suspends (p : nat).

Section Listener.
(** The indentation of the body and the body sent with a 500. *)
Variable space : nat.
Variable failure : string.
Variable HOSTS : list string.
Variable probeHost : string -> Eff Verdict.

(** The [try] around [await getStatusData()], given what the [await]
    comes back with. *)
Definition respond (awaited : Outcome Payload) : HttpResponse :=
  match awaited with
  | Returns data =>
      {| statusCode := 200;
         headers := [cors_header; json_content];
         body := stringify_data space data |}
  | Throws =>
      {| statusCode := 500;
         headers := [cors_header; json_content];
         body := failure |}
  end.

(** The listener up to its first suspension: a cached array is answered
    on the spot, a promise suspends the listener until it settles. *)
Definition requestListener (req : Request) (now : Z) (w : World) (s : Process)
    : Handling * Process :=
  if is_status_request req then
    match getStatusData HOSTS probeHost now w s with
    | (Cached data, s') => (Responds (respond (Returns data)), s')
    | (Awaits p, s') => (Suspends p, s')
    end
  else (Responds help_response, s).

(** What the refresh of a flight settles its promise with. *)
Definition settled_with (f : Flight) : Outcome Payload :=
  match flight_results f with
  | Returns vs => Returns (payload_of HOSTS vs)
  | Throws => Throws
  end.
End Listener.

(** [JSON.stringify({ error: "probe_failed" })] *)
Definition Server_failure : string :=
  "{" ++ stringify_string "error" ++ ":" ++ stringify_string "probe_failed" ++ "}".

(** [JSON.stringify({ error: "internal_error", message })], where
    [message] is [e?.message || "unknown"]. *)
Definition Variant_failure (message : string) : string :=
  "{" ++ stringify_string "error" ++ ":" ++ stringify_string "internal_error" ++ ","
      ++ stringify_string "message" ++ ":" ++ stringify_string message ++ "}".

Definition Server_requestListener (cfg : Config) (EXPECTED_SESSION_NAME : JSON) :=
  requestListener 4 Server_failure Server.HOSTS
    (Server.probeHost cfg EXPECTED_SESSION_NAME).

Definition Variant_requestListener (cfg : Config) (message : string) :=
  requestListener 2 (Variant_failure message) Variant.HOSTS (Variant.probeHost cfg).

Definition get_status : Request := {| req_method := "GET"; req_url := Some "/status" |}.

(** * Properties *)

(** ** Cache hits *)

(** C3: a call made while a snapshot is stored and the clock is strictly
    before [expires] returns the stored snapshot itself, leaves the whole
    process state as it was, and so issues no outbound request. *)
Theorem getStatusData_valid_hit :
  forall HOSTS probeHost now w s d,
    data (cache s) = Some d ->
    now < expires (cache s) ->
    getStatusData HOSTS probeHost now w s = (Cached d, s) /\
    requests (store (snd (getStatusData HOSTS probeHost now w s))) = requests (store s).
Proof.
  intros HOSTS probeHost now w s d Hd Hlt.
  assert (E : getStatusData HOSTS probeHost now w s = (Cached d, s)).
  { unfold getStatusData. rewrite Hd.
    replace (expires (cache s) >? now) with true; [reflexivity|].
    symmetry. apply Z.gtb_lt. exact Hlt. }
  split; [exact E|]. rewrite E. reflexivity.
Qed.

Lemma getStatusData_valid_hit_witness :
  getStatusData Server.HOSTS (Server.probeHost default_config JNull) 10 offline warm
    = (Cached [("minecraft.net", green)], warm) /\
  requests (store (snd (getStatusData Server.HOSTS
                          (Server.probeHost default_config JNull) 10 offline warm)))
    = requests (store warm).
Proof.
  apply (getStatusData_valid_hit Server.HOSTS (Server.probeHost default_config JNull)
           10 offline warm [("minecraft.net", green)]).
  - reflexivity.
  - reflexivity.
Defined.

(** ** Probes *)

Ltac run_probe :=
  cbv beta iota zeta delta
    [probeHostBasic probeNameMatch probeJsonExactMatch probeJsonAny probeUrlOk
     readJsonFile tryMethod abortSignalWithTimeout cancel tell emit
     bind ret invoke try_catch try_finally fetch res_json parse_file
     load_EXPECTED_SESSION_NAME fst snd log timers].

Ltac split_calls :=
  repeat match goal with
  | |- context [match canonicalStringify ?n ?v with _ => _ end] =>
      destruct (canonicalStringify n v); simpl
  end.

(** [isOkStatus]: from 200 up to, and not including, 400. *)
Lemma isOkStatus_range :
  forall code, isOkStatus code = true <-> 200 <= code /\ code < 400.
Proof. intros code. unfold isOkStatus. lia. Qed.

Lemma ok_reply_range :
  forall f,
    ok_reply f = true <->
    exists res, f = Resolves res /\ 200 <= status res /\ status res < 400.
Proof.
  intros [|res]; simpl.
  - split; [discriminate | intros (r & H & _); discriminate H].
  - rewrite isOkStatus_range. split.
    + intros H. exists res. tauto.
    + intros (r & H & Hr). inversion H; subst. exact Hr.
Qed.

(** C10: with the expected name missing ([null] or the empty string) the
    name-match probe answers red at once: the store is untouched, so no
    abort controller was created and no request was issued. *)
Theorem probeNameMatch_missing_name_no_io :
  forall cfg url expectedName w s,
    expectedName = JNull \/ expectedName = JStr "" ->
    probeNameMatch cfg url expectedName w s = (Returns red, s).
Proof.
  intros cfg url expectedName w s [-> | ->]; reflexivity.
Qed.

Lemma probeNameMatch_missing_name_no_io_witness :
  probeNameMatch default_config "https://sessionserver.mojang.com/" JNull
    (always (reply 200 None (Some jeb)) None) empty_store
  = (Returns red, empty_store).
Proof.
  apply (probeNameMatch_missing_name_no_io default_config
           "https://sessionserver.mojang.com/" JNull).
  left. reflexivity.
Defined.

Lemma probeHostBasic_closed_form :
  forall cfg host w s,
    let url := "https://" ++ host ++ "/" in
    let t := timers s in
    let ms := PROBE_TIMEOUT_MS cfg in
    probeHostBasic cfg host w s =
      if ok_reply (net w HEAD url) then
        (Returns green,
         {| log := log s ++ [EvSetTimeout t ms; EvFetch HEAD url t; EvClearTimeout t];
            timers := S t |})
      else
        (Returns (verdict_of (ok_reply (net w GET url))),
         {| log := log s ++ [EvSetTimeout t ms; EvFetch HEAD url t;
                             EvFetch GET url t; EvClearTimeout t];
            timers := S t |}).
Proof.
  intros cfg host w s url t ms. subst url t ms.
  run_probe. unfold ok_reply.
  destruct (net w HEAD _) as [|r1]; simpl.
  - destruct (net w GET _) as [|r2]; simpl;
      repeat rewrite <- app_assoc; simpl; reflexivity.
  - destruct (isOkStatus (status r1)); simpl.
    + repeat rewrite <- app_assoc; reflexivity.
    + destruct (net w GET _) as [|r2]; simpl;
        repeat rewrite <- app_assoc; simpl; reflexivity.
Qed.

Lemma probeHostBasic_green_iff :
  forall cfg host w s,
    fst (probeHostBasic cfg host w s) = Returns green <->
    (exists res,
        net w HEAD ("https://" ++ host ++ "/") = Resolves res /\
        200 <= status res /\ status res < 400) \/
    (exists res,
        net w GET ("https://" ++ host ++ "/") = Resolves res /\
        200 <= status res /\ status res < 400).
Proof.
  intros cfg host w s. rewrite probeHostBasic_closed_form.
  rewrite <- !ok_reply_range.
  destruct (ok_reply (net w HEAD _)); simpl; [tauto|].
  destruct (ok_reply (net w GET _)); simpl; [tauto|].
  split; [discriminate | intros [H | H]; discriminate H].
Qed.

(** C8: the basic probe sends [HEAD] to [https://<host>/] first.  When
    that request comes back with a status of at least 200 and below 400
    the verdict is green and nothing else is sent.  Otherwise (no
    response, or another status) exactly one [GET] follows, to the same
    URL and under the same abort signal, and the verdict is green iff that
    [GET] comes back with a status of at least 200 and below 400.  So the
    verdict is green iff one of the two requests comes back with such a
    status, and red otherwise: [HEAD] 404 then [GET] 200 is green, [HEAD]
    500 and [GET] 500 is red.  The body is never read and the timer is
    always cleared. *)
Theorem probeHostBasic_head_then_get :
  forall cfg host w s,
    let url := "https://" ++ host ++ "/" in
    let t := timers s in
    let ms := PROBE_TIMEOUT_MS cfg in
    (probeHostBasic cfg host w s =
       if ok_reply (net w HEAD url) then
         (Returns green,
          {| log := log s ++ [EvSetTimeout t ms; EvFetch HEAD url t; EvClearTimeout t];
             timers := S t |})
       else
         (Returns (verdict_of (ok_reply (net w GET url))),
          {| log := log s ++ [EvSetTimeout t ms; EvFetch HEAD url t;
                              EvFetch GET url t; EvClearTimeout t];
             timers := S t |})) /\
    (forall f,
        ok_reply f = true <->
        exists res, f = Resolves res /\ 200 <= status res /\ status res < 400) /\
    (fst (probeHostBasic cfg host w s) = Returns green <->
     (exists res, net w HEAD url = Resolves res /\ 200 <= status res /\ status res < 400) \/
     (exists res, net w GET url = Resolves res /\ 200 <= status res /\ status res < 400)) /\
    (fst (probeHostBasic cfg host w s) = Returns green \/
     fst (probeHostBasic cfg host w s) = Returns red) /\
    (forall r1 r2,
        net w HEAD url = Resolves r1 -> status r1 = 404 ->
        net w GET url = Resolves r2 -> status r2 = 200 ->
        fst (probeHostBasic cfg host w s) = Returns green) /\
    (forall r1 r2,
        net w HEAD url = Resolves r1 -> status r1 = 500 ->
        net w GET url = Resolves r2 -> status r2 = 500 ->
        fst (probeHostBasic cfg host w s) = Returns red).
Proof.
  intros cfg host w s url t ms.
  split; [apply probeHostBasic_closed_form|].
  split; [apply ok_reply_range|].
  split; [apply probeHostBasic_green_iff|].
  assert (Htot : fst (probeHostBasic cfg host w s) = Returns green \/
                 fst (probeHostBasic cfg host w s) = Returns red).
  { rewrite probeHostBasic_closed_form.
    destruct (ok_reply (net w HEAD _)); simpl; [auto|].
    destruct (ok_reply (net w GET _)); simpl; auto. }
  split; [exact Htot|]. split.
  - intros r1 r2 H1 S1 H2 S2. apply probeHostBasic_green_iff.
    right. exists r2. fold url. split; [exact H2 | lia].
  - intros r1 r2 H1 S1 H2 S2. destruct Htot as [Hg | Hr]; [|exact Hr].
    apply probeHostBasic_green_iff in Hg. fold url in Hg.
    destruct Hg as [(r & Hn & Hs) | (r & Hn & Hs)].
    + rewrite H1 in Hn. inversion Hn; subst. lia.
    + rewrite H2 in Hn. inversion Hn; subst. lia.
Qed.

Lemma probeHostBasic_head_then_get_witness :
  net (by_method 404 200) HEAD "https://minecraft.net/" = reply 404 None None /\
  net (by_method 404 200) GET "https://minecraft.net/" = reply 200 None None /\
  fst (probeHostBasic default_config "minecraft.net" (by_method 404 200) empty_store)
  = Returns green.
Proof.
  split; [reflexivity|]. split; [reflexivity|].
  pose proof (probeHostBasic_head_then_get default_config "minecraft.net"
                (by_method 404 200) empty_store) as H.
  cbv zeta in H. destruct H as (_ & _ & _ & _ & H & _).
  eapply H; reflexivity.
Defined.

(** The two cases the specification lists for the basic probe. *)
Example basic_head_404_get_200 :
  fst (probeHostBasic default_config "minecraft.net" (by_method 404 200) empty_store)
  = Returns green.
Proof. reflexivity. Qed.

Example basic_both_500 :
  fst (probeHostBasic default_config "minecraft.net" (by_method 500 500) empty_store)
  = Returns red.
Proof. reflexivity. Qed.

Example basic_head_ok_sends_one_request :
  requests (snd (probeHostBasic default_config "minecraft.net" (by_method 204 500) empty_store))
  = 1%nat.
Proof. reflexivity. Qed.

(** The name-match probe always answers, and answers green exactly when
    the response is ok, its body parses and [live?.name === expectedName]. *)
Lemma probeNameMatch_green_iff :
  forall cfg url expectedName w s,
    fst (probeNameMatch cfg url expectedName w s) = Returns green <->
    truthy expectedName = true /\
    exists res live,
      net w GET url = Resolves res /\
      isOkStatus (status res) = true /\
      json res = Some live /\
      strict_eq (name_of live) expectedName = true.
Proof.
  intros cfg url expectedName w s. run_probe.
  destruct (truthy expectedName) eqn:Ht; simpl.
  2:{ split; [discriminate | intros [H _]; discriminate]. }
  destruct (net w GET url) as [|res] eqn:Hn; simpl.
  { split; [discriminate | intros [_ (r & l & H & _)]; discriminate]. }
  destruct (isOkStatus (status res)) eqn:Hok; simpl.
  2:{ split; [discriminate|].
      intros [_ (r & l & H & Hok' & _)]. inversion H; subst. congruence. }
  destruct (json res) as [live|] eqn:Hj; simpl.
  2:{ split; [discriminate|].
      intros [_ (r & l & H & _ & Hj' & _)]. inversion H; subst. congruence. }
  destruct (strict_eq (name_of live) expectedName) eqn:Heq; simpl.
  - split; [|reflexivity]. intros _. split; [reflexivity|].
    exists res, live. auto.
  - split; [discriminate|].
    intros [_ (r & l & H & _ & Hj' & Heq')]. inversion H; subst.
    rewrite Hj in Hj'. inversion Hj'; subst. congruence.
Qed.

Lemma probeNameMatch_total :
  forall cfg url expectedName w s,
    fst (probeNameMatch cfg url expectedName w s) = Returns green \/
    fst (probeNameMatch cfg url expectedName w s) = Returns red.
Proof.
  intros cfg url expectedName w s. run_probe.
  destruct (truthy expectedName); simpl; auto.
  destruct (net w GET url) as [|res]; simpl; auto.
  destruct (isOkStatus (status res)); simpl; auto.
  destruct (json res) as [live|]; simpl; auto.
  destruct (strict_eq (name_of live) expectedName); simpl; auto.
Qed.

(** Against a string, [===] is equality of strings, code unit by code unit. *)
Lemma strict_eq_string :
  forall x name, strict_eq x (JStr name) = true <-> x = Some (JStr name).
Proof.
  intros x name. split.
  - destruct x as [[| |[]|s| |]|]; simpl; try discriminate.
    intros H. apply String.eqb_eq in H. subst. reflexivity.
  - intros ->. simpl. apply String.eqb_refl.
Qed.

(** When the session file cannot be read or parsed, the expected name is
    [null]; the same when the document has no usable [name]. *)
Lemma load_EXPECTED_SESSION_NAME_failure :
  forall cfg w s,
    file w (EXPECTED_SESSION_JSON_PATH cfg) = None ->
    fst (load_EXPECTED_SESSION_NAME cfg w s) = Returns JNull.
Proof.
  intros cfg w s H. run_probe. rewrite H. reflexivity.
Qed.

(** [live?.name] is there when [live] is an object that owns the
    property [name]. *)
Lemma name_of_property :
  forall live x,
    name_of live = Some x <->
    exists props, live = JObj props /\ get_prop "name" props = Some x.
Proof.
  intros live x. split.
  - destruct live as [| | | | |props]; simpl; try discriminate.
    intros H. exists props. auto.
  - intros (props & -> & H). exact H.
Qed.

(** C6: with a non-empty expected name the name-match probe answers green
    iff the [GET] comes back with a status of at least 200 and below 400,
    its body parses to an object, and the property [name] of that object
    is a string equal, code unit by code unit, to the expected name; so
    [jeb_] matches [jeb_] and not [Jeb_].  In every other case, transport
    and parse failures included, the answer is red, never an exception.
    With the expected name missing, as after a failed load of the session
    file, the answer is always red. *)
Theorem probeNameMatch_verdict :
  forall cfg url w s,
    (forall name,
        name <> "" ->
        (fst (probeNameMatch cfg url (JStr name) w s) = Returns green <->
         exists res props,
           net w GET url = Resolves res /\
           (200 <= status res /\ status res < 400) /\
           json res = Some (JObj props) /\
           get_prop "name" props = Some (JStr name))) /\
    (forall expectedName,
        fst (probeNameMatch cfg url expectedName w s) <> Returns green ->
        fst (probeNameMatch cfg url expectedName w s) = Returns red) /\
    (forall w0 s0,
        file w0 (EXPECTED_SESSION_JSON_PATH cfg) = None ->
        exists missing,
          fst (load_EXPECTED_SESSION_NAME cfg w0 s0) = Returns missing /\
          fst (probeNameMatch cfg url missing w s) = Returns red) /\
    (forall code id,
        200 <= code /\ code < 400 ->
        fst (probeNameMatch cfg url (JStr "jeb_")
               (always (reply code None (Some (JObj [("id", id); ("name", JStr "jeb_")]))) None)
               s) = Returns green /\
        fst (probeNameMatch cfg url (JStr "jeb_")
               (always (reply code None (Some (JObj [("id", id); ("name", JStr "Jeb_")]))) None)
               s) = Returns red).
Proof.
  intros cfg url w s.
  assert (Htot : forall w1 expectedName,
             fst (probeNameMatch cfg url expectedName w1 s) <> Returns green ->
             fst (probeNameMatch cfg url expectedName w1 s) = Returns red).
  { intros w1 expectedName H.
    destruct (probeNameMatch_total cfg url expectedName w1 s);
      [contradiction | assumption]. }
  assert (Hiff : forall w1 name,
             name <> "" ->
             (fst (probeNameMatch cfg url (JStr name) w1 s) = Returns green <->
              exists res props,
                net w1 GET url = Resolves res /\
                (200 <= status res /\ status res < 400) /\
                json res = Some (JObj props) /\
                get_prop "name" props = Some (JStr name))).
  { intros w1 name Hne. rewrite probeNameMatch_green_iff. split.
    - intros [_ (res & live & H1 & H2 & H3 & H4)].
      rewrite strict_eq_string in H4. apply name_of_property in H4.
      destruct H4 as (props & -> & H4).
      exists res, props. rewrite isOkStatus_range in H2. auto.
    - intros (res & props & H1 & H2 & H3 & H4). split.
      + simpl. destruct (String.eqb_spec name ""); [contradiction | reflexivity].
      + exists res, (JObj props). rewrite strict_eq_string, isOkStatus_range. auto. }
  split; [apply Hiff|]. split; [apply Htot|]. split.
  - intros w0 s0 H. exists JNull. split.
    + apply load_EXPECTED_SESSION_NAME_failure. exact H.
    + reflexivity.
  - intros code id Hcode. split.
    + apply Hiff; [discriminate|].
      eexists; eexists. split; [reflexivity|]. split; [exact Hcode|].
      split; reflexivity.
    + apply Htot. rewrite Hiff by discriminate.
      intros (res & props & H1 & _ & H3 & H4).
      inversion H1; subst. simpl in H3. inversion H3; subst.
      simpl in H4. discriminate H4.
Qed.

Example name_match_jeb :
  fst (probeNameMatch default_config "u" (JStr "jeb_")
         (always (reply 200 None (Some jeb)) None) empty_store) = Returns green.
Proof. reflexivity. Qed.

Example name_match_case_differs :
  fst (probeNameMatch default_config "u" (JStr "jeb_")
         (always (reply 200 None (Some Jeb)) None) empty_store) = Returns red.
Proof. reflexivity. Qed.

Lemma probeNameMatch_verdict_witness :
  "jeb_" <> "" /\
  (fst (probeNameMatch default_config "u" (JStr "jeb_")
          (always (reply 200 None (Some jeb)) None) empty_store) = Returns green <->
   exists res props,
     net (always (reply 200 None (Some jeb)) None) GET "u" = Resolves res /\
     (200 <= status res /\ status res < 400) /\
     json res = Some (JObj props) /\
     get_prop "name" props = Some (JStr "jeb_")).
Proof.
  split; [discriminate|].
  apply (proj1 (probeNameMatch_verdict default_config "u"
                  (always (reply 200 None (Some jeb)) None) empty_store)).
  discriminate.
Defined.

(** As stated, C5 fails: a [content-type] that contains "json" without
    containing "application/json" or "+json" does not vouch for the body. *)
Lemma probeJsonAny_text_json_counterexample :
  isOkStatus (status text_json_garbage) = true /\
  includes "text/json" "json" = true /\
  content_type text_json_garbage = Some "text/json" /\
  fst (probeJsonAny default_config "u" (always (Resolves text_json_garbage) None) empty_store)
  = Returns red.
Proof. repeat split. Qed.

Lemma header_names_json_spec :
  forall res,
    header_names_json res = true <->
    exists h,
      content_type res = Some h /\
      (includes (toLowerCase h) "application/json" = true \/
       includes (toLowerCase h) "+json" = true).
Proof.
  intros res. unfold header_names_json.
  destruct (content_type res) as [h|]; cbv zeta.
  - rewrite orb_true_iff. split.
    + intros H. exists h. auto.
    + intros (h' & E & H). inversion E; subst. exact H.
  - split; [discriminate | intros (h & E & _); discriminate E].
Qed.

Lemma probeJsonAny_green_iff :
  forall cfg url w s,
    (fst (probeJsonAny cfg url w s) = Returns green <->
     exists res,
       net w GET url = Resolves res /\
       isOkStatus (status res) = true /\
       (header_names_json res = true \/ exists live, json res = Some live)) /\
    (fst (probeJsonAny cfg url w s) = Returns green \/
     fst (probeJsonAny cfg url w s) = Returns red).
Proof.
  intros cfg url w s. run_probe.
  destruct (net w GET url) as [|res] eqn:Hn; simpl.
  { split; [|auto]. split; [discriminate | intros (r & H & _); discriminate]. }
  destruct (isOkStatus (status res)) eqn:Hok; simpl.
  2:{ split; [|auto]. split; [discriminate|].
      intros (r & H & Hok' & _). inversion H; subst. congruence. }
  assert (Hct : toLowerCase
                  (match content_type res with
                   | Some h => if String.eqb h "" then "" else h
                   | None => ""
                   end)
                = toLowerCase (match content_type res with Some h => h | None => "" end)).
  { destruct (content_type res) as [h|]; [|reflexivity].
    destruct (String.eqb_spec h ""); subst; reflexivity. }
  rewrite Hct. fold (header_names_json res).
  destruct (header_names_json res) eqn:Hh; simpl.
  { split; [|auto]. split; [|reflexivity]. intros _. exists res. auto. }
  destruct (json res) as [live|] eqn:Hj; simpl.
  - split; [|auto]. split; [|reflexivity]. intros _. exists res.
    split; [auto|]. split; [auto|]. right. exists live. auto.
  - split; [|auto]. split; [discriminate|].
    intros (r & H & _ & [Hh' | [live Hl]]); inversion H; subst; congruence.
Qed.

(** C5, amended: the any-JSON probe answers green iff the [GET] comes back
    with a status of at least 200 and below 400 and either its
    [content-type], lowercased, contains "application/json" or "+json", or
    its body parses as JSON.  In every other case, transport and parse
    failures included, it answers red; it never throws. *)
Theorem probeJsonAny_verdict :
  forall cfg url w s,
    (fst (probeJsonAny cfg url w s) = Returns green <->
     exists res,
       net w GET url = Resolves res /\
       (200 <= status res /\ status res < 400) /\
       ((exists h,
            content_type res = Some h /\
            (includes (toLowerCase h) "application/json" = true \/
             includes (toLowerCase h) "+json" = true)) \/
        exists live, json res = Some live)) /\
    (fst (probeJsonAny cfg url w s) = Returns green \/
     fst (probeJsonAny cfg url w s) = Returns red).
Proof.
  intros cfg url w s.
  destruct (probeJsonAny_green_iff cfg url w s) as [Hiff Htot].
  split; [|exact Htot]. rewrite Hiff. split.
  - intros (res & H1 & H2 & H3). exists res.
    rewrite isOkStatus_range in H2. rewrite header_names_json_spec in H3. auto.
  - intros (res & H1 & H2 & H3). exists res.
    rewrite isOkStatus_range, header_names_json_spec. auto.
Qed.

Example json_any_header_only :
  fst (probeJsonAny default_config "u"
         (always (reply 200 (Some "Application/JSON; charset=utf-8") None) None) empty_store)
  = Returns green.
Proof. reflexivity. Qed.

Example json_any_body_only :
  fst (probeJsonAny default_config "u"
         (always (reply 200 (Some "text/plain") (Some JNull)) None) empty_store)
  = Returns green.
Proof. reflexivity. Qed.

(** The URL-ok probe of the second variant: status only. *)
Lemma probeUrlOk_verdict :
  forall cfg url w s,
    fst (probeUrlOk cfg url w s) = Returns (verdict_of (ok_reply (net w GET url))).
Proof.
  intros cfg url w s. run_probe. unfold ok_reply.
  destruct (net w GET url) as [|res]; reflexivity.
Qed.

(** As stated, C4 fails: the reference file is read by every probe.  A
    probe that finds it missing answers red and warns; the next probe
    warns again while the file is still missing, and answers green once
    the file is there. *)
Lemma probeJsonExactMatch_reload_counterexample :
  file reference_absent "./apiminecraftservices.json" = None /\
  fst (probeJsonExactMatch default_config profile_url "./apiminecraftservices.json"
         reference_absent empty_store) = Returns red /\
  fst (probeJsonExactMatch default_config profile_url "./apiminecraftservices.json"
         reference_present
         (snd (probeJsonExactMatch default_config profile_url "./apiminecraftservices.json"
                 reference_absent empty_store))) = Returns green /\
  filter is_warn
    (log (snd (probeJsonExactMatch default_config profile_url "./apiminecraftservices.json"
                 reference_absent
                 (snd (probeJsonExactMatch default_config profile_url
                         "./apiminecraftservices.json" reference_absent empty_store)))))
  = [EvWarn "./apiminecraftservices.json"; EvWarn "./apiminecraftservices.json"].
Proof. repeat split; vm_compute; reflexivity. Qed.

(** C4, amended: when the reference document cannot be loaded at the time
    of a probe, that probe answers red without creating a timer or sending
    a request, logs one warning, and raises nothing.  The file is read
    anew as the first action of every probe, so the degradation lasts as
    long as the file stays unloadable, not for the life of the process. *)
Theorem probeJsonExactMatch_load_failure :
  forall cfg url path w s,
    (file w path = None ->
     probeJsonExactMatch cfg url path w s =
       (Returns red,
        {| log := log s ++ [EvReadFile path; EvWarn path]; timers := timers s |})) /\
    (exists rest,
        log (snd (probeJsonExactMatch cfg url path w s)) = (log s ++ EvReadFile path :: rest)%list).
Proof.
  intros cfg url path w s. split.
  - intros H. run_probe. rewrite H. simpl. rewrite <- app_assoc. reflexivity.
  - run_probe. destruct (file w path) as [doc|]; simpl.
    + destruct (is_null doc); simpl;
        try (destruct (net w GET url) as [|res]; simpl;
             [| destruct (isOkStatus (status res)); simpl;
                [destruct (json res); simpl; split_calls|]]);
        repeat rewrite <- app_assoc; simpl; eexists; reflexivity.
    + repeat rewrite <- app_assoc; simpl; eexists; reflexivity.
Qed.

Lemma probeJsonExactMatch_load_failure_witness :
  file reference_absent "./apiminecraftservices.json" = None /\
  probeJsonExactMatch default_config profile_url "./apiminecraftservices.json"
    reference_absent empty_store =
    (Returns red,
     {| log := log empty_store ++ [EvReadFile "./apiminecraftservices.json";
                                   EvWarn "./apiminecraftservices.json"];
        timers := timers empty_store |}).
Proof.
  split; [reflexivity|].
  apply (proj1 (probeJsonExactMatch_load_failure default_config profile_url
                  "./apiminecraftservices.json" reference_absent empty_store)).
  reflexivity.
Defined.

(** ** The status cache *)

Section CacheFacts.
Variable ttl : Z.
Variable HOSTS : list string.
Variable probeHost : string -> Eff Verdict.

Local Abbreviation call := (getStatusData HOSTS probeHost).
Local Abbreviation refresh := (start_refresh HOSTS probeHost).
Local Abbreviation finish := (settle ttl HOSTS).
Local Abbreviation step1 := (step ttl HOSTS probeHost).
Local Abbreviation run := (exec ttl HOSTS probeHost).

Lemma getStatusData_stale :
  forall now w s,
    fresh (cache s) now = false ->
    call now w s =
      match inFlight (cache s) with
      | Some p => (Awaits p, s)
      | None => refresh now w s
      end.
Proof.
  intros now w s H. unfold getStatusData, fresh in *.
  destruct (data (cache s)); [rewrite H|]; reflexivity.
Qed.

Lemma getStatusData_state :
  forall now w s,
    snd (call now w s) = s \/
    (inFlight (cache s) = None /\
     snd (call now w s) = snd (refresh now w s)).
Proof.
  intros now w s. unfold getStatusData.
  destruct (data (cache s)); [destruct (expires (cache s) >? now)|];
    simpl; auto; destruct (inFlight (cache s)); simpl; auto.
Qed.

Lemma start_refresh_shape :
  forall now w s,
    exists results st,
      probe_all probeHost HOSTS w (store s) = (results, st) /\
      refresh now w s =
        (Awaits (promises s),
         {| cache := {| data := data (cache s); expires := expires (cache s);
                        inFlight := Some (promises s) |};
            running := {| flight_promise := promises s; flight_now := now;
                          flight_results := results |} :: running s;
            fulfilled := fulfilled s;
            promises := S (promises s);
            refreshes := S (refreshes s);
            store := st |}).
Proof.
  intros now w s. unfold start_refresh.
  destruct (probe_all probeHost HOSTS w (store s)) as [results st].
  exists results, st. split; reflexivity.
Qed.

Lemma single_flight_getStatusData :
  forall now w s, single_flight s -> single_flight (snd (call now w s)).
Proof.
  intros now w s Hs.
  destruct (getStatusData_state now w s) as [-> | [Hnone ->]]; [exact Hs|].
  destruct (start_refresh_shape now w s) as (results & st & _ & ->). simpl.
  destruct Hs as [Hr | (f & _ & Hf)]; [|congruence].
  right. rewrite Hr. eexists. split; reflexivity.
Qed.

Lemma single_flight_settle :
  forall p s s', single_flight s -> finish p s = Some s' -> running s' = [].
Proof.
  intros p s s' Hs. unfold settle.
  destruct Hs as [Hr | (f & Hr & _)]; rewrite Hr; simpl.
  - discriminate.
  - destruct (is_flight p f) eqn:Hp; [|discriminate]. simpl.
    destruct (flight_results f); intros H; inversion H; reflexivity.
Qed.

Lemma single_flight_step :
  forall a s s' r, single_flight s -> step1 s a = Some (s', r) -> single_flight s'.
Proof.
  intros [now w | p t] s s' r Hs; unfold step.
  - pose proof (single_flight_getStatusData now w s Hs) as H.
    destruct (call now w s) as [r0 s0].
    intros E. inversion E; subst. exact H.
  - destruct (finish p s) as [s0|] eqn:E; [|discriminate].
    simpl. intros E'. inversion E'; subst.
    left. eapply single_flight_settle; eauto.
Qed.

Lemma single_flight_exec :
  forall sched s s' rs, single_flight s -> run s sched = Some (s', rs) -> single_flight s'.
Proof.
  induction sched as [|a rest IH]; intros s s' rs Hs; simpl.
  - intros E. inversion E; subst. exact Hs.
  - destruct (step1 s a) as [[s1 r]|] eqn:Ea; [|discriminate].
    destruct (run s1 rest) as [[s2 rs2]|] eqn:Er; [|discriminate].
    intros E. inversion E; subst.
    eapply IH; [|exact Er]. eapply single_flight_step; eauto.
Qed.

Lemma single_flight_initial : single_flight initial.
Proof. left. reflexivity. Qed.

(** Calls that arrive while a refresh is pending and the cache is not
    fresh all get that refresh's promise and change nothing. *)
Lemma exec_joiners :
  forall cs s p,
    inFlight (cache s) = Some p ->
    Forall (fun c => fresh (cache s) (fst c) = false) cs ->
    run s (map (fun c => Call (fst c) (snd c)) cs)
      = Some (s, repeat (Awaits p) (List.length cs)).
Proof.
  induction cs as [|[now w] cs IH]; intros s p Hp Hall; [reflexivity|].
  inversion Hall as [|? ? Hc Hrest]; subst. simpl in Hc.
  cbn [map fst snd List.length repeat].
  change (run s (Call now w :: map (fun c => Call (fst c) (snd c)) cs))
    with (match step1 s (Call now w) with
          | None => None
          | Some (s', r) =>
              match run s' (map (fun c => Call (fst c) (snd c)) cs) with
              | None => None
              | Some (s'', rs) =>
                  Some (s'', match r with Some x => x :: rs | None => rs end)
              end
          end).
  unfold step.
  rewrite (getStatusData_stale now w s Hc), Hp.
  rewrite (IH s p Hp Hrest). reflexivity.
Qed.
Lemma probe_all_total :
  (forall h w st, exists v st', probeHost h w st = (Returns v, st')) ->
  forall hosts w st,
    exists vs st',
      probe_all probeHost hosts w st = (Returns vs, st') /\
      List.length vs = List.length hosts.
Proof.
  intros Htot. induction hosts as [|h r IH]; intros w st; simpl.
  - exists [], st. split; reflexivity.
  - unfold bind. destruct (Htot h w st) as (v & st1 & ->).
    destruct (IH w st1) as (vs & st2 & -> & Hlen).
    exists (v :: vs), st2. split; [reflexivity|]. simpl. congruence.
Qed.

(** A burst of calls on a stale cache with nothing pending: the first
    one starts the refresh, the others join it. *)
Lemma exec_burst :
  forall now w cs s,
    single_flight s ->
    inFlight (cache s) = None ->
    Forall (fun c => fresh (cache s) (fst c) = false) ((now, w) :: cs) ->
    exists s' f,
      run s (map (fun c => Call (fst c) (snd c)) ((now, w) :: cs))
        = Some (s', repeat (Awaits (flight_promise f)) (S (List.length cs))) /\
      running s' = [f] /\
      inFlight (cache s') = Some (flight_promise f) /\
      flight_now f = now /\
      flight_results f = fst (probe_all probeHost HOSTS w (store s)) /\
      refreshes s' = S (refreshes s) /\
      fulfilled s' = fulfilled s.
Proof.
  intros now w cs s Hs Hnone Hall.
  inversion Hall as [|? ? Hc Hrest]; subst. simpl in Hc.
  assert (Hrun : running s = []).
  { destruct Hs as [H | (f & _ & H)]; [exact H | congruence]. }
  destruct (start_refresh_shape now w s) as (results & st & Hp & Hstart).
  set (f := {| flight_promise := promises s; flight_now := now;
               flight_results := results |}).
  set (s1 := snd (refresh now w s)).
  assert (Hjoin : run s1 (map (fun c => Call (fst c) (snd c)) cs)
                  = Some (s1, repeat (Awaits (flight_promise f)) (List.length cs))).
  { apply exec_joiners.
    - subst s1. rewrite Hstart. reflexivity.
    - subst s1. rewrite Hstart. exact Hrest. }
  exists s1, f.
  split.
  { cbn [map fst snd exec]. unfold step.
    rewrite (getStatusData_stale now w s Hc), Hnone.
    replace (refresh now w s) with (Awaits (flight_promise f), s1)
      by (subst s1; rewrite Hstart; reflexivity).
    rewrite Hjoin. reflexivity. }
  subst s1. rewrite Hstart. simpl. rewrite Hrun, Hp.
  repeat split; reflexivity.
Qed.

(** The rest of a refresh whose probes have returned. *)
Lemma settle_fulfils :
  forall s f results t,
    running s = [f] ->
    flight_results f = Returns results ->
    exists s',
      run s [Done (flight_promise f) t] = Some (s', []) /\
      data (cache s') = Some (payload_of HOSTS results) /\
      expires (cache s') = flight_now f + ttl /\
      inFlight (cache s') = None /\
      running s' = [] /\
      delivered s' (Awaits (flight_promise f)) = Some (payload_of HOSTS results).
Proof.
  intros s f results t Hr Hres.
  cbn [exec step]. unfold settle. rewrite Hr. cbn [find filter].
  unfold is_flight. rewrite Nat.eqb_refl. cbn [negb]. rewrite Hres.
  eexists. split; [reflexivity|]. simpl. rewrite Nat.eqb_refl.
  repeat split; reflexivity.
Qed.

Lemma exec_app :
  forall a b s s1 rs1 s2 rs2,
    run s a = Some (s1, rs1) ->
    run s1 b = Some (s2, rs2) ->
    run s (a ++ b) = Some (s2, (rs1 ++ rs2)%list).
Proof.
  induction a as [|x a IH]; intros b s s1 rs1 s2 rs2; simpl.
  - intros E. inversion E; subst. auto.
  - destruct (step1 s x) as [[s' r]|]; [|discriminate].
    destruct (run s' a) as [[s'' rs]|] eqn:Ea; [|discriminate].
    intros E Eb. inversion E; subst.
    rewrite (IH b s' s1 rs s2 rs2 Ea Eb).
    destruct r; reflexivity.
Qed.
End CacheFacts.

(** C1: in every run of the process at most one refresh is pending at any
    moment.  In particular, when a burst of calls meets a cache that is
    empty or expired while nothing is pending, exactly one refresh is
    started, every caller of the burst holds the promise of that refresh,
    and when the refresh has its results they are what that promise and
    the cache deliver.  Calls that meet a stale cache while a refresh is
    pending start nothing and hold the promise of the pending one. *)
Theorem single_flight_refresh :
  forall ttl HOSTS probeHost,
    (forall sched s rs,
        exec ttl HOSTS probeHost initial sched = Some (s, rs) ->
        (List.length (running s) <= 1)%nat) /\
    (forall sched s rs now w cs,
        exec ttl HOSTS probeHost initial sched = Some (s, rs) ->
        inFlight (cache s) = None ->
        Forall (fun c => fresh (cache s) (fst c) = false) ((now, w) :: cs) ->
        exists s' p,
          exec ttl HOSTS probeHost s
            (map (fun c => Call (fst c) (snd c)) ((now, w) :: cs))
            = Some (s', repeat (Awaits p) (S (List.length cs))) /\
          refreshes s' = S (refreshes s) /\
          List.length (running s') = 1%nat /\
          (forall results t,
              fst (probe_all probeHost HOSTS w (store s)) = Returns results ->
              exists s'',
                exec ttl HOSTS probeHost s' [Done p t] = Some (s'', []) /\
                running s'' = [] /\
                data (cache s'') = Some (payload_of HOSTS results) /\
                delivered s'' (Awaits p) = Some (payload_of HOSTS results))) /\
    (forall s p cs,
        inFlight (cache s) = Some p ->
        Forall (fun c => fresh (cache s) (fst c) = false) cs ->
        exec ttl HOSTS probeHost s (map (fun c => Call (fst c) (snd c)) cs)
          = Some (s, repeat (Awaits p) (List.length cs))).
Proof.
  intros ttl HOSTS probeHost. split; [|split].
  - intros sched s rs E.
    pose proof (single_flight_exec ttl HOSTS probeHost sched initial s rs
                  single_flight_initial E) as [H | (f & H & _)];
      rewrite H; simpl; lia.
  - intros sched s rs now w cs E Hnone Hall.
    pose proof (single_flight_exec ttl HOSTS probeHost sched initial s rs
                  single_flight_initial E) as Hs.
    destruct (exec_burst ttl HOSTS probeHost now w cs s Hs Hnone Hall)
      as (s' & f & Hrun & Hr & _ & _ & Hres & Hcount & _).
    exists s', (flight_promise f). split; [exact Hrun|].
    split; [exact Hcount|]. split; [rewrite Hr; reflexivity|].
    intros results t Hret. rewrite <- Hres in Hret.
    destruct (settle_fulfils ttl HOSTS probeHost s' f results t Hr Hret)
      as (s'' & H1 & H2 & _ & _ & H5 & H6).
    exists s''. auto.
  - intros s p cs Hp Hall.
    apply exec_joiners; assumption.
Qed.

Lemma single_flight_refresh_witness :
  exists s rs,
    exec 30000 Server.HOSTS (Server.probeHost default_config JNull) initial demo_schedule
      = Some (s, rs) /\
    (List.length (running s) <= 1)%nat.
Proof.
  eexists. eexists. split.
  - vm_compute. reflexivity.
  - eapply (proj1 (single_flight_refresh 30000 Server.HOSTS
                     (Server.probeHost default_config JNull)) demo_schedule).
    vm_compute. reflexivity.
Defined.

Example demo_schedule_starts_two_refreshes :
  option_map (fun r => (refreshes (fst r), snd r))
    (exec 30000 Server.HOSTS (Server.probeHost default_config JNull) initial demo_schedule)
  = Some (2%nat, [Awaits 0; Awaits 0; Awaits 1; Awaits 1]).
Proof. vm_compute. reflexivity. Qed.

(** ** Probes always answer *)

Lemma probeHostBasic_total :
  forall cfg host w s, exists v s', probeHostBasic cfg host w s = (Returns v, s').
Proof.
  intros cfg host w s. run_probe.
  destruct (net w HEAD _) as [|r1]; simpl.
  - destruct (net w GET _) as [|r2]; simpl; eauto.
  - destruct (isOkStatus (status r1)); simpl; eauto.
    destruct (net w GET _) as [|r2]; simpl; eauto.
Qed.

Lemma probeNameMatch_returns :
  forall cfg url expectedName w s,
    exists v s', probeNameMatch cfg url expectedName w s = (Returns v, s').
Proof.
  intros cfg url expectedName w s. run_probe.
  destruct (truthy expectedName); simpl; [|eauto].
  destruct (net w GET url) as [|res]; simpl; [eauto|].
  destruct (isOkStatus (status res)); simpl; [|eauto].
  destruct (json res); simpl; eauto.
Qed.

Lemma probeJsonExactMatch_total :
  forall cfg url path w s,
    exists v s', probeJsonExactMatch cfg url path w s = (Returns v, s').
Proof.
  intros cfg url path w s. run_probe.
  destruct (file w path) as [doc|]; simpl; [|eauto].
  destruct (is_null doc); simpl; [eauto|].
  destruct (net w GET url) as [|res]; simpl; [eauto|].
  destruct (isOkStatus (status res)); simpl; [|eauto].
  destruct (json res); simpl; split_calls; eauto.
Qed.

Lemma probeJsonAny_total :
  forall cfg url w s, exists v s', probeJsonAny cfg url w s = (Returns v, s').
Proof.
  intros cfg url w s. run_probe.
  destruct (net w GET url) as [|res]; simpl; [eauto|].
  destruct (isOkStatus (status res)); simpl; [|eauto].
  destruct (includes _ _ || includes _ _); simpl; [eauto|].
  destruct (json res); simpl; eauto.
Qed.

Lemma probeUrlOk_total :
  forall cfg url w s, exists v s', probeUrlOk cfg url w s = (Returns v, s').
Proof.
  intros cfg url w s. run_probe.
  destruct (net w GET url) as [|res]; simpl; eauto.
Qed.

Lemma Server_probeHost_total :
  forall cfg name host w s,
    exists v s', Server.probeHost cfg name host w s = (Returns v, s').
Proof.
  intros cfg name host w s. unfold Server.probeHost.
  destruct (Server.CUSTOM_CHECKS cfg name host) as [[url n | url path]|].
  - apply probeNameMatch_returns.
  - apply probeJsonExactMatch_total.
  - apply probeHostBasic_total.
Qed.

Lemma Variant_probeHost_total :
  forall cfg host w s,
    exists v s', Variant.probeHost cfg host w s = (Returns v, s').
Proof.
  intros cfg host w s. unfold Variant.probeHost.
  destruct (Variant.CUSTOM_CHECKS host) as [[url | url]|].
  - apply probeJsonAny_total.
  - apply probeUrlOk_total.
  - apply probeHostBasic_total.
Qed.

(** ** Expiry of a refreshed cache *)

(** As stated, C2 fails: a refresh whose call read the clock at 1000 and
    which finishes at 3500 leaves [expires] at 1000 + TTL. *)
Lemma expires_completion_time_counterexample :
  option_map (fun r => expires (cache (fst r)))
    (exec 30000 Server.HOSTS (Server.probeHost default_config JNull) initial
       [Call 1000 offline; Done 0 3500])
  = Some 31000 /\
  31000 <> 3500 + 30000.
Proof. split; [vm_compute; reflexivity | discriminate]. Qed.

(** C2, amended: for every refresh that completes, the expiry written to
    the cache is the clock reading taken by the [getStatusData] call that
    started the refresh, plus the TTL; the time at which the refresh
    finishes plays no part. *)
Theorem refresh_expires_from_call_clock :
  forall ttl HOSTS probeHost,
    (forall h w st, exists v st', probeHost h w st = (Returns v, st')) ->
    forall sched s rs now w cs t,
      exec ttl HOSTS probeHost initial sched = Some (s, rs) ->
      inFlight (cache s) = None ->
      Forall (fun c => fresh (cache s) (fst c) = false) ((now, w) :: cs) ->
      exists p s',
        exec ttl HOSTS probeHost s
          (map (fun c => Call (fst c) (snd c)) ((now, w) :: cs) ++ [Done p t])
          = Some (s', repeat (Awaits p) (S (List.length cs))) /\
        expires (cache s') = now + ttl /\
        inFlight (cache s') = None.
Proof.
  intros ttl HOSTS probeHost Htot sched s rs now w cs t E Hnone Hall.
  pose proof (single_flight_exec ttl HOSTS probeHost sched initial s rs
                single_flight_initial E) as Hs.
  destruct (exec_burst ttl HOSTS probeHost now w cs s Hs Hnone Hall)
    as (s1 & f & Hrun & Hr & _ & Hnow & Hres & _ & _).
  destruct (probe_all_total probeHost Htot HOSTS w (store s))
    as (vs & st & Hp & _).
  rewrite Hp in Hres. simpl in Hres.
  destruct (settle_fulfils ttl HOSTS probeHost s1 f vs t Hr Hres)
    as (s2 & H1 & _ & H3 & H4 & _).
  exists (flight_promise f), s2. split; [|split].
  - rewrite (exec_app ttl HOSTS probeHost _ _ _ _ _ _ _ Hrun H1).
    rewrite app_nil_r. reflexivity.
  - rewrite H3, Hnow. reflexivity.
  - exact H4.
Qed.

Lemma refresh_expires_from_call_clock_witness :
  exists p s',
    exec 30000 Server.HOSTS (Server.probeHost default_config JNull) initial
      (map (fun c => Call (fst c) (snd c)) [(1000, offline); (1200, offline)]
         ++ [Done p 3500])
      = Some (s', repeat (Awaits p) 2) /\
    expires (cache s') = 1000 + 30000 /\
    inFlight (cache s') = None.
Proof.
  apply (refresh_expires_from_call_clock 30000 Server.HOSTS
           (Server.probeHost default_config JNull)
           (Server_probeHost_total default_config JNull)
           [] initial [] 1000 offline [(1200, offline)] 3500).
  - reflexivity.
  - reflexivity.
  - repeat constructor.
Defined.

(** ** Sorting of keys *)

Lemma string_compare_trans_le :
  forall a b c,
    String.compare a b <> Gt -> String.compare b c <> Gt -> String.compare a c <> Gt.
Proof.
  induction a as [|x a IH]; intros [|y b] [|z c]; simpl; try congruence.
  unfold Ascii.compare.
  destruct (N.compare_spec (N_of_ascii x) (N_of_ascii y)) as [Hxy|Hxy|Hxy];
    destruct (N.compare_spec (N_of_ascii y) (N_of_ascii z)) as [Hyz|Hyz|Hyz];
    try congruence; intros H1 H2.
  - rewrite Hxy, Hyz, N.compare_refl. eauto.
  - replace (N_of_ascii x ?= N_of_ascii z)%N with Lt; [discriminate|].
    symmetry. apply N.compare_lt_iff. lia.
  - replace (N_of_ascii x ?= N_of_ascii z)%N with Lt; [discriminate|].
    symmetry. apply N.compare_lt_iff. lia.
  - replace (N_of_ascii x ?= N_of_ascii z)%N with Lt; [discriminate|].
    symmetry. apply N.compare_lt_iff. lia.
Qed.

Lemma string_leb_trans :
  forall a b c,
    String.leb a b = true -> String.leb b c = true -> String.leb a c = true.
Proof.
  intros a b c. unfold String.leb.
  pose proof (string_compare_trans_le a b c) as H.
  destruct (String.compare a b), (String.compare b c), (String.compare a c);
    try reflexivity; try discriminate; intros _ _; exfalso; apply H; congruence.
Qed.

Lemma sort_keys_sorted :
  forall ks, StronglySorted (fun a b => String.leb a b = true) (sort_keys ks).
Proof.
  intros ks. apply (KeySort.StronglySorted_sort ks).
  intros a b c. apply string_leb_trans.
Qed.

Lemma sort_keys_perm : forall ks, Permutation ks (sort_keys ks).
Proof. exact KeySort.Permuted_sort. Qed.

(** A list has one sorted arrangement only. *)
Lemma sorted_arrangement_unique :
  forall l1 l2 : list string,
    StronglySorted (fun a b => String.leb a b = true) l1 ->
    StronglySorted (fun a b => String.leb a b = true) l2 ->
    Permutation l1 l2 ->
    l1 = l2.
Proof.
  induction l1 as [|a l1 IH]; intros l2 S1 S2 P.
  - apply Permutation_nil in P. congruence.
  - destruct l2 as [|b l2].
    { apply Permutation_sym, Permutation_nil in P. discriminate. }
    inversion S1 as [|? ? S1' F1]; inversion S2 as [|? ? S2' F2]; subst.
    assert (a = b).
    { assert (Hb : In b (a :: l1)) by (eapply Permutation_in; [apply Permutation_sym; exact P | left; reflexivity]).
      assert (Ha : In a (b :: l2)) by (eapply Permutation_in; [exact P | left; reflexivity]).
      destruct Hb as [Hb | Hb]; [congruence|].
      destruct Ha as [Ha | Ha]; [congruence|].
      rewrite Forall_forall in F1, F2.
      apply String.leb_antisym; auto. }
    subst b. f_equal. apply IH; auto.
    eapply Permutation_cons_inv; eauto.
Qed.

Lemma sort_keys_permutation :
  forall k1 k2, Permutation k1 k2 -> sort_keys k1 = sort_keys k2.
Proof.
  intros k1 k2 P. apply sorted_arrangement_unique; try apply sort_keys_sorted.
  eapply Permutation_trans; [apply Permutation_sym, sort_keys_perm|].
  eapply Permutation_trans; [exact P | apply sort_keys_perm].
Qed.

(** ** The canonical form does not depend on the order of properties *)

Lemma wf_json_arr :
  forall items, wf_json (JArr items) <-> Forall wf_json items.
Proof.
  intros items. simpl. induction items as [|x r IH]; simpl.
  - split; auto.
  - rewrite IH. split.
    + intros [H1 H2]. constructor; assumption.
    + intros H. inversion H; subst. auto.
Qed.

Lemma wf_json_obj :
  forall props,
    wf_json (JObj props) <->
    NoDup (Object_keys props) /\ Forall (fun kv => wf_json (snd kv)) props.
Proof.
  intros props. simpl.
  assert (H : (fix all (l : list (string * JSON)) : Prop :=
                 match l with
                 | [] => True
                 | kv :: r => wf_json (snd kv) /\ all r
                 end) props <-> Forall (fun kv => wf_json (snd kv)) props).
  { induction props as [|x r IH]; simpl.
    - split; auto.
    - rewrite IH. split.
      + intros [H1 H2]. constructor; assumption.
      + intros H. inversion H; subst. auto. }
  rewrite H. reflexivity.
Qed.

Lemma canonical_text_obj :
  forall props,
    canonical_text (JObj props) =
    "{" ++ String.concat "," (map (member (canon_values props))
                                  (sort_keys (Object_keys props))) ++ "}".
Proof.
  intros props. simpl.
  match goal with
  | |- context [member ?vals] => replace vals with (canon_values props)
  end; [reflexivity|].
  induction props as [|[k v] r IH]; simpl; [reflexivity|].
  f_equal. exact IH.
Qed.

Lemma canonical_text_arr :
  forall items,
    canonical_text (JArr items) =
    "[" ++ String.concat "," (map canonical_text items) ++ "]".
Proof. reflexivity. Qed.

Lemma Object_keys_canon_values :
  forall props, Object_keys (canon_values props) = Object_keys props.
Proof.
  intros props. unfold Object_keys, canon_values. rewrite map_map. reflexivity.
Qed.

Lemma get_prop_permutation :
  forall A k (p q : list (string * A)),
    Permutation p q -> NoDup (Object_keys p) -> get_prop k p = get_prop k q.
Proof.
  intros A k p q P. induction P as [|[k1 v1] p q P IH|[k1 v1] [k2 v2] p|p q r P1 IH1 P2 IH2];
    intros Hnd.
  - reflexivity.
  - simpl. inversion Hnd; subst. rewrite IH; auto.
  - simpl. inversion Hnd as [|? ? Hn1 Hnd']; subst.
    destruct (String.eqb_spec k k2) as [->|]; [|reflexivity].
    destruct (String.eqb_spec k2 k1) as [->|]; [|reflexivity].
    exfalso. apply Hn1. left. reflexivity.
  - rewrite IH1 by assumption. apply IH2.
    eapply Permutation_NoDup; [|exact Hnd].
    apply Permutation_map. exact P1.
Qed.

(** Permuting the properties of an object leaves its canonical form as it
    is, provided no key occurs twice. *)
Lemma canonical_text_permutation :
  forall p q,
    NoDup (Object_keys p) -> Permutation p q ->
    canonical_text (JObj p) = canonical_text (JObj q).
Proof.
  intros p q Hnd P. rewrite !canonical_text_obj.
  rewrite (sort_keys_permutation (Object_keys p) (Object_keys q))
    by (apply Permutation_map; exact P).
  do 2 f_equal. f_equal. apply map_ext. intros k. unfold member.
  rewrite (get_prop_permutation _ k (canon_values p) (canon_values q)).
  - reflexivity.
  - apply Permutation_map. exact P.
  - rewrite Object_keys_canon_values. exact Hnd.
Qed.

Lemma canonical_text_item :
  forall l1 v w l2,
    canonical_text v = canonical_text w ->
    canonical_text (JArr (l1 ++ v :: l2)) = canonical_text (JArr (l1 ++ w :: l2)).
Proof.
  intros l1 v w l2 H. rewrite !canonical_text_arr, !map_app. simpl.
  rewrite H. reflexivity.
Qed.

Lemma canonical_text_value :
  forall p1 k v w p2,
    canonical_text v = canonical_text w ->
    canonical_text (JObj (p1 ++ (k, v) :: p2))
    = canonical_text (JObj (p1 ++ (k, w) :: p2)).
Proof.
  intros p1 k v w p2 H. rewrite !canonical_text_obj.
  unfold canon_values, Object_keys. rewrite !map_app. simpl. rewrite H. reflexivity.
Qed.

Lemma reorder_canonical :
  forall v w,
    reorder v w -> wf_json v ->
    wf_json w /\ canonical_text v = canonical_text w.
Proof.
  intros v w R. induction R as [v|u v w R1 IH1 R2 IH2|p q P|l1 v w l2 R IH|p1 k v w p2 R IH];
    intros Hwf.
  - split; [assumption | reflexivity].
  - destruct (IH1 Hwf) as [Hv E1]. destruct (IH2 Hv) as [Hw E2].
    split; [assumption | congruence].
  - apply wf_json_obj in Hwf. destruct Hwf as [Hnd Hall]. split.
    + apply wf_json_obj. split.
      * eapply Permutation_NoDup; [|exact Hnd]. apply Permutation_map. exact P.
      * eapply Permutation_Forall; eauto.
    + apply canonical_text_permutation; assumption.
  - apply wf_json_arr in Hwf. apply Forall_app in Hwf. destruct Hwf as [H1 H2].
    inversion H2 as [|? ? Hv H2']; subst. destruct (IH Hv) as [Hw E]. split.
    + apply wf_json_arr. apply Forall_app. split; [assumption|].
      constructor; assumption.
    + apply canonical_text_item. exact E.
  - apply wf_json_obj in Hwf. destruct Hwf as [Hnd Hall].
    apply Forall_app in Hall. destruct Hall as [H1 H2].
    inversion H2 as [|? ? Hv H2']; subst. destruct (IH Hv) as [Hw E]. split.
    + apply wf_json_obj. split.
      * unfold Object_keys in *. rewrite map_app in *. exact Hnd.
      * apply Forall_app. split; [assumption|]. constructor; assumption.
    + apply canonical_text_value. exact E.
Qed.

Lemma plain_json_arr :
  forall items, plain_json (JArr items) <-> Forall plain_json items.
Proof.
  intros items. simpl. induction items as [|x r IH]; simpl.
  - split; auto.
  - rewrite IH. split.
    + intros [H1 H2]. constructor; assumption.
    + intros H. inversion H; subst. auto.
Qed.

Lemma plain_json_obj :
  forall props,
    plain_json (JObj props) <->
    NoDup (Object_keys props) /\ Forall (fun kv => plain_json (snd kv)) props.
Proof.
  intros props. simpl.
  assert (H : (fix all (l : list (string * JSON)) : Prop :=
                 match l with
                 | [] => True
                 | kv :: r => plain_json (snd kv) /\ all r
                 end) props <-> Forall (fun kv => plain_json (snd kv)) props).
  { induction props as [|x r IH]; simpl.
    - split; auto.
    - rewrite IH. split.
      + intros [H1 H2]. constructor; assumption.
      + intros H. inversion H; subst. auto. }
  rewrite H. reflexivity.
Qed.

Lemma plain_json_wf : forall v, plain_json v -> wf_json v.
Proof.
  induction v as [|b|[t|i]|s|items IH|props IH] using JSON_deep_ind;
    intros H; try exact H; try exact I.
  - apply plain_json_arr in H. apply wf_json_arr.
    rewrite Forall_forall in *. intros x Hx. apply IH; auto.
  - apply plain_json_obj in H. destruct H as [Hnd H]. apply wf_json_obj.
    split; [exact Hnd|].
    rewrite Forall_forall in *. intros x Hx. apply IH; auto.
Qed.

Lemma nonfinite_as_null_props :
  forall props,
    nonfinite_as_null (JObj props)
    = JObj (map (fun kv => (fst kv, nonfinite_as_null (snd kv))) props).
Proof.
  intros props. simpl. f_equal.
  induction props as [|[k v] r IH]; simpl; [reflexivity | rewrite IH; reflexivity].
Qed.

Lemma nonfinite_as_null_keys :
  forall props,
    Object_keys (map (fun kv : string * JSON => (fst kv, nonfinite_as_null (snd kv))) props)
    = Object_keys props.
Proof.
  intros props. unfold Object_keys. rewrite map_map. reflexivity.
Qed.

(** Replacing the infinities by [null] yields a plain value that prints
    the same text. *)
Lemma nonfinite_as_null_plain :
  forall v, wf_json v -> plain_json (nonfinite_as_null v).
Proof.
  induction v as [|b|[t|i]|s|items IH|props IH] using JSON_deep_ind;
    intros H; try exact H; try exact I.
  - apply wf_json_arr in H. cbn [nonfinite_as_null]. apply plain_json_arr.
    rewrite Forall_forall in *. intros x Hx.
    apply in_map_iff in Hx. destruct Hx as (y & <- & Hy). apply IH; auto.
  - apply wf_json_obj in H. destruct H as [Hnd H].
    rewrite nonfinite_as_null_props. apply plain_json_obj.
    rewrite nonfinite_as_null_keys. split; [exact Hnd|].
    rewrite Forall_forall in *. intros x Hx.
    apply in_map_iff in Hx. destruct Hx as (y & <- & Hy). simpl. apply IH; auto.
Qed.

Lemma nonfinite_as_null_text :
  forall v, canonical_text (nonfinite_as_null v) = canonical_text v.
Proof.
  induction v as [|b|[t|i]|s|items IH|props IH] using JSON_deep_ind;
    try reflexivity.
  - cbn [nonfinite_as_null canonical_text]. rewrite map_map.
    f_equal. f_equal. f_equal.
    apply map_ext_in. intros x Hx. rewrite Forall_forall in IH. apply IH; exact Hx.
  - rewrite nonfinite_as_null_props, !canonical_text_obj.
    rewrite nonfinite_as_null_keys.
    unfold canon_values. rewrite map_map. simpl.
    replace (map (fun x : string * JSON =>
                    (fst x, canonical_text (nonfinite_as_null (snd x)))) props)
      with (map (fun kv : string * JSON => (fst kv, canonical_text (snd kv))) props);
      [reflexivity|].
    apply map_ext_in. intros x Hx. rewrite Forall_forall in IH.
    rewrite (IH x Hx). reflexivity.
Qed.

Lemma nonfinite_as_null_id :
  forall v, plain_json v -> nonfinite_as_null v = v.
Proof.
  induction v as [|b|[t|i]|s|items IH|props IH] using JSON_deep_ind;
    intros H; try reflexivity.
  - destruct H.
  - apply plain_json_arr in H. cbn [nonfinite_as_null]. f_equal.
    rewrite <- (map_id items) at 2. apply map_ext_in. intros x Hx.
    rewrite Forall_forall in *. apply IH; auto.
  - apply plain_json_obj in H. destruct H as [_ H].
    rewrite nonfinite_as_null_props. f_equal.
    rewrite <- (map_id props) at 2. apply map_ext_in. intros [k x] Hx.
    rewrite Forall_forall in *. pose proof (IH (k, x) Hx (H (k, x) Hx)) as E.
    simpl in *. rewrite E. reflexivity.
Qed.

(** ** The canonical form tells values apart *)

Lemma str_app_assoc : forall a b c : string, (a ++ b) ++ c = a ++ (b ++ c).
Proof. induction a as [|x a IH]; intros b c; simpl; [reflexivity | rewrite IH; reflexivity]. Qed.

Lemma str_app_nil_r : forall a : string, a ++ "" = a.
Proof. induction a as [|x a IH]; simpl; [reflexivity | rewrite IH; reflexivity]. Qed.

Lemma concat_join_tail :
  forall sep x items, String.concat sep (x :: items) = x ++ join_tail sep items.
Proof.
  intros sep x items. revert x. induction items as [|y r IH]; intros x.
  - simpl. symmetry. apply str_app_nil_r.
  - change (String.concat sep (x :: y :: r)) with (x ++ sep ++ String.concat sep (y :: r)).
    rewrite IH. reflexivity.
Qed.

Lemma unquote_quote_char :
  forall c r, unquote_head (quote_char c ++ r) = Some (c, r).
Proof.
  intros c r. destruct c as [[] [] [] [] [] [] [] []]; reflexivity.
Qed.

Lemma quote_body_inj :
  forall s1 s2 r1 r2,
    quote_body s1 ++ String dquote r1 = quote_body s2 ++ String dquote r2 ->
    s1 = s2 /\ r1 = r2.
Proof.
  induction s1 as [|c1 s1 IH]; intros [|c2 s2] r1 r2; simpl; intros H.
  - inversion H. auto.
  - apply (f_equal unquote_head) in H. rewrite str_app_assoc, unquote_quote_char in H.
    discriminate.
  - apply (f_equal unquote_head) in H. rewrite str_app_assoc, unquote_quote_char in H.
    discriminate.
  - apply (f_equal unquote_head) in H.
    rewrite !str_app_assoc, !unquote_quote_char in H.
    inversion H; subst. destruct (IH s2 r1 r2) as [-> ->]; auto.
Qed.

Lemma stringify_string_inj :
  forall s1 s2 r1 r2,
    stringify_string s1 ++ r1 = stringify_string s2 ++ r2 -> s1 = s2 /\ r1 = r2.
Proof.
  intros s1 s2 r1 r2. unfold stringify_string. simpl.
  rewrite !str_app_assoc. simpl. intros H. inversion H as [H'].
  apply quote_body_inj in H'. exact H'.
Qed.

Lemma uint_all_numeric :
  forall d, all_numeric (NilEmpty.string_of_uint d) = true.
Proof. induction d; simpl; auto. Qed.

Lemma int_numeral : forall z, wf_json (JNum (int z)).
Proof.
  intros z. unfold int, wf_json.
  destruct (Z.to_int z) as [d|d]; simpl;
    destruct d; simpl; auto using uint_all_numeric.
Qed.

Lemma numeral_all_numeric : forall t, numeral t = true -> all_numeric t = true.
Proof.
  intros [|c t] H; [reflexivity|].
  unfold numeral in H. apply andb_prop in H. tauto.
Qed.

Lemma numeral_head :
  forall t, numeral t = true -> exists c s, t = String c s /\ number_start c = true.
Proof.
  intros [|c t] H; [discriminate H|].
  unfold numeral in H. apply andb_prop in H. exists c, t. tauto.
Qed.

Lemma numeric_span :
  forall a b r1 r2,
    all_numeric a = true -> all_numeric b = true ->
    stops r1 -> stops r2 ->
    a ++ r1 = b ++ r2 ->
    a = b /\ r1 = r2.
Proof.
  induction a as [|x a IH]; intros [|y b] r1 r2 Ha Hb S1 S2 H; simpl in *.
  - auto.
  - subst r1. simpl in S1. apply andb_prop in Hb. destruct Hb. congruence.
  - subst r2. simpl in S2. apply andb_prop in Ha. destruct Ha. congruence.
  - inversion H; subst.
    apply andb_prop in Ha. apply andb_prop in Hb.
    destruct Ha as [_ Ha]. destruct Hb as [_ Hb].
    destruct (IH b r1 r2 Ha Hb S1 S2) as [-> ->]; auto.
Qed.

(** The texts of two finite numbers, each followed by something a number
    cannot run into, agree only when the numbers do. *)
Lemma stringify_number_inj :
  forall t1 t2 r1 r2,
    numeral t1 = true -> numeral t2 = true ->
    stops r1 -> stops r2 ->
    stringify_number (Finite t1) ++ r1 = stringify_number (Finite t2) ++ r2 ->
    Finite t1 = Finite t2 /\ r1 = r2.
Proof.
  intros t1 t2 r1 r2 H1 H2 S1 S2 H. simpl in H.
  destruct (numeric_span _ _ _ _ (numeral_all_numeric _ H1)
              (numeral_all_numeric _ H2) S1 S2 H) as [-> ->].
  split; reflexivity.
Qed.

(** On integers the text is the decimal numeral, and it determines the
    integer. *)
Lemma to_int_not_nil :
  forall n, Z.to_int n <> Decimal.Pos Decimal.Nil /\ Z.to_int n <> Decimal.Neg Decimal.Nil.
Proof.
  intros n. split; intros H; pose proof (DecimalZ.of_to n) as E;
    rewrite H in E; simpl in E; subst n; discriminate.
Qed.

Lemma int_inj : forall n m, int n = int m -> n = m.
Proof.
  intros n m H. unfold int in H. inversion H as [H0].
  apply (f_equal NilZero.int_of_string) in H0.
  destruct (to_int_not_nil n) as [Hn1 Hn2].
  destruct (to_int_not_nil m) as [Hm1 Hm2].
  rewrite !NilZero.isi in H0 by assumption.
  inversion H0 as [H'].
  rewrite <- (DecimalZ.of_to n), <- (DecimalZ.of_to m), H'.
  reflexivity.
Qed.

Lemma number_start_char_kind : forall c, number_start c = true -> char_kind c = 2%nat.
Proof.
  intros c. destruct c as [[] [] [] [] [] [] [] []]; intros H;
    try discriminate H; reflexivity.
Qed.

Lemma canonical_text_head :
  forall v,
    plain_json v ->
    exists c s, canonical_text v = String c s /\ char_kind c = kind v.
Proof.
  intros v Hv. destruct v as [|[]|[t|i]|s|items|props];
    try (eexists; eexists; split; reflexivity).
  - simpl in Hv. destruct (numeral_head t Hv) as (c & s & -> & Hc).
    exists c, s. split; [reflexivity | apply number_start_char_kind; exact Hc].
  - destruct Hv.
Qed.

Lemma canonical_text_same_kind :
  forall v w r1 r2,
    plain_json v -> plain_json w ->
    canonical_text v ++ r1 = canonical_text w ++ r2 -> kind v = kind w.
Proof.
  intros v w r1 r2 Hv Hw H.
  destruct (canonical_text_head v Hv) as (c1 & s1 & E1 & K1).
  destruct (canonical_text_head w Hw) as (c2 & s2 & E2 & K2).
  rewrite E1, E2 in H. simpl in H. inversion H; subst. congruence.
Qed.

(** No value starts with a code unit that closes or separates. *)
Lemma canonical_text_not_closer :
  forall v r c r',
    plain_json v ->
    canonical_text v ++ r = String c r' -> char_kind c <> 6%nat.
Proof.
  intros v r c r' Hv H.
  destruct (canonical_text_head v Hv) as (c1 & s1 & E1 & K1).
  rewrite E1 in H. simpl in H. inversion H; subst.
  rewrite K1. destruct v; discriminate.
Qed.

Lemma stops_join_tail :
  forall items closer r,
    numeric closer = false -> stops (join_tail "," items ++ String closer r).
Proof. intros [|x items] closer r H; simpl; [exact H | reflexivity]. Qed.

(** Look-up in a parsed object. *)

Lemma get_prop_in :
  forall A k (props : list (string * A)),
    In k (Object_keys props) -> exists v, get_prop k props = Some v /\ In (k, v) props.
Proof.
  intros A k props. induction props as [|[k' v'] r IH]; simpl; [contradiction|].
  intros H. destruct (String.eqb_spec k k') as [->|Hne].
  - exists v'. auto.
  - destruct H as [H | H]; [congruence|].
    destruct (IH H) as (v & E & Hin). exists v. auto.
Qed.

Lemma get_prop_nodup :
  forall A k v (props : list (string * A)),
    NoDup (Object_keys props) -> In (k, v) props -> get_prop k props = Some v.
Proof.
  intros A k v props. induction props as [|[k' v'] r IH]; simpl; [contradiction|].
  intros Hnd [H | H].
  - inversion H; subst. rewrite String.eqb_refl. reflexivity.
  - inversion Hnd as [|? ? Hnotin Hnd']; subst.
    destruct (String.eqb_spec k k') as [->|Hne].
    + exfalso. apply Hnotin. unfold Object_keys.
      change k' with (fst (k', v)). apply in_map. exact H.
    + apply IH; assumption.
Qed.

Lemma get_prop_canon_values :
  forall k props,
    get_prop k (canon_values props) = option_map canonical_text (get_prop k props).
Proof.
  intros k props. induction props as [|[k' v] r IH]; simpl; [reflexivity|].
  destruct (String.eqb k k'); [reflexivity | exact IH].
Qed.

(** Changing items or property values one by one. *)

Lemma reorder_items :
  forall l1 l2 pre,
    Forall2 reorder l1 l2 -> reorder (JArr (pre ++ l1)) (JArr (pre ++ l2)).
Proof.
  intros l1 l2 pre F. revert pre.
  induction F as [|v w l1 l2 R F IH]; intros pre.
  - apply reorder_refl.
  - eapply reorder_trans.
    + apply reorder_item. exact R.
    + specialize (IH (pre ++ [w])%list). rewrite <- !app_assoc in IH. exact IH.
Qed.

Lemma reorder_values :
  forall l1 l2 pre,
    Forall2 (fun a b => fst a = fst b /\ reorder (snd a) (snd b)) l1 l2 ->
    reorder (JObj (pre ++ l1)) (JObj (pre ++ l2)).
Proof.
  intros l1 l2 pre F. revert pre.
  induction F as [|[k v] [k' w] l1 l2 [E R] F IH]; intros pre.
  - apply reorder_refl.
  - simpl in E, R. subst k'. eapply reorder_trans.
    + apply reorder_value. exact R.
    + specialize (IH (pre ++ [(k, w)])%list). rewrite <- !app_assoc in IH. exact IH.
Qed.

(** Objects with the same keys and related values differ in order only. *)
Lemma reorder_objects :
  forall p q,
    NoDup (Object_keys p) -> NoDup (Object_keys q) ->
    Permutation (Object_keys p) (Object_keys q) ->
    (forall k, In k (Object_keys p) ->
       exists v w, get_prop k p = Some v /\ get_prop k q = Some w /\ reorder v w) ->
    reorder (JObj p) (JObj q).
Proof.
  intros p q Hp Hq P Hrel.
  set (p' := map (fun kw => (fst kw, value_at p (fst kw))) q).
  assert (Hkeys' : Object_keys p' = Object_keys q).
  { unfold p', Object_keys. rewrite map_map. reflexivity. }
  apply reorder_trans with (JObj p').
  - apply reorder_props. apply NoDup_Permutation.
    + apply (NoDup_map_inv fst). exact Hp.
    + apply (NoDup_map_inv fst). change (NoDup (Object_keys p')).
      rewrite Hkeys'. exact Hq.
    + intros [k v]. split.
      * intros Hin.
        assert (Hk : In k (Object_keys q)).
        { eapply Permutation_in; [exact P|]. unfold Object_keys.
          change k with (fst (k, v)). apply in_map. exact Hin. }
        destruct (get_prop_in _ k q Hk) as (w & _ & Hw).
        unfold p'. apply in_map_iff. exists (k, w). split; [|exact Hw].
        simpl. unfold value_at. rewrite (get_prop_nodup _ k v p Hp Hin). reflexivity.
      * unfold p'. intros Hin. apply in_map_iff in Hin.
        destruct Hin as ([k' w] & E & Hw). simpl in E. inversion E; subst.
        assert (Hk : In k (Object_keys p)).
        { eapply Permutation_in; [apply Permutation_sym; exact P|]. unfold Object_keys.
          change k with (fst (k, w)). apply in_map. exact Hw. }
        destruct (get_prop_in _ k p Hk) as (v & Ev & Hv).
        unfold value_at. rewrite Ev. exact Hv.
  - apply (reorder_values p' q []).
    unfold p'. clear Hkeys'.
    assert (Hall : forall kw, In kw q -> reorder (value_at p (fst kw)) (snd kw)).
    { intros [k w] Hw. simpl.
      assert (Hk : In k (Object_keys p)).
      { eapply Permutation_in; [apply Permutation_sym; exact P|]. unfold Object_keys.
        change k with (fst (k, w)). apply in_map. exact Hw. }
      destruct (Hrel k Hk) as (v & w' & Ev & Ew & R).
      rewrite (get_prop_nodup _ k w q Hq Hw) in Ew. inversion Ew; subst.
      unfold value_at. rewrite Ev. exact R. }
    clear - Hall. induction q as [|kw q IH]; simpl; constructor.
    + split; [reflexivity|]. apply Hall. left. reflexivity.
    + apply IH. intros x Hx. apply Hall. right. exact Hx.
Qed.

(** One property of each side, printed. *)
Lemma member_separates :
  forall p q k1 k2 r1 r2,
    Forall (fun kv => separates (snd kv)) p ->
    Forall (fun kv => plain_json (snd kv)) p ->
    Forall (fun kv => plain_json (snd kv)) q ->
    In k1 (Object_keys p) -> In k2 (Object_keys q) ->
    stops r1 -> stops r2 ->
    member (canon_values p) k1 ++ r1 = member (canon_values q) k2 ++ r2 ->
    k1 = k2 /\
    (exists v w, get_prop k1 p = Some v /\ get_prop k2 q = Some w /\ reorder v w) /\
    r1 = r2.
Proof.
  intros p q k1 k2 r1 r2 Hsep Hwp Hwq H1 H2 S1 S2 H.
  unfold member in H. rewrite !str_app_assoc in H.
  apply stringify_string_inj in H. destruct H as [-> H].
  rewrite !get_prop_canon_values in H.
  destruct (get_prop_in _ k2 p H1) as (v & Ev & Hv).
  destruct (get_prop_in _ k2 q H2) as (w & Ew & Hw).
  rewrite Ev, Ew in H. simpl in H. inversion H as [H'].
  rewrite Forall_forall in Hsep, Hwp, Hwq.
  destruct (Hsep _ Hv (Hwp _ Hv) w r1 r2 (Hwq _ Hw) S1 S2 H') as [R ->].
  split; [reflexivity|]. split; [|reflexivity].
  exists v, w. auto.
Qed.

Lemma string_tail_eq :
  forall c1 c2 a b, String c1 a = String c2 b -> a = b.
Proof. intros c1 c2 a b H. inversion H. reflexivity. Qed.

Lemma join_tail_items :
  forall l1,
    Forall separates l1 -> Forall plain_json l1 ->
    forall l2 r1 r2,
      Forall plain_json l2 -> 
      join_tail "," (map canonical_text l1) ++ String "]" r1
      = join_tail "," (map canonical_text l2) ++ String "]" r2 ->
      Forall2 reorder l1 l2 /\ r1 = r2.
Proof.
  induction l1 as [|x l1 IH]; intros Hsep Hwf [|y l2] r1 r2 Hwf2 H; simpl in H.
  - inversion H. auto.
  - discriminate H.
  - discriminate H.
  - inversion H as [H']. clear H. rewrite !str_app_assoc in H'.
    inversion Hsep as [|? ? Hx Hsep']; inversion Hwf as [|? ? Wx Hwf'];
      inversion Hwf2 as [|? ? Wy Hwf2']; subst.
    destruct (Hx Wx y _ _ Wy
                (stops_join_tail (map canonical_text l1) "]" r1 eq_refl)
                (stops_join_tail (map canonical_text l2) "]" r2 eq_refl) H')
      as [R Hrest].
    destruct (IH Hsep' Hwf' l2 r1 r2 Hwf2' Hrest) as [F ->].
    split; [constructor; assumption | reflexivity].
Qed.

Lemma join_tail_members :
  forall p q,
    Forall (fun kv => separates (snd kv)) p ->
    Forall (fun kv => plain_json (snd kv)) p ->
    Forall (fun kv => plain_json (snd kv)) q ->
    forall ks1 ks2 r1 r2,
      incl ks1 (Object_keys p) -> incl ks2 (Object_keys q) ->
      join_tail "," (map (member (canon_values p)) ks1) ++ String "}" r1
      = join_tail "," (map (member (canon_values q)) ks2) ++ String "}" r2 ->
      ks1 = ks2 /\
      (forall k, In k ks1 ->
         exists v w, get_prop k p = Some v /\ get_prop k q = Some w /\ reorder v w) /\
      r1 = r2.
Proof.
  intros p q Hsep Hwp Hwq.
  induction ks1 as [|k1 ks1 IH]; intros [|k2 ks2] r1 r2 I1 I2 H;
    cbn [join_tail map append] in H.
  - inversion H. split; [reflexivity|]. split; [|reflexivity]. intros k [].
  - discriminate H.
  - discriminate H.
  - apply string_tail_eq in H. rename H into H'. rewrite !str_app_assoc in H'.
    destruct (member_separates p q k1 k2 _ _ Hsep Hwp Hwq
                (I1 k1 (or_introl eq_refl)) (I2 k2 (or_introl eq_refl))
                (stops_join_tail (map (member (canon_values p)) ks1) "}" r1 eq_refl)
                (stops_join_tail (map (member (canon_values q)) ks2) "}" r2 eq_refl) H')
      as (-> & Hrel & Hrest).
    destruct (IH ks2 r1 r2 (fun k Hk => I1 k (or_intror Hk))
                (fun k Hk => I2 k (or_intror Hk)) Hrest) as (-> & Hall & ->).
    split; [reflexivity|]. split; [|reflexivity].
    intros k [<- | Hk]; [exact Hrel | apply Hall; exact Hk].
Qed.

(** [join] of a non-empty list, with a separator put in front, is the
    tail of a longer [join]. *)
Lemma concat_as_tail :
  forall x items closer r,
    String "," (String.concat "," (x :: items) ++ String closer r)
    = join_tail "," (x :: items) ++ String closer r.
Proof.
  intros x items closer r.
  rewrite concat_join_tail. simpl. rewrite str_app_assoc. reflexivity.
Qed.

Lemma array_items_separate :
  forall l1 l2 r1 r2,
    Forall separates l1 -> Forall plain_json l1 -> Forall plain_json l2 ->
    canonical_text (JArr l1) ++ r1 = canonical_text (JArr l2) ++ r2 ->
    Forall2 reorder l1 l2 /\ r1 = r2.
Proof.
  intros l1 l2 r1 r2 Hsep Hwf Hwf2 H.
  rewrite !canonical_text_arr, !str_app_assoc in H.
  cbn [append] in H. apply string_tail_eq in H.
  destruct l1 as [|x l1], l2 as [|y l2].
  - cbn in H. inversion H. split; [constructor | reflexivity].
  - exfalso. cbn [map] in H. rewrite concat_join_tail, str_app_assoc in H.
    cbn [String.concat append] in H. symmetry in H.
    apply canonical_text_not_closer in H; [apply H; reflexivity|].
    inversion Hwf2; assumption.
  - exfalso. cbn [map] in H. rewrite concat_join_tail, str_app_assoc in H.
    cbn [String.concat append] in H.
    apply canonical_text_not_closer in H; [apply H; reflexivity|].
    inversion Hwf; assumption.
  - apply (f_equal (String ",")) in H.
    change (map canonical_text (x :: l1))
      with (canonical_text x :: map canonical_text l1) in H.
    change (map canonical_text (y :: l2))
      with (canonical_text y :: map canonical_text l2) in H.
    rewrite !concat_as_tail in H.
    change (canonical_text x :: map canonical_text l1)
      with (map canonical_text (x :: l1)) in H.
    change (canonical_text y :: map canonical_text l2)
      with (map canonical_text (y :: l2)) in H.
    exact (join_tail_items (x :: l1) Hsep Hwf (y :: l2) r1 r2 Hwf2 H).
Qed.

Lemma separates_array :
  forall items, Forall separates items -> separates (JArr items).
Proof.
  intros l1 Hsep Hwf w r1 r2 Hwf2 S1 S2 H.
  pose proof (canonical_text_same_kind _ _ _ _ Hwf Hwf2 H) as K.
  destruct w as [| | | |l2|]; simpl in K; try discriminate K.
  apply plain_json_arr in Hwf. apply plain_json_arr in Hwf2.
  destruct (array_items_separate l1 l2 r1 r2 Hsep Hwf Hwf2 H) as [F ->].
  split; [|reflexivity]. apply (reorder_items l1 l2 []). exact F.
Qed.

Lemma separates_object :
  forall props, Forall (fun kv => separates (snd kv)) props -> separates (JObj props).
Proof.
  intros p Hsep Hwf w r1 r2 Hwf2 S1 S2 H.
  pose proof (canonical_text_same_kind _ _ _ _ Hwf Hwf2 H) as K.
  destruct w as [| | | | |q]; simpl in K; try discriminate K.
  apply plain_json_obj in Hwf. apply plain_json_obj in Hwf2.
  destruct Hwf as [Hnp Hwp]. destruct Hwf2 as [Hnq Hwq].
  rewrite !canonical_text_obj, !str_app_assoc in H.
  cbn [append] in H. apply string_tail_eq in H.
  assert (I1 : incl (sort_keys (Object_keys p)) (Object_keys p)).
  { intros k Hk. eapply Permutation_in; [apply Permutation_sym, sort_keys_perm | exact Hk]. }
  assert (I2 : incl (sort_keys (Object_keys q)) (Object_keys q)).
  { intros k Hk. eapply Permutation_in; [apply Permutation_sym, sort_keys_perm | exact Hk]. }
  assert (Hmain :
    sort_keys (Object_keys p) = sort_keys (Object_keys q) /\
    (forall k, In k (sort_keys (Object_keys p)) ->
       exists v w, get_prop k p = Some v /\ get_prop k q = Some w /\ reorder v w) /\
    r1 = r2).
  { destruct (sort_keys (Object_keys p)) as [|k1 ks1], (sort_keys (Object_keys q)) as [|k2 ks2].
    - cbn in H. inversion H. split; [reflexivity|]. split; [|reflexivity]. intros k [].
    - exfalso. cbn [map] in H. rewrite concat_join_tail in H.
      unfold member, stringify_string, dquote in H.
      cbn [String.concat append] in H. discriminate H.
    - exfalso. cbn [map] in H. rewrite concat_join_tail in H.
      unfold member, stringify_string, dquote in H.
      cbn [String.concat append] in H. discriminate H.
    - apply (f_equal (String ",")) in H.
      change (map (member (canon_values p)) (k1 :: ks1))
        with (member (canon_values p) k1 :: map (member (canon_values p)) ks1) in H.
      change (map (member (canon_values q)) (k2 :: ks2))
        with (member (canon_values q) k2 :: map (member (canon_values q)) ks2) in H.
      rewrite !concat_as_tail in H.
      change (member (canon_values p) k1 :: map (member (canon_values p)) ks1)
        with (map (member (canon_values p)) (k1 :: ks1)) in H.
      change (member (canon_values q) k2 :: map (member (canon_values q)) ks2)
        with (map (member (canon_values q)) (k2 :: ks2)) in H.
      exact (join_tail_members p q Hsep Hwp Hwq (k1 :: ks1) (k2 :: ks2) r1 r2 I1 I2 H). }
  destruct Hmain as (Hks & Hrel & ->). split; [|reflexivity].
  apply reorder_objects; try assumption.
  - eapply Permutation_trans; [apply sort_keys_perm|].
    rewrite Hks. apply Permutation_sym, sort_keys_perm.
  - intros k Hk. apply Hrel.
    eapply Permutation_in; [apply sort_keys_perm | exact Hk].
Qed.

(** The canonical string of a value determines the value up to the order
    of the properties of its objects. *)
Lemma canonical_text_separates : forall v, separates v.
Proof.
  induction v as [|b|n|s|items IH|props IH] using JSON_deep_ind.
  - intros Hv w r1 r2 Hw _ _ H.
    pose proof (canonical_text_same_kind _ _ _ _ Hv Hw H) as K.
    destruct w; simpl in K; try discriminate K.
    simpl in H. inversion H. split; [apply reorder_refl | reflexivity].
  - intros Hv w r1 r2 Hw _ _ H.
    pose proof (canonical_text_same_kind _ _ _ _ Hv Hw H) as K.
    destruct w as [|b'| | | |]; simpl in K; try discriminate K.
    destruct b, b'; simpl in H; inversion H; split; try apply reorder_refl; reflexivity.
  - intros Hv w r1 r2 Hw S1 S2 H.
    pose proof (canonical_text_same_kind _ _ _ _ Hv Hw H) as K.
    destruct w as [| |m| | |]; simpl in K; try discriminate K.
    destruct n as [t1|i1]; [|destruct Hv]. destruct m as [t2|i2]; [|destruct Hw].
    cbn [canonical_text] in H.
    destruct (stringify_number_inj t1 t2 r1 r2 Hv Hw S1 S2 H) as [-> ->].
    split; [apply reorder_refl | reflexivity].
  - intros Hv w r1 r2 Hw _ _ H.
    pose proof (canonical_text_same_kind _ _ _ _ Hv Hw H) as K.
    destruct w as [| | |s'| |]; simpl in K; try discriminate K.
    cbn [canonical_text] in H.
    destruct (stringify_string_inj s s' r1 r2 H) as [-> ->].
    split; [apply reorder_refl | reflexivity].
  - apply separates_array. exact IH.
  - apply separates_object. exact IH.
Qed.

Lemma reorder_plain :
  forall v w, reorder v w -> plain_json v -> plain_json w.
Proof.
  intros v w R. induction R as [v|u v w R1 IH1 R2 IH2|p q P|l1 v w l2 R IH|p1 k v w p2 R IH];
    intros Hwf.
  - assumption.
  - auto.
  - apply plain_json_obj in Hwf. destruct Hwf as [Hnd Hall].
    apply plain_json_obj. split.
    + eapply Permutation_NoDup; [|exact Hnd]. apply Permutation_map. exact P.
    + eapply Permutation_Forall; eauto.
  - apply plain_json_arr in Hwf. apply Forall_app in Hwf. destruct Hwf as [H1 H2].
    inversion H2 as [|? ? Hv H2']; subst.
    apply plain_json_arr. apply Forall_app. split; [assumption|].
    constructor; auto.
  - apply plain_json_obj in Hwf. destruct Hwf as [Hnd Hall].
    apply Forall_app in Hall. destruct Hall as [H1 H2].
    inversion H2 as [|? ? Hv H2']; subst.
    apply plain_json_obj. split.
    + unfold Object_keys in *. rewrite map_app in *. exact Hnd.
    + apply Forall_app. split; [assumption|]. constructor; auto.
Qed.

(** Two plain values have the same canonical string iff they differ only
    in the order of the properties of their objects. *)
Lemma canonical_text_plain_iff :
  forall v w,
    plain_json v -> plain_json w ->
    (canonical_text v = canonical_text w <-> reorder v w).
Proof.
  intros v w Hv Hw. split.
  - intros H.
    destruct (canonical_text_separates v Hv w "" "" Hw I I) as [R _].
    + rewrite !str_app_nil_r. exact H.
    + exact R.
  - intros R. apply (reorder_canonical v w R (plain_json_wf v Hv)).
Qed.

(** Two well-formed values have the same canonical string iff, once their
    infinities are read as [null], they differ only in the order of the
    properties of their objects. *)
Lemma canonical_text_eq_iff :
  forall v w,
    wf_json v -> wf_json w ->
    (canonical_text v = canonical_text w <->
     reorder (nonfinite_as_null v) (nonfinite_as_null w)).
Proof.
  intros v w Hv Hw.
  rewrite <- (nonfinite_as_null_text v), <- (nonfinite_as_null_text w).
  apply canonical_text_plain_iff; apply nonfinite_as_null_plain; assumption.
Qed.

(** Arrays with the same canonical string have, position by position,
    items with the same canonical string. *)
Lemma canonical_text_array_items :
  forall l1 l2,
    Forall wf_json l1 -> Forall wf_json l2 ->
    canonical_text (JArr l1) = canonical_text (JArr l2) ->
    Forall2 (fun a b => canonical_text a = canonical_text b) l1 l2.
Proof.
  intros l1 l2 H1 H2 H.
  assert (P1 : Forall plain_json (map nonfinite_as_null l1)).
  { rewrite Forall_forall in *. intros x Hx. apply in_map_iff in Hx.
    destruct Hx as (y & <- & Hy). apply nonfinite_as_null_plain. auto. }
  assert (P2 : Forall plain_json (map nonfinite_as_null l2)).
  { rewrite Forall_forall in *. intros x Hx. apply in_map_iff in Hx.
    destruct Hx as (y & <- & Hy). apply nonfinite_as_null_plain. auto. }
  assert (Hsep : Forall separates (map nonfinite_as_null l1)).
  { apply Forall_forall. intros x _. apply canonical_text_separates. }
  rewrite <- (nonfinite_as_null_text (JArr l1)),
          <- (nonfinite_as_null_text (JArr l2)) in H.
  cbn [nonfinite_as_null] in H.
  destruct (array_items_separate _ _ "" "" Hsep P1 P2) as [F _].
  { rewrite !str_app_nil_r. exact H. }
  clear H Hsep H1 H2 P2.
  revert l2 F. induction l1 as [|a l1 IH]; intros [|b l2] F;
    inversion F; subst; constructor.
  - inversion P1; subst.
    rewrite <- (nonfinite_as_null_text a), <- (nonfinite_as_null_text b).
    apply (reorder_canonical _ _ H2). apply plain_json_wf. assumption.
  - apply IH; [inversion P1; assumption | assumption].
Qed.

(** ** [canonicalStringify] and the depth of its argument *)

Lemma traverse_returns :
  forall A B (f : A -> Outcome B) (g : A -> B) l,
    (forall x, In x l -> f x = Returns (g x)) -> traverse f l = Returns (map g l).
Proof.
  intros A B f g l. induction l as [|x r IH]; intros H; simpl; [reflexivity|].
  rewrite (H x (or_introl eq_refl)), IH; [reflexivity|].
  intros y Hy. apply H. right. exact Hy.
Qed.

Lemma traverse_throws :
  forall A B (f : A -> Outcome B) l x,
    In x l -> f x = Throws -> traverse f l = Throws.
Proof.
  intros A B f l x. induction l as [|y r IH]; intros Hin Hx; simpl; [destruct Hin|].
  destruct Hin as [-> | Hin].
  - rewrite Hx. reflexivity.
  - destruct (f y); [|reflexivity]. rewrite (IH Hin Hx). reflexivity.
Qed.

Lemma traverse_sound :
  forall A B (f : A -> Outcome B) (g : A -> B) l ys,
    (forall x y, In x l -> f x = Returns y -> y = g x) ->
    traverse f l = Returns ys -> ys = map g l.
Proof.
  intros A B f g l. induction l as [|x r IH]; intros ys H E; simpl in *.
  - inversion E. reflexivity.
  - destruct (f x) as [y|] eqn:Ex; [|discriminate E].
    destruct (traverse f r) as [ys'|] eqn:Er; [|discriminate E].
    inversion E; subst. f_equal.
    + apply (H x y); auto.
    + apply IH; [|reflexivity]. intros x' y' Hin. apply H. right. exact Hin.
Qed.

Lemma traverse_ext :
  forall A B (f g : A -> Outcome B) l,
    (forall x, In x l -> f x = g x) -> traverse f l = traverse g l.
Proof.
  intros A B f g l. induction l as [|x r IH]; intros H; simpl; [reflexivity|].
  rewrite (H x (or_introl eq_refl)), IH; [reflexivity|].
  intros y Hy. apply H. right. exact Hy.
Qed.

Lemma traverse_map :
  forall A B C (f : B -> Outcome C) (g : A -> B) l,
    traverse f (map g l) = traverse (fun x => f (g x)) l.
Proof.
  intros A B C f g l. induction l as [|x r IH]; simpl; [reflexivity|].
  rewrite IH. reflexivity.
Qed.

Lemma depth_positive : forall v, (1 <= depth v)%nat.
Proof. intros [| | | | |]; simpl; lia. Qed.

Lemma depth_item :
  forall items x, In x items -> (depth x < depth (JArr items))%nat.
Proof.
  intros items x. cbn [depth]. induction items as [|y r IH]; intros H; [destruct H|].
  destruct H as [-> | H]; [lia|]. specialize (IH H). lia.
Qed.

Lemma depth_value :
  forall props kv, In kv props -> (depth (snd kv) < depth (JObj props))%nat.
Proof.
  intros props kv. cbn [depth]. induction props as [|y r IH]; intros H; [destruct H|].
  destruct H as [-> | H]; [lia|]. specialize (IH H). lia.
Qed.

Lemma deepest_item :
  forall items,
    (1 < depth (JArr items))%nat ->
    exists x, In x items /\ depth (JArr items) = S (depth x).
Proof.
  intros items. cbn [depth]. induction items as [|y r IH]; intros H; [lia|].
  destruct (Nat.max_spec (depth y)
              ((fix deepest (l : list JSON) : nat :=
                  match l with [] => O | x :: r => Nat.max (depth x) (deepest r) end) r))
    as [[Hlt E] | [Hle E]].
  - destruct IH as (x & Hin & Ex); [pose proof (depth_positive y); lia|].
    exists x. split; [right; exact Hin|]. rewrite E. exact Ex.
  - exists y. split; [left; reflexivity|]. rewrite E. reflexivity.
Qed.

Lemma deepest_value :
  forall props,
    (1 < depth (JObj props))%nat ->
    exists kv, In kv props /\ depth (JObj props) = S (depth (snd kv)).
Proof.
  intros props. cbn [depth]. induction props as [|y r IH]; intros H; [lia|].
  destruct (Nat.max_spec (depth (snd y))
              ((fix deepest (l : list (string * JSON)) : nat :=
                  match l with
                  | [] => O
                  | kv :: r => Nat.max (depth (snd kv)) (deepest r)
                  end) r))
    as [[Hlt E] | [Hle E]].
  - destruct IH as (x & Hin & Ex); [pose proof (depth_positive (snd y)); lia|].
    exists x. split; [right; exact Hin|]. rewrite E. exact Ex.
  - exists y. split; [left; reflexivity|]. rewrite E. reflexivity.
Qed.

Lemma sort_keys_in :
  forall ks k, In k (sort_keys ks) <-> In k ks.
Proof.
  intros ks k. split; intros H.
  - eapply Permutation_in; [apply Permutation_sym, sort_keys_perm | exact H].
  - eapply Permutation_in; [apply sort_keys_perm | exact H].
Qed.

(** Within the room of the stack the function returns the canonical
    string. *)
Lemma canonicalStringify_within :
  forall stack v,
    (depth v <= stack)%nat -> canonicalStringify stack v = Returns (canonical_text v).
Proof.
  induction stack as [|room IH]; intros v H.
  - pose proof (depth_positive v). lia.
  - destruct v as [|[]|n|s|items|props]; try reflexivity.
    + cbn [canonicalStringify].
      rewrite (traverse_returns _ _ _ canonical_text); [reflexivity|].
      intros x Hx. apply IH. pose proof (depth_item items x Hx). lia.
    + cbn [canonicalStringify]. cbv zeta.
      rewrite (traverse_returns _ _ _ (member (canon_values props))).
      * rewrite canonical_text_obj. reflexivity.
      * intros k Hk. apply (proj1 (sort_keys_in _ _)) in Hk.
        destruct (get_prop_in _ k props Hk) as (x & E & Hin).
        rewrite E. rewrite IH.
        -- unfold member. rewrite get_prop_canon_values, E. reflexivity.
        -- pose proof (depth_value props (k, x) Hin). simpl in *. lia.
Qed.

(** Whatever it returns is the canonical string. *)
Lemma canonicalStringify_returns :
  forall stack v s,
    canonicalStringify stack v = Returns s -> s = canonical_text v.
Proof.
  induction stack as [|room IH]; intros v s H; [discriminate H|].
  destruct v as [|[]|n|t|items|props]; cbn [canonicalStringify] in H;
    try (inversion H; reflexivity).
  - destruct (traverse (canonicalStringify room) items) as [parts|] eqn:E;
      [|discriminate H].
    inversion H; subst.
    rewrite (traverse_sound _ _ (canonicalStringify room) canonical_text items parts);
      [reflexivity| |exact E].
    intros x y _ Hy. apply IH. exact Hy.
  - cbv zeta in H.
    match type of H with
    | match traverse ?f ?l with _ => _ end = _ =>
        destruct (traverse f l) as [parts|] eqn:E; [|discriminate H];
        apply (traverse_sound _ _ f (member (canon_values props))) in E
    end.
    + inversion H; subst. rewrite canonical_text_obj. reflexivity.
    + intros k y _ Hy. cbv beta in Hy. unfold member. rewrite get_prop_canon_values.
      destruct (get_prop k props) as [x|].
      * destruct (canonicalStringify room x) as [text|] eqn:Ex; [|discriminate Hy].
        inversion Hy; subst. rewrite (IH x text Ex). reflexivity.
      * inversion Hy. reflexivity.
Qed.

(** Beyond the room of the stack it throws. *)
Lemma canonicalStringify_overflow :
  forall stack v,
    wf_json v -> (stack < depth v)%nat -> canonicalStringify stack v = Throws.
Proof.
  induction stack as [|room IH]; intros v Hwf H; [reflexivity|].
  destruct v as [|[]|n|t|items|props]; cbn [canonicalStringify];
    try (simpl in H; lia).
  - destruct (deepest_item items) as (x & Hin & E); [lia|].
    apply wf_json_arr in Hwf. rewrite Forall_forall in Hwf.
    rewrite (traverse_throws _ _ _ items x Hin); [reflexivity|].
    apply IH; [auto | lia].
  - cbv zeta. destruct (deepest_value props) as ([k x] & Hin & E); [lia|].
    apply wf_json_obj in Hwf. destruct Hwf as [Hnd Hall].
    rewrite Forall_forall in Hall.
    rewrite (traverse_throws _ _ _ (sort_keys (Object_keys props)) k); [reflexivity | |].
    + apply sort_keys_in. unfold Object_keys.
      change k with (fst (k, x)). apply in_map. exact Hin.
    + rewrite (get_prop_nodup _ k x props Hnd Hin).
      rewrite IH; [reflexivity | apply (Hall (k, x) Hin) |].
      change (snd (k, x)) with x in E. lia.
Qed.

Lemma canonicalStringify_result :
  forall stack v,
    wf_json v ->
    canonicalStringify stack v =
    if (depth v <=? stack)%nat then Returns (canonical_text v) else Throws.
Proof.
  intros stack v Hwf. destruct (Nat.leb_spec (depth v) stack) as [H|H].
  - apply canonicalStringify_within. exact H.
  - apply canonicalStringify_overflow; assumption.
Qed.

Lemma deepest_app :
  forall l1 v w l2,
    depth v = depth w ->
    depth (JArr (l1 ++ v :: l2)) = depth (JArr (l1 ++ w :: l2)).
Proof.
  intros l1 v w l2 E. cbn [depth]. f_equal.
  induction l1 as [|x l1 IH]; simpl; [rewrite E; reflexivity | rewrite IH; reflexivity].
Qed.

Lemma deepest_value_app :
  forall p1 k v w p2,
    depth v = depth w ->
    depth (JObj (p1 ++ (k, v) :: p2)) = depth (JObj (p1 ++ (k, w) :: p2)).
Proof.
  intros p1 k v w p2 E. cbn [depth]. f_equal.
  induction p1 as [|x p1 IH]; simpl; [rewrite E; reflexivity | rewrite IH; reflexivity].
Qed.

Lemma reorder_depth : forall v w, reorder v w -> depth v = depth w.
Proof.
  intros v w R. induction R as [v|u v w R1 IH1 R2 IH2|p q P|l1 v w l2 R IH|p1 k v w p2 R IH].
  - reflexivity.
  - congruence.
  - cbn [depth]. f_equal.
    induction P as [|x p q P IH|x y p|p q r P1 IH1 P2 IH2]; simpl; try lia.
  - apply deepest_app. exact IH.
  - apply deepest_value_app. exact IH.
Qed.

(** Values that differ only in the order of the properties of their
    objects fare alike on every stack. *)
Lemma canonicalStringify_reorder :
  forall stack v w,
    wf_json v -> reorder v w -> canonicalStringify stack v = canonicalStringify stack w.
Proof.
  intros stack v w Hv R.
  destruct (reorder_canonical v w R Hv) as [Hw E].
  rewrite !canonicalStringify_result by assumption.
  rewrite (reorder_depth v w R), E. reflexivity.
Qed.

(** ** [canonicalStringify] on the heap *)

Section On_the_heap.
Local Open Scope list_scope.

Lemma nth_error_grown :
  forall (h e : Heap) a c, nth_error h a = Some c -> nth_error (h ++ e) a = Some c.
Proof.
  intros h e a c H. rewrite nth_error_app1; [exact H|].
  apply nth_error_Some. congruence.
Qed.

Lemma nth_error_fresh :
  forall (h : Heap) c, nth_error (h ++ [c]) (List.length h) = Some c.
Proof.
  intros h c. rewrite nth_error_app2 by lia. rewrite Nat.sub_diag. reflexivity.
Qed.

Lemma write_fresh :
  forall (h : Heap) c c', write (List.length h) c' (h ++ [c]) = (h ++ [c'])%list.
Proof.
  induction h as [|x h IH]; intros c c'; simpl; [reflexivity|].
  rewrite IH. reflexivity.
Qed.

Lemma strings_map_VStr : forall l, strings (map VStr l) = l.
Proof. induction l as [|x l IH]; simpl; [reflexivity | rewrite IH; reflexivity]. Qed.

(** [Object.keys(value).sort()] adds one cell, the sorted keys. *)
Lemma sorted_keys_cell :
  forall (h : Heap) ks,
    sort_in_place (List.length h) (h ++ [OArr (map VStr ks)])
    = (h ++ [OArr (map VStr (sort_keys ks))])%list /\
    strings_at (List.length h) (h ++ [OArr (map VStr (sort_keys ks))]) = sort_keys ks.
Proof.
  intros h ks. unfold sort_in_place, strings_at.
  rewrite !nth_error_fresh, write_fresh, !strings_map_VStr. split; reflexivity.
Qed.

Lemma map_heap_grows :
  forall A (f : A -> Heap -> Outcome string * Heap),
    (forall x h, exists e, snd (f x h) = (h ++ e)%list) ->
    forall l h, exists e, snd (map_heap f l h) = (h ++ e)%list.
Proof.
  intros A f Hf l. induction l as [|x r IH]; intros h; simpl.
  - exists []. rewrite app_nil_r. reflexivity.
  - destruct (Hf x h) as [e1 E1]. destruct (f x h) as [[y|] h1]; simpl in E1; subst h1.
    + destruct (IH (h ++ e1)%list) as [e2 E2].
      destruct (map_heap f r (h ++ e1)) as [[ys|] h2]; simpl in E2; subst h2;
        exists (e1 ++ e2)%list; simpl; rewrite app_assoc; reflexivity.
    + exists e1. reflexivity.
Qed.

(** The cells that were there before the call are there after it,
    unchanged and at their places, whether it returns or throws. *)
Lemma canonicalStringify_heap_grows :
  forall stack value h,
    exists fresh, snd (canonicalStringify_heap stack value h) = (h ++ fresh)%list.
Proof.
  induction stack as [|room IH]; intros value h.
  - exists []. simpl. rewrite app_nil_r. reflexivity.
  - destruct value as [|[]|n|s|a];
      try (exists []; simpl; rewrite app_nil_r; reflexivity).
    cbn [canonicalStringify_heap].
    destruct (nth_error h a) as [[items|fields]|].
    + match goal with
      | |- context [map_heap ?f ?l h] =>
          assert (Hf : forall x h', exists e, snd (f x h') = h' ++ e);
          [|destruct (map_heap_grows _ f Hf l h) as [e E];
            destruct (map_heap f l h) as [[parts|] h1]; simpl in E; subst h1]
      end.
      * intros i h'. destruct (element a i h'); [apply IH|].
        exists []. simpl. rewrite app_nil_r. reflexivity.
      * eexists. unfold alloc. simpl. rewrite <- app_assoc. reflexivity.
      * exists e. reflexivity.
    + unfold alloc. cbv zeta iota beta.
      destruct (sorted_keys_cell h (Object_keys fields)) as [-> ->].
      match goal with
      | |- context [map_heap ?f ?l ?h0] =>
          assert (Hf : forall x h', exists e, snd (f x h') = h' ++ e);
          [|destruct (map_heap_grows _ f Hf l h0) as [e E];
            destruct (map_heap f l h0) as [[parts|] h1]; simpl in E; subst h1]
      end.
      * intros k h'. destruct (property a k h') as [x|].
        -- destruct (IH x h') as [e E].
           destruct (canonicalStringify_heap room x h') as [[text|] h'']; simpl in *;
             exists e; exact E.
        -- exists []. simpl. rewrite app_nil_r. reflexivity.
      * eexists. simpl. rewrite <- !app_assoc. reflexivity.
      * eexists. simpl. rewrite <- !app_assoc. reflexivity.
    + exists []. simpl. rewrite app_nil_r. reflexivity.
Qed.

Lemma Forall2_weaken :
  forall A B (R R' : A -> B -> Prop) l1 l2,
    Forall2 R l1 l2 ->
    Forall (fun y => forall x, R x y -> R' x y) l2 ->
    Forall2 R' l1 l2.
Proof.
  intros A B R R' l1 l2 F. induction F as [|x y l1 l2 Hxy F IH]; intros H.
  - constructor.
  - inversion H; subst. constructor; auto.
Qed.

(** A document held by the heap is still held when the heap has grown. *)
Lemma represents_grown :
  forall h e v value, represents h value v -> represents (h ++ e) value v.
Proof.
  intros h e. induction v as [|b|n|s|items IH|props IH] using JSON_deep_ind;
    intros value H; inversion H; subst; try constructor.
  - apply represents_arr with (vals := vals); [apply nth_error_grown; assumption|].
    eapply Forall2_weaken; [eassumption|]. exact IH.
  - apply represents_obj with (fields := fields); [apply nth_error_grown; assumption|].
    eapply Forall2_weaken; [eassumption|].
    rewrite Forall_forall in *. intros p Hp f [Hk Hr]. split; [exact Hk|].
    apply (IH p Hp). exact Hr.
Qed.

Lemma map_heap_traverse :
  forall A (f : A -> Heap -> Outcome string * Heap) (g : A -> Outcome string)
         (h0 : Heap) l,
    (forall x e, In x l ->
       fst (f x (h0 ++ e)) = g x /\
       exists e', snd (f x (h0 ++ e)) = ((h0 ++ e) ++ e')%list) ->
    forall e, fst (map_heap f l (h0 ++ e)) = traverse g l.
Proof.
  intros A f g h0 l. induction l as [|x r IH]; intros H e; simpl; [reflexivity|].
  destruct (H x e (or_introl eq_refl)) as [E1 [e1 E2]].
  destruct (f x (h0 ++ e)) as [[y|] h1]; simpl in E1, E2; subst h1; rewrite <- E1;
    [|reflexivity].
  rewrite <- app_assoc.
  assert (Hr : forall x0 e0, In x0 r ->
            fst (f x0 (h0 ++ e0)) = g x0 /\
            exists e', snd (f x0 (h0 ++ e0)) = ((h0 ++ e0) ++ e')%list).
  { intros x0 e0 Hin. apply H. right. exact Hin. }
  specialize (IH Hr (e ++ e1)%list).
  destruct (map_heap f r (h0 ++ e ++ e1)) as [[ys|] h2]; simpl in IH; rewrite <- IH;
    reflexivity.
Qed.

Lemma map_nth_error_seq :
  forall A (l : list A), map (nth_error l) (seq 0 (List.length l)) = map Some l.
Proof.
  intros A l. induction l as [|x l IH]; simpl; [reflexivity|].
  f_equal. rewrite <- seq_shift, map_map. simpl. exact IH.
Qed.

Lemma Forall2_nth_error :
  forall A B (R : A -> B -> Prop) l1 l2 i,
    Forall2 R l1 l2 ->
    match nth_error l1 i, nth_error l2 i with
    | Some x, Some y => R x y
    | None, None => True
    | _, _ => False
    end.
Proof.
  intros A B R l1 l2 i F. revert i.
  induction F as [|x y l1 l2 Hxy F IH]; intros [|i]; simpl; auto.
  apply IH.
Qed.

Lemma Forall2_get_prop :
  forall A B (R : A -> B -> Prop) (fields : list (string * A)) (props : list (string * B)) k,
    Forall2 (fun f p => fst f = fst p /\ R (snd f) (snd p)) fields props ->
    match get_prop k fields, get_prop k props with
    | Some x, Some y => R x y
    | None, None => True
    | _, _ => False
    end.
Proof.
  intros A B R fields props k F.
  induction F as [|[k1 x] [k2 y] l1 l2 [Hk Hxy] F IH]; simpl in *; [exact I|].
  subst k2. destruct (String.eqb k k1); [exact Hxy | exact IH].
Qed.

Lemma Forall2_keys :
  forall A B (R : A -> B -> Prop) (fields : list (string * A)) (props : list (string * B)),
    Forall2 (fun f p => fst f = fst p /\ R (snd f) (snd p)) fields props ->
    Object_keys fields = Object_keys props.
Proof.
  intros A B R fields props F.
  induction F as [|f p l1 l2 [Hk _] F IH]; simpl; [reflexivity|].
  rewrite Hk, IH. reflexivity.
Qed.

Lemma map_heap_traverse_from :
  forall A (f : A -> Heap -> Outcome string * Heap) (g : A -> Outcome string)
         (h0 : Heap) l,
    (forall x e, In x l ->
       fst (f x (h0 ++ e)) = g x /\
       exists e', snd (f x (h0 ++ e)) = ((h0 ++ e) ++ e')%list) ->
    fst (map_heap f l h0) = traverse g l.
Proof.
  intros A f g h0 l H. pose proof (map_heap_traverse A f g h0 l H []) as M.
  rewrite app_nil_r in M. exact M.
Qed.

(** On a heap that holds the document the function on the heap comes
    back with what the function on the document comes back with. *)
Lemma canonicalStringify_heap_agrees :
  forall stack value v h,
    represents h value v ->
    fst (canonicalStringify_heap stack value h) = canonicalStringify stack v.
Proof.
  induction stack as [|room IH]; intros value v h R; [reflexivity|].
  inversion R as [|b|n|s|a vals items Ha F|a fields props Ha F]; subst;
    try reflexivity.
  - destruct b; reflexivity.
  - cbn [canonicalStringify_heap canonicalStringify]. rewrite Ha.
    assert (E : traverse
                  (fun i => match nth_error items i with
                            | Some y => canonicalStringify room y
                            | None => Returns ""
                            end) (seq 0 (List.length vals))
                = traverse (canonicalStringify room) items).
    { rewrite (Forall2_length F).
      rewrite <- (traverse_map _ _ _
                    (fun o => match o with
                              | Some y => canonicalStringify room y
                              | None => Returns ""
                              end) (nth_error items)).
      rewrite map_nth_error_seq, traverse_map. reflexivity. }
    match goal with
    | |- context [map_heap ?f ?l h] =>
        assert (M : fst (map_heap f l h) = traverse (canonicalStringify room) items);
        [|destruct (map_heap f l h) as [[parts|] h1]; cbn [fst] in M;
          rewrite <- M; reflexivity]
    end.
    rewrite <- E. apply map_heap_traverse_from. intros i e _.
    unfold element. rewrite (nth_error_grown h e a _ Ha).
    pose proof (Forall2_nth_error _ _ _ vals items i F) as N.
    destruct (nth_error vals i) as [x|], (nth_error items i) as [y|];
      try contradiction.
    + split; [|apply canonicalStringify_heap_grows].
      apply IH. apply represents_grown. exact N.
    + split; [reflexivity|]. exists []. simpl. rewrite app_nil_r. reflexivity.
  - cbn [canonicalStringify_heap canonicalStringify]. rewrite Ha.
    unfold alloc. cbv zeta iota beta.
    destruct (sorted_keys_cell h (Object_keys fields)) as [-> ->].
    rewrite (Forall2_keys _ _ _ fields props F).
    match goal with
    | |- context [traverse ?g ?l] =>
        match goal with
        | |- context [map_heap ?f l ?h0] =>
            assert (M : fst (map_heap f l h0) = traverse g l);
            [|destruct (map_heap f l h0) as [[parts|] h1]; cbn [fst] in M;
              rewrite <- M; reflexivity]
        end
    end.
    apply (map_heap_traverse _ _ _ h). intros k e _.
    unfold property. rewrite (nth_error_grown h e a _ Ha).
    pose proof (Forall2_get_prop _ _ (represents h) fields props k F) as N.
    destruct (get_prop k fields) as [x|], (get_prop k props) as [y|];
      try contradiction.
    + pose proof (IH x y (h ++ e) (represents_grown h e y x N)) as Ex.
      destruct (canonicalStringify_heap_grows room x (h ++ e)) as [e' E'].
      destruct (canonicalStringify_heap room x (h ++ e)) as [[text|] h''];
        simpl in Ex, E'; rewrite <- Ex; (split; [reflexivity|]);
        exists e'; exact E'.
    + split; [reflexivity|]. exists []. simpl. rewrite app_nil_r. reflexivity.
Qed.

(** After the call the heap still holds the document it held. *)
Lemma canonicalStringify_heap_keeps :
  forall stack value v h,
    represents h value v ->
    represents (snd (canonicalStringify_heap stack value h)) value v.
Proof.
  intros stack value v h R.
  destruct (canonicalStringify_heap_grows stack value h) as [fresh ->].
  apply represents_grown. exact R.
Qed.
End On_the_heap.

(** ** The claim on the canonical form *)

Lemma nest_wf : forall n v, wf_json v -> wf_json (nest n v).
Proof. induction n as [|n IH]; intros v H; simpl; auto. Qed.

Lemma nest_reorder : forall n v w, reorder v w -> reorder (nest n v) (nest n w).
Proof.
  induction n as [|n IH]; intros v w R; simpl; [exact R|].
  apply (reorder_item [] _ _ []). apply IH. exact R.
Qed.

Lemma nest_depth : forall n v, depth (nest n v) = (n + depth v)%nat.
Proof.
  induction n as [|n IH]; intros v; [reflexivity|].
  cbn [nest depth]. rewrite IH. lia.
Qed.

(** Every stack is too small for some value. *)
Lemma canonicalStringify_some_overflow :
  forall stack, canonicalStringify stack (nest stack JNull) = Throws.
Proof.
  intros stack. apply canonicalStringify_overflow.
  - apply nest_wf. exact I.
  - rewrite nest_depth. simpl. lia.
Qed.

Lemma obj_ba_wf : wf_json obj_ba.
Proof.
  simpl. split; [|auto].
  constructor; [intros [H | []]; discriminate H|].
  constructor; [intros []|]. constructor.
Qed.

(** As stated, C9 fails at great depth: the objects with keys b, a and
    a, b, each inside 20000 arrays, differ only in the order of their keys,
    and the function yields no string for either; it throws. *)
Lemma canonicalStringify_deep_counterexample :
  wf_json (nest (20 * 1000) obj_ba) /\
  reorder (nest (20 * 1000) obj_ba) (nest (20 * 1000) obj_ab) /\
  canonicalStringify (STACK_ROOM default_config) (nest (20 * 1000) obj_ba) = Throws /\
  canonicalStringify (STACK_ROOM default_config) (nest (20 * 1000) obj_ab) = Throws.
Proof.
  assert (R : reorder obj_ba obj_ab) by (apply reorder_props; apply perm_swap).
  split; [apply nest_wf; exact obj_ba_wf|].
  split; [apply nest_reorder; exact R|].
  split; apply canonicalStringify_overflow;
    try (rewrite nest_depth; apply Nat.ltb_lt; vm_compute; reflexivity);
    apply nest_wf; [exact obj_ba_wf | apply (reorder_canonical _ _ R obj_ba_wf)].
Qed.

(** An overflowed number prints as [null]: the arrays that [JSON.parse]
    makes of [[1e400]] and [[null]] have one canonical string. *)
Example canonical_overflowed :
  canonicalStringify (STACK_ROOM default_config) arr_overflowed
  = canonicalStringify (STACK_ROOM default_config) arr_null /\
  arr_overflowed <> arr_null /\
  nonfinite_as_null arr_overflowed = arr_null.
Proof. split; [reflexivity|]. split; [discriminate | reflexivity]. Qed.

Lemma canonicalStringify_returns_depth :
  forall stack v s,
    wf_json v -> canonicalStringify stack v = Returns s ->
    (depth v <= stack)%nat /\ s = canonical_text v.
Proof.
  intros stack v s Hv H. split; [|apply (canonicalStringify_returns stack v s H)].
  rewrite (canonicalStringify_result stack v Hv) in H.
  destruct (Nat.leb_spec (depth v) stack); [assumption | discriminate H].
Qed.

Lemma array_items_return :
  forall stack l1 l2 s,
    Forall wf_json l1 -> Forall wf_json l2 ->
    canonicalStringify stack (JArr l1) = Returns s ->
    canonicalStringify stack (JArr l2) = Returns s ->
    Forall2 (fun a b => exists t, canonicalStringify stack a = Returns t /\
                                  canonicalStringify stack b = Returns t) l1 l2.
Proof.
  intros stack l1 l2 s H1 H2 E1 E2.
  destruct (canonicalStringify_returns_depth stack (JArr l1) s) as [D1 T1];
    [apply wf_json_arr; assumption | assumption |].
  destruct (canonicalStringify_returns_depth stack (JArr l2) s) as [D2 T2];
    [apply wf_json_arr; assumption | assumption |].
  assert (F : Forall2 (fun a b => canonical_text a = canonical_text b) l1 l2).
  { apply canonical_text_array_items; try assumption. congruence. }
  assert (R1 : Forall (fun a => canonicalStringify stack a = Returns (canonical_text a)) l1).
  { apply Forall_forall. intros x Hx. apply canonicalStringify_within.
    pose proof (depth_item l1 x Hx). lia. }
  assert (R2 : Forall (fun a => canonicalStringify stack a = Returns (canonical_text a)) l2).
  { apply Forall_forall. intros x Hx. apply canonicalStringify_within.
    pose proof (depth_item l2 x Hx). lia. }
  clear - F R1 R2. induction F as [|a b l1 l2 E F IH]; constructor.
  - inversion R1; subst. inversion R2; subst.
    exists (canonical_text a). split; [assumption | congruence].
  - inversion R1; subst. inversion R2; subst. apply IH; assumption.
Qed.

(** C9, amended: within the room of the call stack, values that differ
    only in the order of the properties of their objects, at whatever
    depth, have the same canonical string; beyond it the function throws
    for both.  It returns exactly when the depth of the value fits the
    stack, and then the string is the canonical one.  Two values with the
    same canonical string differ only in the order of properties once
    every overflowed number is read as [null] (which is how it prints);
    values without such numbers are left as they are by that reading.
    Arrays are compared position by position.  The properties of an object
    are printed in ascending order of their keys.  The two cases of the
    specification hold wherever the stack admits two nested calls.  The
    function does not write to its argument: run on a heap, it leaves
    every cell that existed before the call unchanged, whether it returns
    or throws; it only adds cells, and the heap still holds the document
    it held, on which it gives what the function on documents gives. *)
Theorem canonicalStringify_key_order :
  (forall stack v w,
      wf_json v -> reorder v w ->
      canonicalStringify stack v = canonicalStringify stack w) /\
  (forall stack v,
      wf_json v ->
      canonicalStringify stack v =
      if (depth v <=? stack)%nat then Returns (canonical_text v) else Throws) /\
  (forall stack v w s,
      wf_json v -> wf_json w ->
      canonicalStringify stack v = Returns s ->
      canonicalStringify stack w = Returns s ->
      reorder (nonfinite_as_null v) (nonfinite_as_null w)) /\
  (forall v, plain_json v -> wf_json v /\ nonfinite_as_null v = v) /\
  (forall stack l1 l2 s,
      Forall wf_json l1 -> Forall wf_json l2 ->
      canonicalStringify stack (JArr l1) = Returns s ->
      canonicalStringify stack (JArr l2) = Returns s ->
      Forall2 (fun a b => exists t, canonicalStringify stack a = Returns t /\
                                    canonicalStringify stack b = Returns t) l1 l2) /\
  (forall stack props s,
      canonicalStringify stack (JObj props) = Returns s ->
      exists keys,
        Permutation (Object_keys props) keys /\
        StronglySorted (fun a b => String.leb a b = true) keys /\
        s = "{" ++ String.concat "," (map (member (canon_values props)) keys) ++ "}") /\
  (forall stack,
      (2 <= stack)%nat ->
      exists s,
        canonicalStringify stack obj_ba = Returns s /\
        canonicalStringify stack obj_ab = Returns s) /\
  (forall stack,
      (2 <= stack)%nat ->
      canonicalStringify stack arr_12 <> canonicalStringify stack arr_21) /\
  (forall stack value h,
      exists fresh,
        snd (canonicalStringify_heap stack value h) = (h ++ fresh)%list) /\
  (forall stack value h v,
      represents h value v ->
      fst (canonicalStringify_heap stack value h) = canonicalStringify stack v /\
      represents (snd (canonicalStringify_heap stack value h)) value v).
Proof.
  split; [exact canonicalStringify_reorder|].
  split; [exact canonicalStringify_result|].
  split.
  { intros stack v w s Hv Hw E1 E2.
    apply (canonical_text_eq_iff v w Hv Hw).
    rewrite <- (canonicalStringify_returns stack v s E1).
    apply (canonicalStringify_returns stack w s E2). }
  split.
  { intros v Hv. split; [apply plain_json_wf | apply nonfinite_as_null_id]; exact Hv. }
  split; [exact array_items_return|].
  split.
  { intros stack props s E. exists (sort_keys (Object_keys props)).
    split; [apply sort_keys_perm|]. split; [apply sort_keys_sorted|].
    rewrite (canonicalStringify_returns stack _ s E). apply canonical_text_obj. }
  split.
  { intros stack H. exists (canonical_text obj_ba). split.
    - apply canonicalStringify_within. simpl. lia.
    - rewrite canonicalStringify_within by (simpl; lia). reflexivity. }
  split.
  { intros stack H.
    rewrite !canonicalStringify_within by (simpl; lia). discriminate. }
  split; [exact canonicalStringify_heap_grows|].
  intros stack value h v R.
  split; [apply canonicalStringify_heap_agrees | apply canonicalStringify_heap_keeps];
    exact R.
Qed.

Lemma canonicalStringify_key_order_witness :
  wf_json obj_ba /\ reorder obj_ba obj_ab /\
  canonicalStringify (STACK_ROOM default_config) obj_ba
  = canonicalStringify (STACK_ROOM default_config) obj_ab.
Proof.
  split; [exact obj_ba_wf|].
  split; [apply reorder_props; apply perm_swap|].
  apply (proj1 canonicalStringify_key_order (STACK_ROOM default_config) obj_ba obj_ab).
  - exact obj_ba_wf.
  - apply reorder_props. apply perm_swap.
Defined.

Example canonical_nested :
  canonicalStringify (STACK_ROOM default_config)
    (JArr [JObj [("z", obj_ba); ("k", JArr [JStr "x"; JNull])]]) =
  canonicalStringify (STACK_ROOM default_config)
    (JArr [JObj [("k", JArr [JStr "x"; JNull]); ("z", obj_ab)]]).
Proof. reflexivity. Qed.

(** The function on the heap, run on [heap_ba]: one result, three new
    cells (the sorted keys first), the first cell as it was. *)
Example canonicalStringify_heap_run :
  fst (canonicalStringify_heap (STACK_ROOM default_config) (VRef 0%nat) heap_ba)
  = canonicalStringify (STACK_ROOM default_config) obj_ba /\
  snd (canonicalStringify_heap (STACK_ROOM default_config) (VRef 0%nat) heap_ba)
  = (heap_ba ++ [OArr [VStr "a"; VStr "b"];
                 OArr (map VStr (map (member (canon_values
                                                [("b", JNum (int 1)); ("a", JNum (int 2))]))
                                     ["a"; "b"]))])%list.
Proof. split; vm_compute; reflexivity. Qed.

(** ** The exact-match probe *)

Lemma is_null_false : forall v, is_null v = false <-> v <> JNull.
Proof. intros v. destruct v; simpl; split; congruence. Qed.

Lemma probeJsonExactMatch_green_iff :
  forall cfg url path w s,
    fst (probeJsonExactMatch cfg url path w s) = Returns green <->
    exists expected res live canon,
      file w path = Some expected /\
      expected <> JNull /\
      net w GET url = Resolves res /\
      (200 <= status res /\ status res < 400) /\
      json res = Some live /\
      canonicalStringify (STACK_ROOM cfg) live = Returns canon /\
      canonicalStringify (STACK_ROOM cfg) expected = Returns canon.
Proof.
  intros cfg url path w s. run_probe.
  destruct (file w path) as [expected|] eqn:Hf; simpl.
  2:{ split; [discriminate | intros (e & r & l & c & H & _); discriminate]. }
  destruct (is_null expected) eqn:Hnull; simpl.
  { split; [discriminate|].
    intros (e & r & l & c & H & Hne & _). inversion H; subst.
    apply is_null_false in Hne. congruence. }
  apply is_null_false in Hnull.
  destruct (net w GET url) as [|res] eqn:Hn; simpl.
  { split; [discriminate | intros (e & r & l & c & _ & _ & H & _); discriminate]. }
  destruct (isOkStatus (status res)) eqn:Hok; simpl.
  2:{ split; [discriminate|].
      intros (e & r & l & c & _ & _ & H & Hok' & _). inversion H; subst.
      apply isOkStatus_range in Hok'. congruence. }
  apply isOkStatus_range in Hok.
  destruct (json res) as [live|] eqn:Hj; simpl.
  2:{ split; [discriminate|].
      intros (e & r & l & c & _ & _ & H & _ & Hj' & _). inversion H; subst. congruence. }
  destruct (canonicalStringify (STACK_ROOM cfg) live) as [liveCanon|] eqn:El; simpl.
  2:{ split; [discriminate|].
      intros (e & r & l & c & _ & _ & H & _ & Hj' & Hc & _). inversion H; subst.
      rewrite Hj in Hj'. inversion Hj'; subst. congruence. }
  destruct (canonicalStringify (STACK_ROOM cfg) expected) as [expCanon|] eqn:Ee; simpl.
  2:{ split; [discriminate|].
      intros (e & r & l & c & He & _ & _ & _ & _ & _ & Hc). inversion He; subst.
      congruence. }
  destruct (String.eqb_spec liveCanon expCanon) as [Heq|Hneq]; simpl.
  - split; [|reflexivity]. intros _. subst expCanon.
    exists expected, res, live, liveCanon. auto 10.
  - split; [discriminate|].
    intros (e & r & l & c & He & _ & H & _ & Hj' & Hc1 & Hc2). inversion H; subst.
    inversion He; subst. rewrite Hj in Hj'. inversion Hj'; subst. congruence.
Qed.

Lemma probeJsonExactMatch_not_green :
  forall cfg url path w s,
    fst (probeJsonExactMatch cfg url path w s) <> Returns green ->
    fst (probeJsonExactMatch cfg url path w s) = Returns red.
Proof.
  intros cfg url path w s.
  destruct (probeJsonExactMatch_total cfg url path w s) as ([|] & s' & E);
    rewrite E; simpl; [intros H; contradiction H; reflexivity | reflexivity].
Qed.

(** With both documents loaded and a status in range, green means that
    both fit the stack and differ only in the order of properties once
    overflowed numbers are read as [null]. *)
Lemma probeJsonExactMatch_green_reorder :
  forall cfg url path w s expected res live,
    file w path = Some expected ->
    expected <> JNull ->
    net w GET url = Resolves res ->
    200 <= status res /\ status res < 400 ->
    json res = Some live ->
    wf_json live -> wf_json expected ->
    (fst (probeJsonExactMatch cfg url path w s) = Returns green <->
     (depth live <= STACK_ROOM cfg)%nat /\
     (depth expected <= STACK_ROOM cfg)%nat /\
     reorder (nonfinite_as_null live) (nonfinite_as_null expected)).
Proof.
  intros cfg url path w s expected res live Hf Hne Hn Hok Hj Hwl Hwe.
  rewrite probeJsonExactMatch_green_iff. split.
  - intros (e & r & l & c & He & _ & Hr & _ & Hl & Hc1 & Hc2).
    rewrite Hf in He. inversion He; subst.
    rewrite Hn in Hr. inversion Hr; subst.
    rewrite Hj in Hl. inversion Hl; subst.
    destruct (canonicalStringify_returns_depth _ _ _ Hwl Hc1) as [D1 T1].
    destruct (canonicalStringify_returns_depth _ _ _ Hwe Hc2) as [D2 T2].
    split; [exact D1|]. split; [exact D2|].
    apply (canonical_text_eq_iff l e Hwl Hwe). congruence.
  - intros (D1 & D2 & R).
    exists expected, res, live, (canonical_text live).
    repeat split; try assumption; try tauto.
    + apply canonicalStringify_within. exact D1.
    + rewrite (canonicalStringify_within _ _ D2). f_equal. symmetry.
      apply (canonical_text_eq_iff live expected Hwl Hwe). exact R.
Qed.

(** A reference too deep for the stack gives red. *)
Lemma probeJsonExactMatch_deep_reference :
  forall cfg url path w s expected,
    file w path = Some expected ->
    wf_json expected ->
    (STACK_ROOM cfg < depth expected)%nat ->
    fst (probeJsonExactMatch cfg url path w s) = Returns red.
Proof.
  intros cfg url path w s expected Hf Hwf Hd.
  apply probeJsonExactMatch_not_green. rewrite probeJsonExactMatch_green_iff.
  intros (e & r & l & c & He & _ & _ & _ & _ & _ & Hc).
  rewrite Hf in He. injection He as <-.
  rewrite (canonicalStringify_overflow _ _ Hwf Hd) in Hc. discriminate Hc.
Qed.

Lemma reference_deep_red :
  fst (probeJsonExactMatch default_config profile_url "./apiminecraftservices.json"
         reference_deep empty_store) = Returns red.
Proof.
  apply (probeJsonExactMatch_deep_reference _ _ _ _ _ (nest (20 * 1000) JNull)).
  - reflexivity.
  - apply nest_wf. exact I.
  - rewrite nest_depth. apply Nat.ltb_lt. vm_compute. reflexivity.
Qed.

(** As stated, C7 fails in three ways.  The reference document [null]
    loads, the live body [null] has the same canonical string, the status
    is 200, and the verdict is red, because [readJsonFile] answers [null]
    for a failed load as well.  The body [[1e400]] differs in value from
    the reference [[null]] and the verdict is green, because an overflowed
    number prints as [null].  A body equal to the reference, both nested
    20000 arrays deep, is red, because [canonicalStringify] throws. *)
Lemma probeJsonExactMatch_verdict_counterexample :
  (file reference_null "./apiminecraftservices.json" = Some JNull /\
   net reference_null GET profile_url
     = reply 200 (Some "application/json") (Some JNull) /\
   canonicalStringify (STACK_ROOM default_config) JNull
     = canonicalStringify (STACK_ROOM default_config) JNull /\
   fst (probeJsonExactMatch default_config profile_url "./apiminecraftservices.json"
          reference_null empty_store) = Returns red) /\
  (file reference_overflowed "./apiminecraftservices.json" = Some arr_null /\
   net reference_overflowed GET profile_url
     = reply 200 (Some "application/json") (Some arr_overflowed) /\
   arr_overflowed <> arr_null /\
   fst (probeJsonExactMatch default_config profile_url "./apiminecraftservices.json"
          reference_overflowed empty_store) = Returns green) /\
  (file reference_deep "./apiminecraftservices.json" = Some (nest (20 * 1000) JNull) /\
   net reference_deep GET profile_url
     = reply 200 (Some "application/json") (Some (nest (20 * 1000) JNull)) /\
   fst (probeJsonExactMatch default_config profile_url "./apiminecraftservices.json"
          reference_deep empty_store) = Returns red).
Proof.
  split; [repeat split|]. split.
  - repeat split. discriminate.
  - split; [reflexivity|]. split; [reflexivity | exact reference_deep_red].
Qed.

(** C7, amended: the exact-match probe answers green iff the reference
    file loads to a document other than [null], the [GET] comes back with
    a status of at least 200 and below 400, the body parses, and
    [canonicalStringify] returns one and the same string for body and
    reference.  A reference that is missing, unparsable or [null] gives
    red, as does every failure, a throw of [canonicalStringify] on a
    document too deep for the stack included; the probe never throws.
    With both documents loaded, green means exactly that both fit the
    stack and differ only in the order of properties once every
    overflowed number is read as [null]; for documents without such
    numbers: that they differ only in the order of properties. *)
Theorem probeJsonExactMatch_verdict :
  forall cfg url path w s,
    (fst (probeJsonExactMatch cfg url path w s) = Returns green <->
     exists expected res live canon,
       file w path = Some expected /\
       expected <> JNull /\
       net w GET url = Resolves res /\
       (200 <= status res /\ status res < 400) /\
       json res = Some live /\
       canonicalStringify (STACK_ROOM cfg) live = Returns canon /\
       canonicalStringify (STACK_ROOM cfg) expected = Returns canon) /\
    (fst (probeJsonExactMatch cfg url path w s) <> Returns green ->
     fst (probeJsonExactMatch cfg url path w s) = Returns red) /\
    (file w path = None \/ file w path = Some JNull ->
     fst (probeJsonExactMatch cfg url path w s) = Returns red) /\
    (forall expected res live,
        file w path = Some expected ->
        expected <> JNull ->
        net w GET url = Resolves res ->
        200 <= status res /\ status res < 400 ->
        json res = Some live ->
        wf_json live -> wf_json expected ->
        (fst (probeJsonExactMatch cfg url path w s) = Returns green <->
         (depth live <= STACK_ROOM cfg)%nat /\
         (depth expected <= STACK_ROOM cfg)%nat /\
         reorder (nonfinite_as_null live) (nonfinite_as_null expected))) /\
    (forall expected res live,
        file w path = Some expected ->
        expected <> JNull ->
        net w GET url = Resolves res ->
        200 <= status res /\ status res < 400 ->
        json res = Some live ->
        plain_json live -> plain_json expected ->
        (depth live <= STACK_ROOM cfg)%nat ->
        (depth expected <= STACK_ROOM cfg)%nat ->
        (fst (probeJsonExactMatch cfg url path w s) = Returns green <->
         reorder live expected)).
Proof.
  intros cfg url path w s.
  split; [apply probeJsonExactMatch_green_iff|].
  split; [apply probeJsonExactMatch_not_green|]. split; [|split].
  - intros Hmiss. apply probeJsonExactMatch_not_green.
    rewrite probeJsonExactMatch_green_iff.
    intros (e & r & l & c & He & Hne & _).
    destruct Hmiss as [Hm | Hm]; rewrite Hm in He; [discriminate|].
    inversion He; subst. contradiction.
  - intros expected res live. apply probeJsonExactMatch_green_reorder.
  - intros expected res live Hf Hne Hn Hok Hj Hpl Hpe Dl De.
    rewrite (probeJsonExactMatch_green_reorder cfg url path w s expected res live);
      auto using plain_json_wf.
    rewrite !nonfinite_as_null_id by assumption. tauto.
Qed.

Lemma probeJsonExactMatch_verdict_witness :
  file reference_present "./apiminecraftservices.json" = Some obj_ba /\
  fst (probeJsonExactMatch default_config profile_url "./apiminecraftservices.json"
         reference_present empty_store) = Returns green.
Proof.
  split; [reflexivity|].
  apply (proj2 (proj1 (probeJsonExactMatch_verdict default_config profile_url
                         "./apiminecraftservices.json" reference_present empty_store))).
  exists obj_ba, {| status := 200; content_type := Some "application/json";
                    json := Some obj_ab |}, obj_ab, (canonical_text obj_ab).
  repeat split; try reflexivity; try lia. discriminate.
Defined.

Example exact_match_key_order :
  fst (probeJsonExactMatch default_config "u" "ref"
         (always (reply 200 None (Some (JObj [("a", JNum (int 1)); ("b", JNum (int 2))])))
                 (Some (JObj [("b", JNum (int 2)); ("a", JNum (int 1))])))
         empty_store) = Returns green.
Proof. reflexivity. Qed.

Example exact_match_value_differs :
  fst (probeJsonExactMatch default_config "u" "ref"
         (always (reply 200 None (Some (JObj [("a", JNum (int 1))])))
                 (Some (JObj [("a", JNum (int 2))])))
         empty_store) = Returns red.
Proof. reflexivity. Qed.


(** * Further properties of the code *)

(** ** What a probe leaves in the log *)

Lemma new_events_app :
  forall s evs n,
    new_events s {| log := (log s ++ evs)%list; timers := n |} = evs.
Proof.
  intros s evs n. unfold new_events. simpl.
  rewrite skipn_app, skipn_all, Nat.sub_diag. reflexivity.
Qed.

Ltac split_one :=
  match goal with
  | |- context [match net ?w ?m ?u with _ => _ end] =>
      let r := fresh "res" in destruct (net w m u) as [|r]; simpl
  | |- context [isOkStatus ?c] => destruct (isOkStatus c); simpl
  | |- context [match json ?r with _ => _ end] => destruct (json r); simpl
  | |- context [match file ?w ?p with _ => _ end] => destruct (file w p); simpl
  | |- context [match canonicalStringify ?n ?v with _ => _ end] =>
      destruct (canonicalStringify n v); simpl
  | |- context [is_null ?v] => destruct (is_null v); simpl
  | |- context [truthy ?v] => destruct (truthy v); simpl
  | |- context [if (?a || ?b)%bool then _ else _] => destruct (a || b)%bool; simpl
  end.

Ltac split_paths := repeat split_one.

Ltac close_footprint :=
  unfold footprint; simpl; rewrite <- ?app_assoc; simpl;
  eexists; split; [try reflexivity; symmetry; apply app_nil_r|];
  simpl; rewrite ?Nat.add_0_r, ?Nat.add_1_r;
  repeat split; auto; try lia;
  repeat constructor; simpl; auto; discriminate.

Lemma probeHostBasic_footprint :
  forall cfg host w s,
    footprint ("https://" ++ host ++ "/") true s (snd (probeHostBasic cfg host w s)).
Proof. intros cfg host w s. run_probe. split_paths; close_footprint. Qed.

Lemma probeNameMatch_footprint :
  forall cfg url name w s,
    footprint url false s (snd (probeNameMatch cfg url name w s)).
Proof. intros cfg url name w s. run_probe. split_paths; close_footprint. Qed.

Lemma probeJsonExactMatch_footprint :
  forall cfg url path w s,
    footprint url false s (snd (probeJsonExactMatch cfg url path w s)).
Proof. intros cfg url path w s. run_probe. split_paths; close_footprint. Qed.

Lemma probeJsonAny_footprint :
  forall cfg url w s,
    footprint url false s (snd (probeJsonAny cfg url w s)).
Proof. intros cfg url w s. run_probe. split_paths; close_footprint. Qed.

Lemma probeUrlOk_footprint :
  forall cfg url w s,
    footprint url false s (snd (probeUrlOk cfg url w s)).
Proof. intros cfg url w s. run_probe. split_paths; close_footprint. Qed.

Lemma footprint_new_events :
  forall url basic s s',
    footprint url basic s s' ->
    let evs := new_events s s' in
    log s' = (log s ++ evs)%list /\
    timers_cleared evs = timers_set evs /\
    (List.length (timers_set evs) <= 1)%nat /\
    timers s' = (timers s + List.length (timers_set evs))%nat /\
    Forall (fun f => snd (fst f) = url /\ snd f = timers s /\
                     (fst (fst f) = HEAD -> basic = true))
           (fetches evs) /\
    (List.length (fetches evs) <= (if basic then 2 else 1))%nat.
Proof.
  intros url basic s s' (evs & Hlog & Hc & Hs & Ht & Hf & Hn). simpl.
  assert (E : new_events s s' = evs).
  { unfold new_events. rewrite Hlog, skipn_app, skipn_all, Nat.sub_diag. reflexivity. }
  rewrite E. repeat split; auto.
  destruct Hs as [-> | ->]; simpl; lia.
Qed.

Lemma Server_probeHost_footprint :
  forall cfg name host w s,
    footprint (Server_target cfg name host)
      (match Server.CUSTOM_CHECKS cfg name host with None => true | Some _ => false end)
      s (snd (Server.probeHost cfg name host w s)).
Proof.
  intros cfg name host w s. unfold Server.probeHost, Server_target.
  destruct (Server.CUSTOM_CHECKS cfg name host) as [[url n | url path]|].
  - apply probeNameMatch_footprint.
  - apply probeJsonExactMatch_footprint.
  - apply probeHostBasic_footprint.
Qed.

Lemma Variant_probeHost_footprint :
  forall cfg host w s,
    footprint (Variant_target host)
      (match Variant.CUSTOM_CHECKS host with None => true | Some _ => false end)
      s (snd (Variant.probeHost cfg host w s)).
Proof.
  intros cfg host w s. unfold Variant.probeHost, Variant_target.
  destruct (Variant.CUSTOM_CHECKS host) as [[url | url]|].
  - apply probeJsonAny_footprint.
  - apply probeUrlOk_footprint.
  - apply probeHostBasic_footprint.
Qed.

(** X1: whatever the network and the files do, a probe of either server
    sets at most one abort timer and has cleared every timer it set by the
    time it returns; the count of controllers grows by the timers set. *)
Theorem probeHost_clears_its_timer :
  forall cfg name host w s,
    (let evs := new_events s (snd (Server.probeHost cfg name host w s)) in
     timers_cleared evs = timers_set evs /\
     (List.length (timers_set evs) <= 1)%nat /\
     timers (snd (Server.probeHost cfg name host w s))
     = (timers s + List.length (timers_set evs))%nat) /\
    (let evs := new_events s (snd (Variant.probeHost cfg host w s)) in
     timers_cleared evs = timers_set evs /\
     (List.length (timers_set evs) <= 1)%nat /\
     timers (snd (Variant.probeHost cfg host w s))
     = (timers s + List.length (timers_set evs))%nat).
Proof.
  intros cfg name host w s. split.
  - destruct (footprint_new_events _ _ _ _
                (Server_probeHost_footprint cfg name host w s))
      as (_ & H1 & H2 & H3 & _).
    simpl. auto.
  - destruct (footprint_new_events _ _ _ _
                (Variant_probeHost_footprint cfg host w s))
      as (_ & H1 & H2 & H3 & _).
    simpl. auto.
Qed.

(** X2: every request a probe sends goes to the one URL of its host (the
    URL of the custom check, else the root of the host) and carries the
    abort signal the probe created.  A host with a custom check gets at
    most one request and never a [HEAD]; any other host gets at most two. *)
Theorem probeHost_requests :
  forall cfg name host w s,
    (let evs := new_events s (snd (Server.probeHost cfg name host w s)) in
     Forall (fun f => snd (fst f) = Server_target cfg name host /\ snd f = timers s)
            (fetches evs) /\
     (List.length (fetches evs) <= 2)%nat /\
     (Server.CUSTOM_CHECKS cfg name host <> None ->
      (List.length (fetches evs) <= 1)%nat /\
      Forall (fun f => fst (fst f) = GET) (fetches evs))) /\
    (let evs := new_events s (snd (Variant.probeHost cfg host w s)) in
     Forall (fun f => snd (fst f) = Variant_target host /\ snd f = timers s)
            (fetches evs) /\
     (List.length (fetches evs) <= 2)%nat /\
     (Variant.CUSTOM_CHECKS host <> None ->
      (List.length (fetches evs) <= 1)%nat /\
      Forall (fun f => fst (fst f) = GET) (fetches evs))).
Proof.
  assert (Hget : forall (l : list (Method * string * nat)) P,
             Forall (fun f => P f /\ (fst (fst f) = HEAD -> false = true)) l ->
             Forall (fun f => fst (fst f) = GET) l).
  { intros l P H. eapply Forall_impl; [|exact H]. intros [[m u] t] [_ Hm]. simpl in *.
    destruct m; [discriminate (Hm eq_refl) | reflexivity]. }
  intros cfg name host w s. split.
  - destruct (footprint_new_events _ _ _ _
                (Server_probeHost_footprint cfg name host w s))
      as (_ & _ & _ & _ & Hf & Hn).
    simpl. split; [|split].
    + eapply Forall_impl; [|exact Hf]. intros f (H1 & H2 & _). auto.
    + destruct (Server.CUSTOM_CHECKS cfg name host); simpl in Hn; lia.
    + intros Hc. destruct (Server.CUSTOM_CHECKS cfg name host); [|contradiction].
      split; [exact Hn|].
      apply (Hget _ (fun f => snd (fst f) = Server_target cfg name host /\ snd f = timers s)).
      eapply Forall_impl; [|exact Hf]. intros f (H1 & H2 & H3). auto.
  - destruct (footprint_new_events _ _ _ _
                (Variant_probeHost_footprint cfg host w s))
      as (_ & _ & _ & _ & Hf & Hn).
    simpl. split; [|split].
    + eapply Forall_impl; [|exact Hf]. intros f (H1 & H2 & _). auto.
    + destruct (Variant.CUSTOM_CHECKS host); simpl in Hn; lia.
    + intros Hc. destruct (Variant.CUSTOM_CHECKS host); [|contradiction].
      split; [exact Hn|].
      apply (Hget _ (fun f => snd (fst f) = Variant_target host /\ snd f = timers s)).
      eapply Forall_impl; [|exact Hf]. intros f (H1 & H2 & H3). auto.
Qed.

Lemma probeHost_requests_witness :
  Server.CUSTOM_CHECKS default_config JNull "api.minecraftservices.com" <> None /\
  (List.length
     (fetches (new_events empty_store
                 (snd (Server.probeHost default_config JNull "api.minecraftservices.com"
                         reference_present empty_store)))) <= 1)%nat.
Proof.
  split; [discriminate|].
  apply (proj2 (proj2 (proj1 (probeHost_requests default_config JNull
                                "api.minecraftservices.com" reference_present
                                empty_store)))).
  discriminate.
Defined.

(** ** One host's verdict does not depend on the others *)

Ltac same_paths := run_probe; split_paths; reflexivity.

Lemma probeHostBasic_store :
  forall cfg host w s1 s2,
    fst (probeHostBasic cfg host w s1) = fst (probeHostBasic cfg host w s2).
Proof. intros. same_paths. Qed.

Lemma probeNameMatch_store :
  forall cfg url name w s1 s2,
    fst (probeNameMatch cfg url name w s1) = fst (probeNameMatch cfg url name w s2).
Proof. intros. same_paths. Qed.

Lemma probeJsonExactMatch_store :
  forall cfg url path w s1 s2,
    fst (probeJsonExactMatch cfg url path w s1)
    = fst (probeJsonExactMatch cfg url path w s2).
Proof. intros. same_paths. Qed.

Lemma probeJsonAny_store :
  forall cfg url w s1 s2,
    fst (probeJsonAny cfg url w s1) = fst (probeJsonAny cfg url w s2).
Proof. intros. same_paths. Qed.

Lemma probeUrlOk_store :
  forall cfg url w s1 s2,
    fst (probeUrlOk cfg url w s1) = fst (probeUrlOk cfg url w s2).
Proof. intros. same_paths. Qed.

Lemma Server_probeHost_store :
  forall cfg name host w s1 s2,
    fst (Server.probeHost cfg name host w s1) = fst (Server.probeHost cfg name host w s2).
Proof.
  intros cfg name host w s1 s2. unfold Server.probeHost.
  destruct (Server.CUSTOM_CHECKS cfg name host) as [[url n | url path]|];
    auto using probeNameMatch_store, probeJsonExactMatch_store, probeHostBasic_store.
Qed.

Lemma Variant_probeHost_store :
  forall cfg host w s1 s2,
    fst (Variant.probeHost cfg host w s1) = fst (Variant.probeHost cfg host w s2).
Proof.
  intros cfg host w s1 s2. unfold Variant.probeHost.
  destruct (Variant.CUSTOM_CHECKS host) as [[url | url]|];
    auto using probeJsonAny_store, probeUrlOk_store, probeHostBasic_store.
Qed.

(** Worlds that answer alike at the URL of a host, and hold the same
    files, give the probe of that host the same verdict. *)
Lemma Server_probeHost_local :
  forall cfg name host w w' s,
    (forall p, file w p = file w' p) ->
    (forall m, net w m (Server_target cfg name host)
               = net w' m (Server_target cfg name host)) ->
    fst (Server.probeHost cfg name host w s) = fst (Server.probeHost cfg name host w' s).
Proof.
  intros cfg name host w w' s Hf Hn. unfold Server.probeHost, Server_target in *.
  destruct (Server.CUSTOM_CHECKS cfg name host) as [[url n | url path]|];
    run_probe; simpl in *; repeat (rewrite ?Hf, ?Hn; split_one); reflexivity.
Qed.

Lemma Variant_probeHost_local :
  forall cfg host w w' s,
    (forall m, net w m (Variant_target host) = net w' m (Variant_target host)) ->
    fst (Variant.probeHost cfg host w s) = fst (Variant.probeHost cfg host w' s).
Proof.
  intros cfg host w w' s Hn. unfold Variant.probeHost, Variant_target in *.
  destruct (Variant.CUSTOM_CHECKS host) as [[url | url]|];
    run_probe; simpl in *; repeat (rewrite ?Hn; split_one); reflexivity.
Qed.

Section FanOut.
Variable probeHost : string -> Eff Verdict.
Hypothesis probes_return :
  forall h w s, exists v s', probeHost h w s = (Returns v, s').
Hypothesis probes_ignore_store :
  forall h w s1 s2, fst (probeHost h w s1) = fst (probeHost h w s2).

Lemma verdict_in_run :
  forall h w s, fst (probeHost h w s) = Returns (verdict_in probeHost w h).
Proof.
  intros h w s. unfold verdict_in.
  rewrite (probes_ignore_store h w empty_store s).
  destruct (probes_return h w s) as (v & s' & ->). reflexivity.
Qed.

(** The fan-out returns, host by host, the verdict each probe reaches on
    its own. *)
Lemma probe_all_verdicts :
  forall hosts w s,
    fst (probe_all probeHost hosts w s) = Returns (map (verdict_in probeHost w) hosts).
Proof.
  induction hosts as [|h r IH]; intros w s; simpl; [reflexivity|].
  unfold bind. pose proof (verdict_in_run h w s) as Hv.
  destruct (probeHost h w s) as [o s1]. simpl in Hv. subst o.
  specialize (IH w s1). destruct (probe_all probeHost r w s1) as [o s2].
  simpl in IH. subst o. reflexivity.
Qed.
End FanOut.

(** X3: isolation of hosts in a fan-out.  The fan-out never throws and
    returns one verdict per host, in host order.  Take two worlds with the
    same files: if they answer alike at the URL of a host, that host gets
    the same verdict in both fan-outs, whatever the other hosts meet and
    whatever the logs held before. *)
Theorem fanout_isolation :
  forall cfg name hosts w w' s s',
    (forall p, file w p = file w' p) ->
    exists vs vs',
      fst (probe_all (Server.probeHost cfg name) hosts w s) = Returns vs /\
      fst (probe_all (Server.probeHost cfg name) hosts w' s') = Returns vs' /\
      List.length vs = List.length hosts /\
      List.length vs' = List.length hosts /\
      forall i h,
        nth_error hosts i = Some h ->
        (forall m, net w m (Server_target cfg name h)
                   = net w' m (Server_target cfg name h)) ->
        nth_error vs i = nth_error vs' i.
Proof.
  intros cfg name hosts w w' s s' Hf.
  pose proof (probe_all_verdicts (Server.probeHost cfg name)
                (Server_probeHost_total cfg name)
                (Server_probeHost_store cfg name)) as Hall.
  exists (map (verdict_in (Server.probeHost cfg name) w) hosts),
         (map (verdict_in (Server.probeHost cfg name) w') hosts).
  split; [apply Hall|]. split; [apply Hall|].
  split; [apply length_map|]. split; [apply length_map|].
  intros i h Hh Hn. rewrite !nth_error_map, Hh. simpl. f_equal.
  unfold verdict_in.
  rewrite (Server_probeHost_local cfg name h w w' empty_store Hf Hn). reflexivity.
Qed.

(** X14: isolation of hosts in a fan-out of the second variant, whose
    probes read no file: the fan-out never throws, returns one verdict per
    host in host order, and two worlds that answer alike at the URL of a
    host give that host the same verdict, whatever the other hosts meet. *)
Theorem fanout_isolation_variant :
  forall cfg hosts w w' s s',
    exists vs vs',
      fst (probe_all (Variant.probeHost cfg) hosts w s) = Returns vs /\
      fst (probe_all (Variant.probeHost cfg) hosts w' s') = Returns vs' /\
      List.length vs = List.length hosts /\
      List.length vs' = List.length hosts /\
      forall i h,
        nth_error hosts i = Some h ->
        (forall m, net w m (Variant_target h) = net w' m (Variant_target h)) ->
        nth_error vs i = nth_error vs' i.
Proof.
  intros cfg hosts w w' s s'.
  pose proof (probe_all_verdicts (Variant.probeHost cfg)
                (Variant_probeHost_total cfg)
                (Variant_probeHost_store cfg)) as Hall.
  exists (map (verdict_in (Variant.probeHost cfg) w) hosts),
         (map (verdict_in (Variant.probeHost cfg) w') hosts).
  split; [apply Hall|]. split; [apply Hall|].
  split; [apply length_map|]. split; [apply length_map|].
  intros i h Hh Hn. rewrite !nth_error_map, Hh. simpl. f_equal.
  unfold verdict_in.
  rewrite (Variant_probeHost_local cfg h w w' empty_store Hn). reflexivity.
Qed.

Lemma fanout_isolation_witness :
  exists vs vs',
    fst (probe_all (Server.probeHost default_config JNull) Server.HOSTS all_up empty_store)
      = Returns vs /\
    fst (probe_all (Server.probeHost default_config JNull) Server.HOSTS mojang_down
           empty_store) = Returns vs' /\
    nth_error vs 0 = nth_error vs' 0.
Proof.
  destruct (fanout_isolation default_config JNull Server.HOSTS all_up mojang_down
              empty_store empty_store (fun p => eq_refl))
    as (vs & vs' & H1 & H2 & _ & _ & H).
  exists vs, vs'. split; [exact H1|]. split; [exact H2|].
  apply (H 0%nat "minecraft.net"); [reflexivity|].
  intros m. reflexivity.
Defined.

Lemma fanout_isolation_variant_witness :
  exists vs vs',
    fst (probe_all (Variant.probeHost default_config) Variant.HOSTS all_up empty_store)
      = Returns vs /\
    fst (probe_all (Variant.probeHost default_config) Variant.HOSTS mojang_down
           empty_store) = Returns vs' /\
    nth_error vs 1 = nth_error vs' 1.
Proof.
  destruct (fanout_isolation_variant default_config Variant.HOSTS all_up mojang_down
              empty_store empty_store)
    as (vs & vs' & H1 & H2 & _ & _ & H).
  exists vs, vs'. split; [exact H1|]. split; [exact H2|].
  apply (H 1%nat "sessionserver.mojang.com"); [reflexivity|].
  intros m. reflexivity.
Defined.

(** ** The cache of a server whose probes always answer *)

Lemma map_fst_combine_same_length :
  forall (A B : Type) (l : list A) (l' : list B),
    List.length l' = List.length l -> map fst (combine l l') = l.
Proof.
  induction l as [|a l IH]; intros [|b l'] H; simpl in *; try discriminate;
    [reflexivity|]. f_equal. apply IH. congruence.
Qed.

Section CacheHealth.
Variable ttl : Z.
Variable HOSTS : list string.
Variable probeHost : string -> Eff Verdict.
Hypothesis probes_return :
  forall h w s, exists v s', probeHost h w s = (Returns v, s').

Lemma healthy_initial : healthy HOSTS initial.
Proof. split; [intros d H; discriminate H | left; split; reflexivity]. Qed.

Lemma healthy_getStatusData :
  forall now w s,
    healthy HOSTS s ->
    healthy HOSTS (snd (getStatusData HOSTS probeHost now w s)) /\
    well_shaped HOSTS (fst (getStatusData HOSTS probeHost now w s)).
Proof.
  intros now w s [Hd Hf]. unfold getStatusData.
  destruct (data (cache s)) as [d|] eqn:Ed;
    [destruct (expires (cache s) >? now)|].
  - simpl. split; [split; [rewrite Ed; exact Hd | exact Hf] | apply Hd; reflexivity].
  - destruct (inFlight (cache s)) as [p|] eqn:Ep; simpl.
    + split; [split; [rewrite Ed; exact Hd | rewrite Ep; exact Hf] | exact I].
    + destruct (start_refresh_shape HOSTS probeHost now w s)
        as (results & st & Hp & ->). simpl.
      destruct (probe_all_total probeHost probes_return HOSTS w (store s))
        as (vs & st' & Hvs & Hlen).
      rewrite Hvs in Hp. inversion Hp; subst.
      split; [|exact I]. split; [rewrite Ed; exact Hd|].
      right. destruct Hf as [[_ Hr] | (f & vs' & _ & Hi & _)]; [|congruence].
      rewrite Hr. eexists. exists vs. repeat split; auto.
  - destruct (inFlight (cache s)) as [p|] eqn:Ep; simpl.
    + split; [split; [rewrite Ed; exact Hd | rewrite Ep; exact Hf] | exact I].
    + destruct (start_refresh_shape HOSTS probeHost now w s)
        as (results & st & Hp & ->). simpl.
      destruct (probe_all_total probeHost probes_return HOSTS w (store s))
        as (vs & st' & Hvs & Hlen).
      rewrite Hvs in Hp. inversion Hp; subst.
      split; [|exact I]. split; [rewrite Ed; exact Hd|].
      right. destruct Hf as [[_ Hr] | (f & vs' & _ & Hi & _)]; [|congruence].
      rewrite Hr. eexists. exists vs. repeat split; auto.
Qed.

Lemma healthy_settle :
  forall p s s', healthy HOSTS s -> settle ttl HOSTS p s = Some s' -> healthy HOSTS s'.
Proof.
  intros p s s' [Hd Hf]. unfold settle.
  destruct Hf as [[_ Hr] | (f & vs & Hr & Hi & Hres & Hlen)]; rewrite Hr; simpl.
  - discriminate.
  - destruct (is_flight p f); [|discriminate]. simpl. rewrite Hres.
    intros H. inversion H; subst. split; simpl.
    + intros d Hd'. inversion Hd'; subst. unfold payload_of.
      apply map_fst_combine_same_length. exact Hlen.
    + left. split; reflexivity.
Qed.

Lemma healthy_exec :
  forall sched s s' rs,
    healthy HOSTS s ->
    exec ttl HOSTS probeHost s sched = Some (s', rs) ->
    healthy HOSTS s' /\ Forall (well_shaped HOSTS) rs.
Proof.
  induction sched as [|a rest IH]; intros s s' rs Hs; simpl.
  - intros E. inversion E; subst. split; [exact Hs | constructor].
  - destruct a as [now w | p t]; unfold step.
    + pose proof (healthy_getStatusData now w s Hs) as [H1 H2].
      destruct (getStatusData HOSTS probeHost now w s) as [r s1]. simpl in H1, H2.
      destruct (exec ttl HOSTS probeHost s1 rest) as [[s2 rs2]|] eqn:Er; [|discriminate].
      intros E. inversion E; subst.
      destruct (IH s1 s' rs2 H1 Er) as [H3 H4].
      split; [exact H3 | constructor; assumption].
    + destruct (settle ttl HOSTS p s) as [s1|] eqn:Es; [|discriminate]. simpl.
      destruct (exec ttl HOSTS probeHost s1 rest) as [[s2 rs2]|] eqn:Er; [|discriminate].
      intros E. inversion E; subst.
      apply (IH s1 s' rs); [|exact Er].
      eapply healthy_settle; eauto.
Qed.
End CacheHealth.

(** X4: when no probe can throw, every snapshot the cache stores, and
    every cached array a caller is handed, lists exactly the hosts of
    [HOSTS], in the order of [HOSTS]. *)
Theorem snapshot_lists_hosts_in_order :
  forall ttl HOSTS probeHost,
    (forall h w s, exists v s', probeHost h w s = (Returns v, s')) ->
    forall sched s rs,
      exec ttl HOSTS probeHost initial sched = Some (s, rs) ->
      (forall d, data (cache s) = Some d -> map fst d = HOSTS) /\
      (forall d, In (Cached d) rs -> map fst d = HOSTS).
Proof.
  intros ttl HOSTS probeHost Htot sched s rs E.
  destruct (healthy_exec ttl HOSTS probeHost Htot sched initial s rs
              (healthy_initial HOSTS) E) as [[Hd _] Hrs].
  split; [exact Hd|].
  intros d Hin. rewrite Forall_forall in Hrs. apply (Hrs _ Hin).
Qed.

Lemma snapshot_lists_hosts_in_order_witness :
  exists s rs,
    exec 30000 Variant.HOSTS (Variant.probeHost default_config) initial
      [Call 0 all_up; Done 0 900; Call 1000 all_up] = Some (s, rs) /\
    (forall d, data (cache s) = Some d -> map fst d = Variant.HOSTS) /\
    (forall d, In (Cached d) rs -> map fst d = Variant.HOSTS).
Proof.
  eexists. eexists. split.
  - vm_compute. reflexivity.
  - eapply (snapshot_lists_hosts_in_order 30000 Variant.HOSTS
              (Variant.probeHost default_config)
              (Variant_probeHost_total default_config)
              [Call 0 all_up; Done 0 900; Call 1000 all_up]).
    vm_compute. reflexivity.
Defined.

(** X5: the cache cannot get stuck on a refresh.  When no probe can
    throw, in every reachable state a promise in [cache.inFlight] belongs
    to a refresh that is pending; once that refresh finishes,
    [cache.inFlight] is empty again, the snapshot is stored, and the
    promise delivers that snapshot. *)
Theorem pending_refresh_settles :
  forall ttl HOSTS probeHost,
    (forall h w s, exists v s', probeHost h w s = (Returns v, s')) ->
    forall sched s rs p t,
      exec ttl HOSTS probeHost initial sched = Some (s, rs) ->
      inFlight (cache s) = Some p ->
      exists s' d,
        exec ttl HOSTS probeHost s [Done p t] = Some (s', []) /\
        inFlight (cache s') = None /\
        running s' = [] /\
        data (cache s') = Some d /\
        map fst d = HOSTS /\
        delivered s' (Awaits p) = Some d.
Proof.
  intros ttl HOSTS probeHost Htot sched s rs p t E Hp.
  destruct (healthy_exec ttl HOSTS probeHost Htot sched initial s rs
              (healthy_initial HOSTS) E) as [[_ Hf] _].
  destruct Hf as [[Hn _] | (f & vs & Hr & Hi & Hres & Hlen)]; [congruence|].
  rewrite Hp in Hi. inversion Hi; subst p.
  destruct (settle_fulfils ttl HOSTS probeHost s f vs t Hr Hres)
    as (s' & H1 & H2 & _ & H4 & H5 & H6).
  exists s', (payload_of HOSTS vs). repeat split; auto.
  unfold payload_of. apply map_fst_combine_same_length. exact Hlen.
Qed.

Lemma pending_refresh_settles_witness :
  exists s' d,
    exec 30000 Server.HOSTS (Server.probeHost default_config JNull)
      (snd (getStatusData Server.HOSTS (Server.probeHost default_config JNull)
              0 all_up initial))
      [Done 0 1200] = Some (s', []) /\
    inFlight (cache s') = None /\
    running s' = [] /\
    data (cache s') = Some d /\
    map fst d = Server.HOSTS /\
    delivered s' (Awaits 0) = Some d.
Proof.
  apply (pending_refresh_settles 30000 Server.HOSTS
           (Server.probeHost default_config JNull)
           (Server_probeHost_total default_config JNull)
           [Call 0 all_up] _ [Awaits 0] 0%nat 1200).
  - vm_compute. reflexivity.
  - vm_compute. reflexivity.
Defined.

(** X6: a call is answered with the cached array exactly when an array is
    stored and the clock reads strictly less than [expires]: at
    [now = expires] and later, and while nothing is stored, the caller
    always gets a promise, never the old array. *)
Theorem getStatusData_hit_iff :
  forall HOSTS probeHost now w s d,
    fst (getStatusData HOSTS probeHost now w s) = Cached d <->
    data (cache s) = Some d /\ now < expires (cache s).
Proof.
  intros HOSTS probeHost now w s d. unfold getStatusData.
  assert (Hmiss : forall X : Prop,
             fst (match inFlight (cache s) with
                  | Some p => (Awaits p, s)
                  | None => start_refresh HOSTS probeHost now w s
                  end) = Cached d -> X).
  { intros X. destruct (inFlight (cache s)); simpl; [discriminate|].
    destruct (start_refresh_shape HOSTS probeHost now w s) as (r & st & _ & ->).
    discriminate. }
  destruct (data (cache s)) as [d'|] eqn:Ed.
  - destruct (Z.gtb_spec (expires (cache s)) now) as [Hlt | Hge]; simpl.
    + split.
      * intros H. inversion H; subst. split; [reflexivity | lia].
      * intros [H _]. inversion H; subst. reflexivity.
    + split; [apply Hmiss | intros [_ H]; lia].
  - split; [apply Hmiss | intros [H _]; discriminate H].
Qed.

(** ** Loading the reference files *)

Lemma readJsonFile_run :
  forall path w s,
    readJsonFile path w s =
    match file w path with
    | Some doc =>
        (Returns doc, {| log := log s ++ [EvReadFile path]; timers := timers s |})
    | None =>
        (Returns JNull,
         {| log := log s ++ [EvReadFile path; EvWarn path]; timers := timers s |})
    end.
Proof.
  intros path w s. run_probe. destruct (file w path); simpl; [reflexivity|].
  rewrite <- app_assoc. reflexivity.
Qed.

(** X7: [readJsonFile] never throws.  It answers [null] both when the
    file cannot be read or parsed and when the file holds the document
    [null], so its caller cannot tell the two apart; it warns, once, in
    the first case only, and it creates no timer. *)
Theorem readJsonFile_null_is_ambiguous :
  forall path w s,
    (exists doc, fst (readJsonFile path w s) = Returns doc) /\
    (fst (readJsonFile path w s) = Returns JNull <->
     file w path = None \/ file w path = Some JNull) /\
    (filter is_warn (new_events s (snd (readJsonFile path w s))) = [EvWarn path] <->
     file w path = None) /\
    (file w path <> None ->
     filter is_warn (new_events s (snd (readJsonFile path w s))) = []) /\
    timers (snd (readJsonFile path w s)) = timers s.
Proof.
  intros path w s. rewrite readJsonFile_run.
  destruct (file w path) as [doc|]; simpl; rewrite new_events_app; simpl.
  - split; [eauto|]. split.
    + split.
      * intros H. inversion H; subst. right. reflexivity.
      * intros [H | H]; [discriminate H | inversion H; reflexivity].
    + split; [split; discriminate|]. split; reflexivity.
  - split; [eauto|]. split.
    + split; [intros _; left; reflexivity | reflexivity].
    + split; [split; reflexivity|]. split; [intros H; contradiction H|]; reflexivity.
Qed.

Lemma readJsonFile_null_is_ambiguous_witness :
  file reference_null "./apiminecraftservices.json" <> None /\
  filter is_warn
    (new_events empty_store
       (snd (readJsonFile "./apiminecraftservices.json" reference_null empty_store))) = [].
Proof.
  split; [discriminate|].
  apply (proj1 (proj2 (proj2 (proj2
           (readJsonFile_null_is_ambiguous "./apiminecraftservices.json"
              reference_null empty_store))))).
  discriminate.
Defined.

Lemma or_null_cases :
  forall x, or_null x = JNull \/ truthy (or_null x) = true.
Proof.
  intros [v|]; simpl; [|auto].
  destruct (truthy v) eqn:E; [right; exact E | left; reflexivity].
Qed.

(** X8: loading the expected session name never throws and yields either
    [null] or a truthy value.  It yields [null] exactly when the file
    cannot be read or parsed, or the document has no [name] property of
    its own, or that property is falsy (the empty string, 0, [false],
    [null]); a non-empty string name is loaded as it is.  A warning is
    logged only when the file cannot be read or parsed. *)
Theorem load_EXPECTED_SESSION_NAME_result :
  forall cfg w s,
    exists name,
      fst (load_EXPECTED_SESSION_NAME cfg w s) = Returns name /\
      (name = JNull \/ truthy name = true) /\
      (name = JNull <->
       file w (EXPECTED_SESSION_JSON_PATH cfg) = None \/
       exists doc,
         file w (EXPECTED_SESSION_JSON_PATH cfg) = Some doc /\
         (name_of doc = None \/
          exists v, name_of doc = Some v /\ truthy v = false)) /\
      (forall props n,
          file w (EXPECTED_SESSION_JSON_PATH cfg) = Some (JObj props) ->
          get_prop "name" props = Some (JStr n) ->
          n <> "" ->
          name = JStr n) /\
      (filter is_warn (new_events s (snd (load_EXPECTED_SESSION_NAME cfg w s))) <> [] <->
       file w (EXPECTED_SESSION_JSON_PATH cfg) = None).
Proof.
  intros cfg w s. run_probe.
  destruct (file w (EXPECTED_SESSION_JSON_PATH cfg)) as [doc|] eqn:Ef; simpl.
  - exists (or_null (name_of doc)). split; [reflexivity|].
    split; [apply or_null_cases|]. split; [|split].
    + split.
      * intros H. right. exists doc. split; [reflexivity|].
        destruct (name_of doc) as [v|]; [|left; reflexivity].
        right. exists v. split; [reflexivity|]. simpl in H.
        destruct (truthy v) eqn:Et; [|reflexivity].
        subst v. discriminate Et.
      * intros [H | (doc' & H & Hn)]; [discriminate H|].
        inversion H; subst doc'.
        destruct Hn as [-> | (v & -> & Hv)]; simpl; [reflexivity|].
        rewrite Hv. reflexivity.
    + intros props n H Hg Hne. inversion H; subst doc. simpl. rewrite Hg. simpl.
      destruct (String.eqb_spec n ""); [contradiction | reflexivity].
    + unfold new_events. simpl. rewrite skipn_app, skipn_all, Nat.sub_diag. simpl.
      split; [intros H; contradiction H; reflexivity | discriminate].
  - exists JNull. split; [reflexivity|]. split; [left; reflexivity|].
    split; [|split].
    + split; [intros _; left; reflexivity | reflexivity].
    + intros props n H. discriminate H.
    + unfold new_events. simpl. rewrite <- app_assoc.
      rewrite skipn_app, skipn_all, Nat.sub_diag. simpl.
      split; [reflexivity | discriminate].
Qed.

Lemma load_EXPECTED_SESSION_NAME_result_witness :
  exists name,
    fst (load_EXPECTED_SESSION_NAME default_config
           (always Rejects (Some jeb)) empty_store) = Returns name /\
    name = JStr "jeb_".
Proof.
  destruct (load_EXPECTED_SESSION_NAME_result default_config
              (always Rejects (Some jeb)) empty_store)
    as (name & H1 & _ & _ & H4 & _).
  exists name. split; [exact H1|].
  apply (H4 [("id", JStr "853c80ef3c3749fdaa49938b674adae6"); ("name", JStr "jeb_")]
            "jeb_").
  - reflexivity.
  - reflexivity.
  - discriminate.
Defined.

Lemma in_combine_map :
  forall (A B : Type) (f : A -> B) (l : list A) (a : A),
    In a l -> In (a, f a) (combine l (map f l)).
Proof.
  intros A B f l a. induction l as [|x l IH]; simpl; [contradiction|].
  intros [-> | H]; [left; reflexivity | right; apply IH; exact H].
Qed.

(** X9: when the session file cannot be read or parsed at start-up, the
    entry of [sessionserver.mojang.com] is served red from then on: its
    probe answers red without creating a timer or sending a request, and
    every snapshot a refresh produces lists that host as red, whatever the
    network does. *)
Theorem session_host_red_after_failed_load :
  forall cfg w0 s0 name,
    file w0 (EXPECTED_SESSION_JSON_PATH cfg) = None ->
    fst (load_EXPECTED_SESSION_NAME cfg w0 s0) = Returns name ->
    forall w s,
      Server.probeHost cfg name "sessionserver.mojang.com" w s = (Returns red, s) /\
      exists vs,
        fst (probe_all (Server.probeHost cfg name) Server.HOSTS w s) = Returns vs /\
        In ("sessionserver.mojang.com", red) (payload_of Server.HOSTS vs).
Proof.
  intros cfg w0 s0 name Hf Hload w s.
  rewrite (load_EXPECTED_SESSION_NAME_failure cfg w0 s0 Hf) in Hload.
  inversion Hload; subst name. split; [reflexivity|].
  exists (map (verdict_in (Server.probeHost cfg JNull) w) Server.HOSTS).
  split.
  - apply (probe_all_verdicts (Server.probeHost cfg JNull)
             (Server_probeHost_total cfg JNull) (Server_probeHost_store cfg JNull)).
  - unfold payload_of.
    change red with (verdict_in (Server.probeHost cfg JNull) w "sessionserver.mojang.com").
    apply in_combine_map. simpl. auto 10.
Qed.

Lemma session_host_red_after_failed_load_witness :
  Server.probeHost default_config JNull "sessionserver.mojang.com" all_up empty_store
  = (Returns red, empty_store) /\
  exists vs,
    fst (probe_all (Server.probeHost default_config JNull) Server.HOSTS all_up empty_store)
      = Returns vs /\
    In ("sessionserver.mojang.com", red) (payload_of Server.HOSTS vs).
Proof.
  apply (session_host_red_after_failed_load default_config offline empty_store JNull).
  - reflexivity.
  - reflexivity.
Defined.

(** ** The URL-ok probe *)

(** X10: the URL-ok probe of the second variant sends exactly one [GET] to
    its URL under a fresh abort signal, answers green iff that request
    comes back with a status of at least 200 and below 400, and red
    otherwise (a rejected request included), never reads the body, never
    throws, and always clears its timer. *)
Theorem probeUrlOk_one_get :
  forall cfg url w s,
    snd (probeUrlOk cfg url w s) =
      {| log := log s ++ [EvSetTimeout (timers s) (PROBE_TIMEOUT_MS cfg);
                          EvFetch GET url (timers s);
                          EvClearTimeout (timers s)];
         timers := S (timers s) |} /\
    (fst (probeUrlOk cfg url w s) = Returns green <->
     exists res,
       net w GET url = Resolves res /\ 200 <= status res /\ status res < 400) /\
    (fst (probeUrlOk cfg url w s) <> Returns green ->
     fst (probeUrlOk cfg url w s) = Returns red).
Proof.
  intros cfg url w s. split; [|split].
  - run_probe. destruct (net w GET url) as [|res]; simpl;
      repeat rewrite <- app_assoc; reflexivity.
  - rewrite probeUrlOk_verdict, <- ok_reply_range.
    destruct (ok_reply (net w GET url)); simpl; split; congruence.
  - rewrite probeUrlOk_verdict.
    destruct (ok_reply (net w GET url)); simpl; [intros H; contradiction H|];
      reflexivity.
Qed.

Lemma probeUrlOk_one_get_witness :
  fst (probeUrlOk default_config "u" offline empty_store) <> Returns green /\
  fst (probeUrlOk default_config "u" offline empty_store) = Returns red.
Proof.
  split; [discriminate|].
  apply (proj2 (proj2 (probeUrlOk_one_get default_config "u" offline empty_store))).
  discriminate.
Defined.

Example url_ok_399_and_400 :
  fst (probeUrlOk default_config "u" (always (reply 399 None None) None) empty_store)
  = Returns green /\
  fst (probeUrlOk default_config "u" (always (reply 400 None None) None) empty_store)
  = Returns red /\
  fst (probeUrlOk default_config "u" (always (reply 199 None None) None) empty_store)
  = Returns red.
Proof. repeat split. Qed.

(** ** The request listener *)

Example body_of_two_hosts :
  stringify_data 2 [("a.net", green); ("b.net", red)] =
  "[" ++ String newline ("  {" ++ String newline ("    " ++ stringify_string "a.net" ++ ": "
      ++ stringify_string "green" ++ String newline ("  }," ++ String newline ("  {"
      ++ String newline ("    " ++ stringify_string "b.net" ++ ": "
      ++ stringify_string "red" ++ String newline ("  }" ++ String newline "]")))))).
Proof. reflexivity. Qed.

Lemma prefix_iff :
  forall p s, String.prefix p s = true <-> exists rest, s = p ++ rest.
Proof.
  induction p as [|c p IH]; intros s; simpl.
  - split; [intros _; exists s; reflexivity | intros _; destruct s; reflexivity].
  - destruct s as [|d s]; simpl.
    + split; [discriminate | intros [rest H]; discriminate H].
    + destruct (Ascii.ascii_dec c d) as [->|Hne].
      * rewrite IH. split; intros [rest H]; exists rest; [rewrite H; reflexivity|].
        inversion H. reflexivity.
      * split; [discriminate|]. intros [rest H]. inversion H. congruence.
Qed.

(** X11: the listener asks for the status only when the method is exactly
    [GET] and the URL starts with [/status] (whatever follows).  Every
    other request, a missing URL included, is answered at once with the
    200 help text and leaves the cache and the network alone.  A status
    request does what [getStatusData] does: a cached array is answered at
    once as JSON, a promise suspends the listener. *)
Theorem requestListener_routing :
  forall space failure HOSTS probeHost req now w s,
    (is_status_request req = true <->
     req_method req = "GET" /\ exists rest, req_url req = Some ("/status" ++ rest)) /\
    (is_status_request req = false ->
     requestListener space failure HOSTS probeHost req now w s
     = (Responds help_response, s)) /\
    (is_status_request req = true ->
     snd (requestListener space failure HOSTS probeHost req now w s)
     = snd (getStatusData HOSTS probeHost now w s) /\
     fst (requestListener space failure HOSTS probeHost req now w s)
     = match fst (getStatusData HOSTS probeHost now w s) with
       | Cached data => Responds (respond space failure (Returns data))
       | Awaits p => Suspends p
       end).
Proof.
  intros space failure HOSTS probeHost req now w s. split; [|split].
  - unfold is_status_request. rewrite andb_true_iff, String.eqb_eq.
    destruct (req_url req) as [u|].
    + rewrite prefix_iff. split.
      * intros [Hm [rest ->]]. split; [exact Hm | exists rest; reflexivity].
      * intros [Hm [rest H]]. inversion H. split; [exact Hm | exists rest; reflexivity].
    + split; [intros [_ H]; discriminate H | intros [_ [rest H]]; discriminate H].
  - intros H. unfold requestListener. rewrite H. reflexivity.
  - intros H. unfold requestListener. rewrite H.
    destruct (getStatusData HOSTS probeHost now w s) as [[d|p] s']; split; reflexivity.
Qed.

Lemma requestListener_routing_witness :
  is_status_request {| req_method := "POST"; req_url := Some "/status" |} = false /\
  Server_requestListener default_config JNull
    {| req_method := "POST"; req_url := Some "/status" |} 0 all_up initial
  = (Responds help_response, initial).
Proof.
  split; [reflexivity|].
  apply (proj1 (proj2 (requestListener_routing 4 Server_failure Server.HOSTS
                         (Server.probeHost default_config JNull)
                         {| req_method := "POST"; req_url := Some "/status" |}
                         0 all_up initial))).
  reflexivity.
Defined.

Lemma getStatusData_awaits :
  forall HOSTS probeHost now w s p,
    fst (getStatusData HOSTS probeHost now w s) = Awaits p ->
    inFlight (cache (snd (getStatusData HOSTS probeHost now w s))) = Some p.
Proof.
  intros HOSTS probeHost now w s p. unfold getStatusData.
  assert (Hmiss :
    fst (match inFlight (cache s) with
         | Some p => (Awaits p, s)
         | None => start_refresh HOSTS probeHost now w s
         end) = Awaits p ->
    inFlight (cache (snd (match inFlight (cache s) with
                          | Some p => (Awaits p, s)
                          | None => start_refresh HOSTS probeHost now w s
                          end))) = Some p).
  { destruct (inFlight (cache s)) as [q|] eqn:Eq; simpl.
    - intros H. inversion H; subst. exact Eq.
    - destruct (start_refresh_shape HOSTS probeHost now w s) as (r & st & _ & ->).
      simpl. intros H. inversion H. reflexivity. }
  destruct (data (cache s)); [destruct (expires (cache s) >? now)|]; auto.
  simpl. discriminate.
Qed.

(** X12: when no probe can throw, the listener never answers 500.  In
    every reachable state, a request is either answered at once with
    status 200 and the CORS header, or suspended on the promise of the one
    pending refresh, whose results make the answer a 200 whose body is the
    printed snapshot of all hosts in order. *)
Theorem requestListener_never_fails :
  forall space failure ttl HOSTS probeHost,
    (forall h w s, exists v s', probeHost h w s = (Returns v, s')) ->
    forall sched s rs req now w,
      exec ttl HOSTS probeHost initial sched = Some (s, rs) ->
      match requestListener space failure HOSTS probeHost req now w s with
      | (Responds r, _) => statusCode r = 200 /\ In cors_header (headers r)
      | (Suspends p, s') =>
          exists f d,
            running s' = [f] /\
            flight_promise f = p /\
            settled_with HOSTS f = Returns d /\
            map fst d = HOSTS /\
            respond space failure (settled_with HOSTS f) =
              {| statusCode := 200;
                 headers := [cors_header; json_content];
                 body := stringify_data space d |}
      end.
Proof.
  intros space failure ttl HOSTS probeHost Htot sched s rs req now w E.
  destruct (healthy_exec ttl HOSTS probeHost Htot sched initial s rs
              (healthy_initial HOSTS) E) as [Hs _].
  unfold requestListener.
  destruct (is_status_request req); [|simpl; split; [reflexivity | left; reflexivity]].
  pose proof (healthy_getStatusData HOSTS probeHost Htot now w s Hs) as [[_ Hf] _].
  pose proof (getStatusData_awaits HOSTS probeHost now w s) as Hp.
  destruct (getStatusData HOSTS probeHost now w s) as [[d|p] s']; simpl in *.
  - split; [reflexivity | left; reflexivity].
  - specialize (Hp p eq_refl).
    destruct Hf as [[Hn _] | (f & vs & Hr & Hi & Hres & Hlen)]; [congruence|].
    exists f, (payload_of HOSTS vs).
    split; [exact Hr|]. split; [congruence|].
    unfold settled_with. rewrite Hres.
    split; [reflexivity|]. split; [|reflexivity].
    unfold payload_of. apply map_fst_combine_same_length. exact Hlen.
Qed.

Lemma requestListener_never_fails_witness :
  match Server_requestListener default_config JNull get_status 0 all_up initial with
  | (Responds r, _) => statusCode r = 200 /\ In cors_header (headers r)
  | (Suspends p, s') =>
      exists f d,
        running s' = [f] /\
        flight_promise f = p /\
        settled_with Server.HOSTS f = Returns d /\
        map fst d = Server.HOSTS /\
        respond 4 Server_failure (settled_with Server.HOSTS f) =
          {| statusCode := 200;
             headers := [cors_header; json_content];
             body := stringify_data 4 d |}
  end.
Proof.
  apply (requestListener_never_fails 4 Server_failure 30000 Server.HOSTS
           (Server.probeHost default_config JNull)
           (Server_probeHost_total default_config JNull)
           [] initial [] get_status 0 all_up).
  reflexivity.
Defined.

(** ** The printed snapshot can be read back *)

Lemma str_app_inv_head :
  forall a x y : string, a ++ x = a ++ y -> x = y.
Proof.
  induction a as [|c a IH]; intros x y H; simpl in H; [exact H|].
  apply IH. inversion H. reflexivity.
Qed.

Lemma verdict_name_inj : forall v1 v2, verdict_name v1 = verdict_name v2 -> v1 = v2.
Proof. intros [] []; simpl; intros H; try reflexivity; discriminate H. Qed.

Lemma stringify_entry_inj :
  forall space e1 e2 r1 r2,
    stringify_entry space e1 ++ r1 = stringify_entry space e2 ++ r2 ->
    e1 = e2 /\ r1 = r2.
Proof.
  intros space [h1 v1] [h2 v2] r1 r2 H. unfold stringify_entry in H. cbv zeta in H.
  destruct space as [|n]; cbn [fst snd] in H.
  - rewrite !str_app_assoc in H. cbn [append] in H.
    apply string_tail_eq in H.
    apply stringify_string_inj in H. destruct H as [-> H].
    apply string_tail_eq in H.
    apply stringify_string_inj in H. destruct H as [Hv H].
    apply verdict_name_inj in Hv. subst v2.
    apply string_tail_eq in H. subst. auto.
  - set (gap := spaces (Nat.min (S n) 10)) in H.
    rewrite !str_app_assoc in H. cbn [append] in H.
    rewrite !str_app_assoc in H.
    do 2 apply string_tail_eq in H.
    do 2 apply str_app_inv_head in H.
    apply stringify_string_inj in H. destruct H as [-> H].
    do 2 apply string_tail_eq in H.
    apply stringify_string_inj in H. destruct H as [Hv H].
    apply verdict_name_inj in Hv. subst v2.
    apply string_tail_eq in H. apply str_app_inv_head in H.
    apply string_tail_eq in H. subst. auto.
Qed.

Lemma join_tail_entries_inj :
  forall space gap c closer d1 d2,
    join_tail (String "," gap) (map (stringify_entry space) d1) ++ String c closer
    = join_tail (String "," gap) (map (stringify_entry space) d2) ++ String c closer ->
    c <> ","%char ->
    d1 = d2.
Proof.
  intros space gap c closer. induction d1 as [|e1 d1 IH]; intros [|e2 d2] H Hc;
    cbn [map join_tail append] in H.
  - reflexivity.
  - exfalso. inversion H. congruence.
  - exfalso. inversion H. congruence.
  - apply string_tail_eq in H. rewrite !str_app_assoc in H.
    apply str_app_inv_head in H.
    apply stringify_entry_inj in H. destruct H as [-> H].
    f_equal. apply IH; assumption.
Qed.

(** X13: the body sent for a snapshot determines the snapshot: two arrays
    of host verdicts printed with the same indentation are equal as
    strings only if they list the same hosts with the same verdicts in the
    same order, whatever characters the host names contain. *)
Theorem stringify_data_inj :
  forall space d1 d2,
    stringify_data space d1 = stringify_data space d2 -> d1 = d2.
Proof.
  intros space d1 d2 H. unfold stringify_data in H. cbv zeta in H.
  destruct d1 as [|e1 d1], d2 as [|e2 d2]; [reflexivity | | |].
  - exfalso. destruct space as [|n]; cbn [map] in H;
      rewrite concat_join_tail in H; unfold stringify_entry in H;
      cbv zeta in H; rewrite ?str_app_assoc in H; cbn [append] in H;
      discriminate H.
  - exfalso. destruct space as [|n]; cbn [map] in H;
      rewrite concat_join_tail in H; unfold stringify_entry in H;
      cbv zeta in H; rewrite ?str_app_assoc in H; cbn [append] in H;
      discriminate H.
  - destruct space as [|n]; cbn [map] in H; rewrite !concat_join_tail in H.
    + rewrite !str_app_assoc in H. cbn [append] in H.
      apply string_tail_eq in H.
      apply stringify_entry_inj in H. destruct H as [-> H].
      f_equal. apply (join_tail_entries_inj 0 "" "]" ""); [exact H | discriminate].
    + set (gap := spaces (Nat.min (S n) 10)) in H.
      rewrite !str_app_assoc in H. cbn [append] in H.
      rewrite ?str_app_assoc in H.
      do 2 apply string_tail_eq in H. apply str_app_inv_head in H.
      apply stringify_entry_inj in H. destruct H as [-> H].
      f_equal.
      apply (join_tail_entries_inj (S n) (String newline gap) newline "]");
        [exact H | discriminate].
Qed.

Lemma stringify_data_inj_witness :
  stringify_data 4 [("minecraft.net", green)] = stringify_data 4 [("minecraft.net", green)] /\
  [("minecraft.net", green)] = [("minecraft.net", green)].
Proof.
  split; [reflexivity|].
  apply (stringify_data_inj 4 [("minecraft.net", green)] [("minecraft.net", green)]).
  reflexivity.
Defined.

Example bodies_differ_with_verdict :
  stringify_data 4 [("minecraft.net", green)] <> stringify_data 4 [("minecraft.net", red)].
Proof. intros H. vm_compute in H. discriminate H. Qed.

(** ** How many requests a server sends *)

Lemma fetches_length :
  forall evs, List.length (fetches evs) = List.length (filter is_fetch evs).
Proof.
  induction evs as [|e evs IH]; simpl; [reflexivity|].
  destruct e; simpl; auto.
Qed.

Lemma footprint_requests :
  forall url basic s s',
    footprint url basic s s' -> (requests s' <= requests s + 2)%nat.
Proof.
  intros url basic s s' (evs & Hlog & _ & _ & _ & _ & Hn).
  rewrite (fetches_length evs) in Hn.
  unfold requests. rewrite Hlog, filter_app, length_app.
  destruct basic; lia.
Qed.

Section RequestBudget.
Variable ttl : Z.
Variable HOSTS : list string.
Variable probeHost : string -> Eff Verdict.
Hypothesis probe_budget :
  forall h w s, (requests (snd (probeHost h w s)) <= requests s + 2)%nat.

Lemma probe_all_budget :
  forall hosts w s,
    (requests (snd (probe_all probeHost hosts w s))
     <= requests s + 2 * List.length hosts)%nat.
Proof.
  induction hosts as [|h r IH]; intros w s; simpl; [lia|].
  unfold bind. pose proof (probe_budget h w s) as Hh.
  destruct (probeHost h w s) as [[v|] s1]; simpl in *; [|lia].
  specialize (IH w s1).
  destruct (probe_all probeHost r w s1) as [[vs|] s2]; simpl in *; lia.
Qed.

Lemma budget_getStatusData :
  forall now w s,
    (requests (store s) <= 2 * List.length HOSTS * refreshes s)%nat ->
    let s' := snd (getStatusData HOSTS probeHost now w s) in
    (requests (store s') <= 2 * List.length HOSTS * refreshes s')%nat.
Proof.
  intros now w s H. simpl.
  destruct (getStatusData_state HOSTS probeHost now w s) as [-> | [_ ->]]; [exact H|].
  unfold start_refresh. pose proof (probe_all_budget HOSTS w (store s)) as Hb.
  destruct (probe_all probeHost HOSTS w (store s)) as [results st]. simpl in *. nia.
Qed.

Lemma budget_exec :
  forall sched s s' rs,
    (requests (store s) <= 2 * List.length HOSTS * refreshes s)%nat ->
    exec ttl HOSTS probeHost s sched = Some (s', rs) ->
    (requests (store s') <= 2 * List.length HOSTS * refreshes s')%nat.
Proof.
  induction sched as [|a rest IH]; intros s s' rs Hs; simpl.
  - intros E. inversion E; subst. exact Hs.
  - destruct a as [now w | p t]; unfold step.
    + pose proof (budget_getStatusData now w s Hs) as H1. simpl in H1.
      destruct (getStatusData HOSTS probeHost now w s) as [r s1]. simpl in H1.
      destruct (exec ttl HOSTS probeHost s1 rest) as [[s2 rs2]|] eqn:Er; [|discriminate].
      intros E. inversion E; subst. apply (IH s1 s' rs2 H1 Er).
    + destruct (settle ttl HOSTS p s) as [s1|] eqn:Es; [|discriminate]. simpl.
      destruct (exec ttl HOSTS probeHost s1 rest) as [[s2 rs2]|] eqn:Er; [|discriminate].
      intros E. inversion E; subst. apply (IH s1 s' rs); [|exact Er].
      unfold settle in Es. destruct (find (is_flight p) (running s)); [|discriminate].
      destruct (flight_results f); inversion Es; subst; simpl; exact Hs.
Qed.
End RequestBudget.

(** A call that finds a fresh snapshot, or a refresh pending, leaves the
    whole state of the process as it was. *)
Lemma getStatusData_idle :
  forall HOSTS probeHost now w s,
    (exists d, data (cache s) = Some d /\ now < expires (cache s)) \/
    (exists p, inFlight (cache s) = Some p) ->
    snd (getStatusData HOSTS probeHost now w s) = s.
Proof.
  intros HOSTS probeHost now w s H. unfold getStatusData.
  destruct H as [(d & Hd & Hexp) | (p & Hp)].
  - rewrite Hd. replace (expires (cache s) >? now) with true; [reflexivity|].
    symmetry. apply Z.gtb_lt. exact Hexp.
  - rewrite Hp.
    destruct (data (cache s)); [destruct (expires (cache s) >? now)|]; reflexivity.
Qed.

Lemma settle_store :
  forall ttl HOSTS p s s1, settle ttl HOSTS p s = Some s1 -> store s1 = store s.
Proof.
  intros ttl HOSTS p s s1 Es. unfold settle in Es.
  destruct (find (is_flight p) (running s)); [|discriminate].
  destruct (flight_results f); inversion Es; subst; reflexivity.
Qed.

(** X15: over any run of either server, the number of outbound requests
    sent so far is at most twice the number of hosts for each refresh
    started; a call answered from the cache or joined to a pending
    refresh leaves the state of the process, its count of requests
    included, as it was, and so does the completion of a refresh as far
    as the log goes. *)
Theorem requests_bounded_by_refreshes :
  forall ttl cfg name sched,
    (forall s rs,
        exec ttl Server.HOSTS (Server.probeHost cfg name) initial sched = Some (s, rs) ->
        (requests (store s) <= 2 * List.length Server.HOSTS * refreshes s)%nat) /\
    (forall s rs,
        exec ttl Variant.HOSTS (Variant.probeHost cfg) initial sched = Some (s, rs) ->
        (requests (store s) <= 2 * List.length Variant.HOSTS * refreshes s)%nat) /\
    (forall now w s,
        (exists d, data (cache s) = Some d /\ now < expires (cache s)) \/
        (exists p, inFlight (cache s) = Some p) ->
        snd (getStatusData Server.HOSTS (Server.probeHost cfg name) now w s) = s /\
        snd (getStatusData Variant.HOSTS (Variant.probeHost cfg) now w s) = s /\
        requests (store (snd (getStatusData Server.HOSTS (Server.probeHost cfg name) now w s)))
        = requests (store s) /\
        requests (store (snd (getStatusData Variant.HOSTS (Variant.probeHost cfg) now w s)))
        = requests (store s)) /\
    (forall p s s1,
        settle ttl Server.HOSTS p s = Some s1 \/ settle ttl Variant.HOSTS p s = Some s1 ->
        requests (store s1) = requests (store s)).
Proof.
  intros ttl cfg name sched. split; [|split; [|split]].
  - intros s rs E.
    apply (budget_exec ttl Server.HOSTS (Server.probeHost cfg name)) with sched initial rs.
    + intros h w st. eapply footprint_requests. apply Server_probeHost_footprint.
    + unfold requests; simpl; lia.
    + exact E.
  - intros s rs E.
    apply (budget_exec ttl Variant.HOSTS (Variant.probeHost cfg)) with sched initial rs.
    + intros h w st. eapply footprint_requests. apply Variant_probeHost_footprint.
    + unfold requests; simpl; lia.
    + exact E.
  - intros now w s H.
    rewrite !(getStatusData_idle _ _ now w s H). auto.
  - intros p s s1 [E | E]; rewrite (settle_store _ _ _ _ _ E); reflexivity.
Qed.

Lemma requests_bounded_by_refreshes_witness :
  exists s rs,
    exec 30000 Server.HOSTS (Server.probeHost default_config JNull) initial demo_schedule
      = Some (s, rs) /\
    (requests (store s) <= 2 * List.length Server.HOSTS * refreshes s)%nat.
Proof.
  eexists. eexists. split.
  - vm_compute. reflexivity.
  - eapply (proj1 (requests_bounded_by_refreshes 30000 default_config JNull demo_schedule)).
    vm_compute. reflexivity.
Defined.

(** ** Values of different types *)

(** X16: values of different JSON types (null, boolean, number, string,
    array, object) never get the same canonical string from
    [canonicalStringify], with one exception: a number that overflowed to
    an infinity prints as [null].  With such numbers read as [null], two
    values with one canonical string have one type; the string "null" is
    not [null] and the string "1" is not the number 1. *)
Theorem canonicalStringify_keeps_type :
  (forall stack v w s,
      wf_json v -> wf_json w ->
      canonicalStringify stack v = Returns s ->
      canonicalStringify stack w = Returns s ->
      kind (nonfinite_as_null v) = kind (nonfinite_as_null w)) /\
  (forall stack negative,
      canonicalStringify stack (JNum (Infinite negative))
      = canonicalStringify stack JNull) /\
  (forall stack,
      (1 <= stack)%nat ->
      canonicalStringify stack (JStr "null") <> canonicalStringify stack JNull /\
      canonicalStringify stack (JStr "1") <> canonicalStringify stack (JNum (int 1))).
Proof.
  split; [|split].
  - intros stack v w s Hv Hw E1 E2.
    apply (canonical_text_same_kind _ _ "" "");
      try (apply nonfinite_as_null_plain; assumption).
    rewrite !str_app_nil_r, !nonfinite_as_null_text.
    rewrite <- (canonicalStringify_returns stack v s E1).
    apply (canonicalStringify_returns stack w s E2).
  - intros [|room] negative; reflexivity.
  - intros [|room] H; [lia|]. split; discriminate.
Qed.

Lemma canonicalStringify_keeps_type_witness :
  canonicalStringify 2 obj_ba = canonicalStringify 2 obj_ab /\
  kind (nonfinite_as_null obj_ba) = kind (nonfinite_as_null obj_ab).
Proof.
  split; [reflexivity|].
  apply (proj1 canonicalStringify_keeps_type 2%nat obj_ba obj_ab
           (canonical_text obj_ba)).
  - exact obj_ba_wf.
  - apply (reorder_canonical obj_ba obj_ab); [|exact obj_ba_wf].
    apply reorder_props. apply perm_swap.
  - reflexivity.
  - reflexivity.
Defined.
